(** * nim-react-toastify: the scaffolding CLI ([src/cli.js])

    A shallow embedding of the command-line tool that detects a project's
    stack, locates its root source file, emits a provider template and
    patches the root file (import line + JSX wrapper), together with the
    properties of that pipeline.

    Conventions of the embedding:
    - a JavaScript string is the list of its UTF-16 code units ([jsstring]);
    - an index is a [nat]; the sentinel [-1] / [null] / [undefined] of the
      source is [None];
    - a regular expression literal is a value of type [re], interpreted by a
      backtracking matcher that follows the ECMAScript matcher
      (continuation passing, greedy quantifiers, leftmost match);
    - the file system below the working directory is a finite map from
      relative paths to nodes; console output is a list of events. *)

From Stdlib Require Import NArith Ascii String DecimalString.
From stdpp Require Import base option list gmap strings.

Set Default Proof Using "Type".

(** ** Strings *)

Abbreviation char := N.
Abbreviation jsstring := (list char).

(** String literal of the source, as code units (ASCII literals only). *)
Definition lit (s : string) : jsstring :=
  map N_of_ascii (list_ascii_of_string s).

Definition jsstring_eqb (a b : jsstring) : bool := bool_decide (a = b).

(** [is_prefix pat s]: [s.startsWith(pat)]. *)
Fixpoint is_prefix (pat s : jsstring) : bool :=
  match pat, s with
  | [], _ => true
  | p :: pat', c :: s' => N.eqb p c && is_prefix pat' s'
  | _ :: _, [] => false
  end.

(** [s.includes(pat)]. *)
Fixpoint includes (s pat : jsstring) : bool :=
  is_prefix pat s ||
  match s with
  | [] => false
  | _ :: s' => includes s' pat
  end.

(** [s.lastIndexOf(pat)], [None] for [-1]: the greatest index at which
    [pat] occurs. *)
Fixpoint lastIndexOf_from (i : nat) (acc : option nat) (s pat : jsstring)
  : option nat :=
  let acc' := if is_prefix pat s then Some i else acc in
  match s with
  | [] => acc'
  | _ :: s' => lastIndexOf_from (S i) acc' s' pat
  end.

Definition lastIndexOf (s pat : jsstring) : option nat :=
  lastIndexOf_from 0 None s pat.

(** [s.slice(a, b)] and [s.slice(a)] for non-negative indices. *)
Definition slice (s : jsstring) (a b : nat) : jsstring := take (b - a) (drop a s).
Definition slice_from (s : jsstring) (a : nat) : jsstring := drop a s.

(** ** Character classes *)

Definition is_chr (a : ascii) (c : char) : bool := N.eqb c (N_of_ascii a).

(** [[^>]] *)
Definition not_gt (c : char) : bool := negb (is_chr ">" c).

(** [\s]: WhiteSpace and LineTerminator code points. *)
Definition is_space (c : char) : bool :=
  (N.leb 9 c && N.leb c 13) || N.eqb c 32 || N.eqb c 160 || N.eqb c 5760
  || (N.leb 8192 c && N.leb c 8202) || N.eqb c 8232 || N.eqb c 8233
  || N.eqb c 8239 || N.eqb c 8287 || N.eqb c 12288 || N.eqb c 65279.

(** [.]: anything but a line terminator. *)
Definition is_dot (c : char) : bool :=
  negb (N.eqb c 10 || N.eqb c 13 || N.eqb c 8232 || N.eqb c 8233).

(** Word characters of [\b]: [A-Za-z0-9_]. *)
Definition is_word (c : char) : bool :=
  (N.leb 65 c && N.leb c 90) || (N.leb 97 c && N.leb c 122)
  || (N.leb 48 c && N.leb c 57) || N.eqb c 95.

(** A pattern character under the [i] flag: an ASCII letter matches its two
    cases, any other ASCII character only itself. *)
Definition is_ci (a : ascii) (c : char) : bool :=
  let n := N_of_ascii a in
  if (N.leb 65 n && N.leb n 90) then N.eqb c n || N.eqb c (n + 32)
  else if (N.leb 97 n && N.leb n 122) then N.eqb c n || N.eqb c (n - 32)
  else N.eqb c n.

(** ** Regular expressions *)

Inductive re :=
| Eps
| Chr (p : char → bool)      (* one character of a class *)
| Star (p : char → bool)     (* greedy [p*] *)
| Opt (p : char → bool)      (* greedy [p?] *)
| Bos                        (* [^], no [m] flag *)
| Eos                        (* [$], no [m] flag *)
| Wb                         (* [\b] *)
| Seq (a b : re)
| Alt (a b : re)
| Cap (a : re).              (* capturing group *)

Fixpoint Lit_with (f : ascii → char → bool) (s : string) : re :=
  match s with
  | EmptyString => Eps
  | String a s' => Seq (Chr (f a)) (Lit_with f s')
  end.
Definition Lit := Lit_with is_chr.
Definition LitI := Lit_with is_ci.

Fixpoint Seqs (rs : list re) : re :=
  match rs with
  | [] => Eps
  | r :: rs' => Seq r (Seqs rs')
  end.

(** Matcher state: the consumed input (most recent first), the remaining
    input and the captures closed so far. *)
Record mstate := MState {
  consumed : list char;
  remaining : list char;
  captures : list jsstring
}.

Definition cont := mstate → option mstate.

Fixpoint star (p : char → bool) (k : cont) (pre suf : list char)
    (caps : list jsstring) : option mstate :=
  match suf with
  | c :: suf' =>
      if p c then
        match star p k (c :: pre) suf' caps with
        | Some r => Some r
        | None => k (MState pre suf caps)
        end
      else k (MState pre suf caps)
  | [] => k (MState pre suf caps)
  end.

Definition word_at (l : list char) : bool :=
  match l with
  | c :: _ => is_word c
  | [] => false
  end.

Fixpoint rmatch (r : re) (k : cont) (st : mstate) : option mstate :=
  match r with
  | Eps => k st
  | Chr p =>
      match remaining st with
      | c :: suf' =>
          if p c then k (MState (c :: consumed st) suf' (captures st)) else None
      | [] => None
      end
  | Star p => star p k (consumed st) (remaining st) (captures st)
  | Opt p =>
      match remaining st with
      | c :: suf' =>
          if p c then
            match k (MState (c :: consumed st) suf' (captures st)) with
            | Some r => Some r
            | None => k st
            end
          else k st
      | [] => k st
      end
  | Bos => match consumed st with [] => k st | _ :: _ => None end
  | Eos => match remaining st with [] => k st | _ :: _ => None end
  | Wb =>
      if xorb (word_at (consumed st)) (word_at (remaining st)) then k st
      else None
  | Seq a b => rmatch a (rmatch b k) st
  | Alt a b =>
      match rmatch a k st with
      | Some r => Some r
      | None => rmatch b k st
      end
  | Cap a =>
      rmatch a
        (fun st' =>
           k (MState (consumed st') (remaining st')
                (captures st' ++
                 [take (length (remaining st) - length (remaining st'))
                    (remaining st)])))
        st
  end.

(** The match object of [String.prototype.match] / [RegExp.prototype.exec]:
    the index of the match, the matched substring and the substrings of
    the capturing groups. *)
Record jsmatch := JsMatch {
  m_index : nat;
  m_text : jsstring;
  m_groups : list jsstring
}.

Definition match_at (r : re) (pre suf : list char) : option jsmatch :=
  match rmatch r Some (MState pre suf []) with
  | Some st' =>
      Some (JsMatch (length pre)
              (take (length suf - length (remaining st')) suf)
              (captures st'))
  | None => None
  end.

Fixpoint exec_from (r : re) (pre suf : list char) : option jsmatch :=
  match match_at r pre suf with
  | Some mo => Some mo
  | None =>
      match suf with
      | [] => None
      | c :: suf' => exec_from r (c :: pre) suf'
      end
  end.

(** [s.match(r)] for a regex without the [g] flag. *)
Definition regex_match (r : re) (s : jsstring) : option jsmatch :=
  exec_from r [] s.

(** [r.test(s)]. *)
Definition regex_test (r : re) (s : jsstring) : bool :=
  match regex_match r s with Some _ => true | None => false end.

(** [s.replace(r, f)] for a regex without the [g] flag. *)
Definition regex_replace (r : re) (f : jsmatch → jsstring) (s : jsstring)
  : jsstring :=
  match regex_match r s with
  | None => s
  | Some mo =>
      take (m_index mo) s ++ f mo ++ drop (m_index mo + length (m_text mo)) s
  end.

(** [s.match(r)] for a regex with the [g] flag: the texts of the successive
    matches ([skip] counts the characters still covered by the previous
    match; an empty match advances by one). *)
Fixpoint match_all_from (r : re) (skip : nat) (pre suf : list char)
  : list jsstring :=
  match skip with
  | S n =>
      match suf with
      | [] => []
      | c :: suf' => match_all_from r n (c :: pre) suf'
      end
  | 0 =>
      match match_at r pre suf with
      | Some mo =>
          m_text mo ::
          match suf with
          | [] => []
          | c :: suf' => match_all_from r (length (m_text mo) - 1) (c :: pre) suf'
          end
      | None =>
          match suf with
          | [] => []
          | c :: suf' => match_all_from r 0 (c :: pre) suf'
          end
      end
  end.

Definition regex_match_all (r : re) (s : jsstring) : option (list jsstring) :=
  match match_all_from r 0 [] s with
  | [] => None
  | l => Some l
  end.

(** ** [wrapJSXReturn] *)

(** [/return\s*\(\s*<[^>]/m] *)
Definition re_return_jsx : re :=
  Seqs [Lit "return"; Star is_space; Chr (is_chr "("); Star is_space;
        Chr (is_chr "<"); Chr not_gt].

(** [/\<\s*${Provider}\b/]: a regex literal, not a template string, so
    nothing is interpolated: [$] is the end-of-input assertion and
    [{Provider}] are literal characters. *)
Definition re_double_wrap : re :=
  Seqs [Chr (is_chr "<"); Star is_space; Eos; Lit "{Provider}"; Wb].

(** The [while] loop of [wrapJSXReturn], started at index [i] on the
    characters [l] from that index on: the index of the first [")"] met at
    depth 0, [None] when the loop ends with [endIdx === -1]. *)
Fixpoint scan_close (l : list char) (depth i : nat) : option nat :=
  match l with
  | [] => None
  | ch :: l' =>
      let depth := if is_chr "(" ch then S depth else depth in
      if is_chr ")" ch then
        match depth with
        | 0 => Some i
        | S d => scan_close l' d (S i)
        end
      else scan_close l' depth (S i)
  end.

Definition open_tag (Provider : jsstring) : jsstring :=
  lit "<" ++ Provider ++ lit ">".
Definition close_tag (Provider : jsstring) : jsstring :=
  lit "</" ++ Provider ++ lit ">".

Definition wrapJSXReturn (code Provider : jsstring) : jsstring :=
  match regex_match re_return_jsx code with
  | None => code
  | Some mo =>
      let start := m_index mo + length (m_text mo) - 1 in
      match scan_close (drop start code) 0 start with
      | None => code
      | Some endIdx =>
          let before := slice code 0 start in
          let inside := slice code start endIdx in
          let after := slice_from code endIdx in
          if regex_test re_double_wrap inside then code
          else before ++ (open_tag Provider ++ inside ++ close_tag Provider) ++ after
      end
  end.

Definition providerName : jsstring := lit "NotificationsProvider".

(** ** The import step *)

(** [/(^|\n)import .*;?/g] *)
Definition re_import_line : re :=
  Seqs [Cap (Alt Bos (Chr (is_chr "010"))); Lit "import "; Star is_dot;
        Opt (is_chr ";")].

(** [new RegExp(`import\\s*\\{\\s*${providerName}\\s*\\}`)]: a template
    string, so the provider's name is interpolated. *)
Definition re_import_guard : re :=
  Seqs [Lit "import"; Star is_space; Chr (is_chr "{"); Star is_space;
        Lit "NotificationsProvider"; Star is_space; Chr (is_chr "}")].

Definition nl : jsstring := lit (String "010" EmptyString).

(** The test of the [if] at lines 107-110. *)
Definition import_missing (importLine code : jsstring) : bool :=
  negb (includes code importLine) && negb (regex_test re_import_guard code).

(** The insertion at lines 112-119; [code.lastIndexOf(lastImport)] is
    never [-1] since [lastImport] is a substring of [code] (the [None]
    branch spells out [-1 + lastImport.length] all the same). *)
Definition insert_import (importLine code : jsstring) : jsstring :=
  match regex_match_all re_import_line code with
  | Some importBlock =>
      let lastImport := List.last importBlock [] in
      let idx :=
        match lastIndexOf code lastImport with
        | Some i => i + length lastImport
        | None => length lastImport - 1
        end in
      slice code 0 idx ++ nl ++ importLine ++ nl ++ slice_from code idx
  | None => importLine ++ nl ++ code
  end.

Definition import_step (importLine code : jsstring) : jsstring :=
  if import_missing importLine code then insert_import importLine code
  else code.

(** ** The fallback wrappers *)

Inductive stack := Next | ReactNative | React.

Definition stack_eqb (a b : stack) : bool :=
  match a, b with
  | Next, Next | ReactNative, ReactNative | React, React => true
  | _, _ => false
  end.

(** [/export default function/i] *)
Definition re_export_default_function : re := LitI "export default function".

(** [/return\s*\(\s*<html(G)>\s*<body(G)>/i], where each group [G] is
    a greedy run of characters other than [>]. *)
Definition re_html_body_open : re :=
  Seqs [LitI "return"; Star is_space; Chr (is_chr "("); Star is_space;
        LitI "<html"; Cap (Star not_gt); Chr (is_chr ">"); Star is_space;
        LitI "<body"; Cap (Star not_gt); Chr (is_chr ">")].

(** [/<\/body>\s*<\/html>\s*\)\s*;?\s*$/i] *)
Definition re_html_body_close : re :=
  Seqs [LitI "</body>"; Star is_space; LitI "</html>"; Star is_space;
        Chr (is_chr ")"); Star is_space; Opt (is_chr ";"); Star is_space; Eos].

(** [/return\s*\(/] and [/return\s*\(\s*/] *)
Definition re_return_paren : re :=
  Seqs [Lit "return"; Star is_space; Chr (is_chr "(")].
Definition re_return_paren_ws : re :=
  Seqs [Lit "return"; Star is_space; Chr (is_chr "("); Star is_space].

(** The condition of the [if] at lines 134-138. *)
Definition is_next_layout (stk : stack) (code : jsstring) : bool :=
  stack_eqb stk Next
  && regex_test re_export_default_function code
  && includes code (lit "{ children }").

(** Lines 139-147. *)
Definition wrap_next_layout (code : jsstring) : jsstring :=
  regex_replace re_html_body_close
    (fun _ => lit "</" ++ providerName ++ lit "></body></html>)")
    (regex_replace re_html_body_open
       (fun mo =>
          let a := nth 0 (m_groups mo) [] in
          let b := nth 1 (m_groups mo) [] in
          lit "return (<html" ++ a ++ lit "><body" ++ b ++ lit "><"
            ++ providerName ++ lit ">")
       code).

(** Lines 150-157. *)
Definition wrap_generic (code : jsstring) : jsstring :=
  let code :=
    regex_replace re_return_paren_ws
      (fun mo => m_text mo ++ open_tag providerName) code in
  match lastIndexOf code (lit ");") with
  | Some lastParen =>
      slice code 0 lastParen ++ close_tag providerName
        ++ slice_from code lastParen
  | None => code
  end.

(** Lines 134-158: the body of [if (code === before)]. *)
Definition fallback_wrap (stk : stack) (code : jsstring) : jsstring :=
  if is_next_layout stk code then wrap_next_layout code
  else if regex_test re_return_paren code then wrap_generic code
  else code.

(** ** Paths (POSIX; all paths are relative to the working directory) *)

Definition slash : char := N_of_ascii "/".
Definition dquote : char := 34%N.

(** [p.split("/")] *)
Fixpoint split_path (p : jsstring) : list jsstring :=
  match p with
  | [] => [[]]
  | c :: p' =>
      if N.eqb c slash then [] :: split_path p'
      else match split_path p' with
           | seg :: segs => (c :: seg) :: segs
           | [] => [[c]]
           end
  end.

Fixpoint join_path (segs : list jsstring) : jsstring :=
  match segs with
  | [] => []
  | [seg] => seg
  | seg :: segs' => seg ++ slash :: join_path segs'
  end.

(** [path.dirname(p)], as path segments below the working directory. *)
Definition path_dirname (p : jsstring) : list jsstring :=
  removelast (split_path p).

Fixpoint strip_common (a b : list jsstring) : list jsstring * list jsstring :=
  match a, b with
  | x :: a', y :: b' =>
      if jsstring_eqb x y then strip_common a' b' else (a, b)
  | _, _ => (a, b)
  end.

(** [path.relative(from, to)]. *)
Definition path_relative (from : list jsstring) (to : jsstring) : jsstring :=
  let '(up, down) := strip_common from (split_path to) in
  join_path (map (fun _ => lit "..") up ++ down).

(** [/\.tsx?$/] and [/\.jsx?$/] *)
Definition re_ts_ext : re :=
  Seqs [Chr (is_chr "."); Lit "ts"; Opt (is_chr "x"); Eos].
Definition re_js_ext : re :=
  Seqs [Chr (is_chr "."); Lit "js"; Opt (is_chr "x"); Eos].

(** [/^\.\./] *)
Definition re_leading_dotdot : re :=
  Seqs [Bos; Chr (is_chr "."); Chr (is_chr ".")].

(** [.replace(/\\/g, "/")] *)
Definition backslashes_to_slashes (s : jsstring) : jsstring :=
  map (fun c => if is_chr "\" c then slash else c) s.

(** Lines 99-105. *)
Definition importLine_of (rootPath providerFile : jsstring) : jsstring :=
  lit "import { " ++ providerName ++ lit " } from "
    ++ dquote ::
       regex_replace re_js_ext (fun _ => [])
         (regex_replace re_ts_ext (fun _ => [])
            (backslashes_to_slashes
               (regex_replace re_leading_dotdot (fun mo => m_text mo)
                  (path_relative (path_dirname rootPath) providerFile))))
    ++ dquote :: lit ";".

(** ** The manifest *)

(** A value produced by [JSON.parse]; of a number only its truthiness is
    observed. *)
#[warnings="-register-all"] Inductive json :=
| JNull
| JBool (b : bool)
| JNum (nonzero : bool)
| JStr (s : jsstring)
| JArr (elems : list json)
| JObj (props : gmap jsstring json).

(** [v || {}] followed by a property read or a spread only looks at the
    own properties of a truthy [v]. *)
Definition truthy (v : json) : bool :=
  match v with
  | JNull => false
  | JBool b => b
  | JNum nz => nz
  | JStr s => negb (bool_decide (s = []))
  | JArr _ | JObj _ => true
  end.

(** [v.key] for a key that no prototype defines; [None] is [undefined]. *)
Definition get_prop (v : json) (key : jsstring) : option json :=
  match v with
  | JObj props => props !! key
  | _ => None
  end.

Definition decimal (n : nat) : jsstring :=
  lit (DecimalString.NilZero.string_of_uint (Nat.to_uint n)).

(** The own enumerable properties copied by a spread [{...v}]. *)
Definition own_props (v : json) : gmap jsstring json :=
  match v with
  | JObj props => props
  | JArr elems => list_to_map (imap (fun i x => (decimal i, x)) elems)
  | JStr s => list_to_map (imap (fun i c => (decimal i, JStr [c])) s)
  | JNull | JBool _ | JNum _ => ∅
  end.

(** [x || {}] where [x] may be [undefined]. *)
Definition or_empty (x : option json) : json :=
  match x with
  | Some v => if truthy v then v else JObj ∅
  | None => JObj ∅
  end.

(** Lines 19-22: [{...(pkg.dependencies || {}), ...(pkg.devDependencies || {})}];
    a later spread overrides an earlier one. *)
Definition merged_deps (pkg : json) : gmap jsstring json :=
  own_props (or_empty (get_prop pkg (lit "devDependencies")))
  ∪ own_props (or_empty (get_prop pkg (lit "dependencies"))).

(** [key in deps], for a key that [Object.prototype] does not define. *)
Definition has_key (key : jsstring) (deps : gmap jsstring json) : bool :=
  bool_decide (is_Some (deps !! key)).

(** ** The process: file system, console, exceptions, exit *)

Inductive node :=
| File (data : jsstring)
| Dir.

Inductive exn :=
| ENOENT (p : jsstring)       (* no such file or directory *)
| EISDIR (p : jsstring)       (* illegal operation on a directory *)
| EEXIST (p : jsstring)       (* [mkdir]: a file is at the path *)
| ENOTDIR (p : jsstring)      (* [mkdir]: a file is above the path *)
| SyntaxError.                (* thrown by [JSON.parse] *)

(** One event per [LOG] / [WARN] / [ERR] call of the source. *)
Inductive event :=
| LOG_detecting
| LOG_stack (stk : stack)
| ERR_no_root
| LOG_root (p : jsstring)
| LOG_created (p : jsstring)
| WARN_provider_exists (p : jsstring)
| LOG_import_inserted
| WARN_import_exists
| WARN_fallback
| LOG_updated (p : jsstring)
| LOG_done
| LOG_hint_import (p : jsstring)
| LOG_hint_hook
| LOG_hint_show (native : bool)
| ERR_caught (e : exn).

Record state := State {
  st_fs : gmap jsstring node;
  st_log : list event
}.

Inductive outcome (A : Type) :=
| Return (a : A) (s : state)
| Throw (e : exn) (s : state)      (* an exception propagates *)
| Exit (code : nat) (s : state).   (* [process.exit(code)] *)
Arguments Return {A} a s.
Arguments Throw {A} e s.
Arguments Exit {A} code s.

Definition M (A : Type) : Type := state → outcome A.

Definition ret {A} (a : A) : M A := fun s => Return a s.

Definition bind {A B} (m : M A) (k : A → M B) : M B :=
  fun s =>
    match m s with
    | Return a s' => k a s'
    | Throw e s' => Throw e s'
    | Exit c s' => Exit c s'
    end.

Definition throw {A} (e : exn) : M A := fun s => Throw e s.
Definition process_exit {A} (code : nat) : M A := fun s => Exit code s.

(** [try { m } catch (e) { h e }]; [process.exit] is not an exception. *)
Definition try_catch {A} (m : M A) (h : exn → M A) : M A :=
  fun s =>
    match m s with
    | Throw e s' => h e s'
    | r => r
    end.

Definition log (e : event) : M unit :=
  fun s => Return () (State (st_fs s) (st_log s ++ [e])).

Notation "'let*' x ':=' m 'in' k" := (bind m (fun x => k))
  (at level 10, x name, m at level 100, k at level 200).
Notation "m >> k" := (bind m (fun _ => k))
  (at level 100, k at level 200, right associativity).

Definition existsSync (p : jsstring) : M bool :=
  fun s => Return (bool_decide (is_Some (st_fs s !! p))) s.

Definition readFileSync (p : jsstring) : M jsstring :=
  fun s =>
    match st_fs s !! p with
    | Some (File data) => Return data s
    | Some Dir => Throw (EISDIR p) s
    | None => Throw (ENOENT p) s
    end.

(** [fs.writeFileSync(p, data, "utf8")]; at both call sites the parent
    directory exists (it was just created, or the file was just read). *)
Definition writeFileSync (p data : jsstring) : M unit :=
  fun s =>
    match st_fs s !! p with
    | Some Dir => Throw (EISDIR p) s
    | _ => Return () (State (<[p := File data]> (st_fs s)) (st_log s))
    end.

(** [fs.mkdirSync(dir, { recursive: true })], given the chain of
    directories from the working directory down to [dir]: a regular file
    at [dir] raises [EEXIST], one at a directory above [dir] raises
    [ENOTDIR], both for the path [dir]. *)
Fixpoint mkdirSync_recursive (chain : list jsstring) : M unit :=
  match chain with
  | [] => ret ()
  | d :: chain' =>
      fun s =>
        match st_fs s !! d with
        | Some (File _) =>
            match chain' with
            | [] => Throw (EEXIST d) s
            | _ :: _ => Throw (ENOTDIR (List.last chain' d)) s
            end
        | Some Dir => mkdirSync_recursive chain' s
        | None =>
            mkdirSync_recursive chain'
              (State (<[d := Dir]> (st_fs s)) (st_log s))
        end
  end.

(** [a || b] on effectful operands. *)
Definition orM (a b : M bool) : M bool :=
  let* x := a in if x then ret true else b.

(** [paths.find(fs.existsSync)] *)
Fixpoint find_existing (paths : list jsstring) : M (option jsstring) :=
  match paths with
  | [] => ret None
  | p :: paths' =>
      let* x := existsSync p in
      if x then ret (Some p) else find_existing paths'
  end.

(** Lines 36-56. *)
Definition candidates : list jsstring :=
  map lit
    ["app/layout.tsx"; "app/layout.jsx"; "src/app/layout.tsx";
     "src/app/layout.jsx"; "app/_layout.tsx"; "app/_layout.jsx"; "App.tsx";
     "App.jsx"; "src/App.tsx"; "src/App.jsx"; "App.js"; "src/App.js";
     "index.tsx"; "index.jsx"; "src/index.tsx"; "src/index.jsx"]%string.

(** Line 32. *)
Definition stack_of (isNext isRN : bool) : stack :=
  if isNext then Next else if isRN then ReactNative else React.

Definition targetDir : jsstring := lit "src/nim-react-toastify".

(** Lines 76-79. *)
Definition providerFile_of (usesTS : bool) : jsstring :=
  targetDir ++ slash :: providerName ++ lit "."
    ++ (if usesTS then lit "tsx" else lit "jsx").

(** Lines 191-193: [path.relative(cwd, p) || "."], the working directory
    being the empty list of segments. *)
Definition rel (p : jsstring) : jsstring :=
  let r := path_relative [] p in
  if bool_decide (r = []) then lit "." else r.

(** [/\.(t|j)sx?$/] and lines 194-196. *)
Definition re_any_ext : re :=
  Seqs [Chr (is_chr "."); Cap (Alt (Chr (is_chr "t")) (Chr (is_chr "j")));
        Chr (is_chr "s"); Opt (is_chr "x"); Eos].
Definition relNoExt (p : jsstring) : jsstring :=
  regex_replace re_any_ext (fun _ => []) (rel p).

Section Run.

(** [JSON.parse]: [None] when it throws a [SyntaxError]. *)
Variable JSON_parse : jsstring → option json.

(** The files installed next to [cli.js] ([__dirname]), which
    [readTemplate] reads. *)
Variable pkg_files : gmap jsstring jsstring.

(** Lines 180-186. *)
Definition readJSONSafe (p : jsstring) : M json :=
  try_catch
    (let* txt := readFileSync p in
     match JSON_parse txt with
     | Some v => ret v
     | None => throw SyntaxError
     end)
    (fun _ => ret JNull).

(** Lines 187-190. *)
Definition readTemplate (relPath : jsstring) : M jsstring :=
  match pkg_files !! relPath with
  | Some data => ret data
  | None => throw (ENOENT relPath)
  end.

(** Lines 18-32: the stack detector. *)
Definition detect_stack : M stack :=
  let* pkg0 := readJSONSafe (lit "package.json") in
  let pkg := or_empty (Some pkg0) in
  let deps := merged_deps pkg in
  let isNext := has_key (lit "next") deps in
  let* isRN :=
    orM (ret (has_key (lit "react-native") deps))
      (orM (existsSync (lit "app.json"))
         (orM (existsSync (lit "expo.json"))
            (existsSync (lit "expo.config.js")))) in
  ret (stack_of isNext isRN).

(** Lines 58-67: the root locator. *)
Definition locate_root : M jsstring :=
  let* rootPath := find_existing candidates in
  match rootPath with
  | None => log ERR_no_root >> process_exit 1
  | Some p => log (LOG_root p) >> ret p
  end.

(** Lines 71-94: the template emitter. *)
Definition emit_template (stk : stack) (usesTS : bool) : M jsstring :=
  mkdirSync_recursive [lit "src"; targetDir] >>
  let providerFile := providerFile_of usesTS in
  let* present := existsSync providerFile in
  (if negb present then
     let* template :=
       (if stack_eqb stk ReactNative
        then readTemplate (lit "templates/provider.rn.tsx")
        else readTemplate (lit "templates/provider.web.tsx")) in
     writeFileSync providerFile template >>
     log (LOG_created providerFile)
   else log (WARN_provider_exists providerFile)) >>
  ret providerFile.

(** Lines 97-161: the source patcher. *)
Definition patch_root (stk : stack) (rootPath providerFile : jsstring)
  : M unit :=
  let* code := readFileSync rootPath in
  let importLine := importLine_of rootPath providerFile in
  let* code :=
    (if import_missing importLine code then
       log LOG_import_inserted >> ret (insert_import importLine code)
     else log WARN_import_exists >> ret code) in
  let before := code in
  let code := wrapJSXReturn code providerName in
  let* code :=
    (if jsstring_eqb code before then
       log WARN_fallback >> ret (fallback_wrap stk code)
     else ret code) in
  writeFileSync rootPath code >>
  log (LOG_updated rootPath).

(** Lines 15-173: the body of the [try]. *)
Definition main : M unit :=
  log LOG_detecting >>
  let* stk := detect_stack in
  log (LOG_stack stk) >>
  let* rootPath := locate_root in
  let usesTS := regex_test re_ts_ext rootPath in
  let* providerFile := emit_template stk usesTS in
  patch_root stk rootPath providerFile >>
  log LOG_done >>
  log (LOG_hint_import (relNoExt providerFile)) >>
  log LOG_hint_hook >>
  log (LOG_hint_show (stack_eqb stk ReactNative)).

(** Lines 14-178: one run of the tool, from an initial file system to
    the final file system, the console output and the exit status. *)
Definition run (fs : gmap jsstring node) : state * nat :=
  match main (State fs []) with
  | Return _ s => (s, 0)
  | Exit code s => (s, code)
  | Throw e s => (State (st_fs s) (st_log s ++ [ERR_caught e]), 1)
  end.

End Run.

(** ** Notions used to state the properties *)

Fixpoint take_while (p : char → bool) (l : jsstring) : jsstring :=
  match l with
  | c :: l' => if p c then c :: take_while p l' else []
  | [] => []
  end.

Fixpoint drop_while (p : char → bool) (l : jsstring) : jsstring :=
  match l with
  | c :: l' => if p c then drop_while p l' else l
  | [] => []
  end.

(** [st'] is reached from [st] by consuming the characters [m]. *)
Definition advances (st st' : mstate) (m : jsstring) : Prop :=
  consumed st' = rev m ++ consumed st ∧ remaining st = m ++ remaining st'.

(** The characters of [suf] match the pattern characters of [s] one by
    one. *)
Fixpoint match_chars (f : ascii → char → bool) (s : string) (suf : jsstring)
  : bool :=
  match s, suf with
  | EmptyString, _ => true
  | String a s', c :: suf' => f a c && match_chars f s' suf'
  | String _ _, [] => false
  end.

(** What follows a [return\s*\(] found at the very start of [suf]. *)
Definition after_return_paren (suf : jsstring) : option jsstring :=
  if is_prefix (lit "return") suf then
    match drop_while is_space (drop 6 suf) with
    | c :: r => if is_chr "(" c then Some r else None
    | [] => None
    end
  else None.

Definition lt_chr : char := N_of_ascii "<".

(** Lines 205-224 of [wrapJSXReturn]: the indices [start] and [endIdx],
    when the loop finds a closing parenthesis. *)
Definition return_jsx_span (code : jsstring) : option (nat * nat) :=
  match regex_match re_return_jsx code with
  | None => None
  | Some mo =>
      let start := m_index mo + length (m_text mo) - 1 in
      match scan_close (drop start code) 0 start with
      | None => None
      | Some endIdx => Some (start, endIdx)
      end
  end.

(** [t] is a text matched by [return\s*\(\s*]. *)
Definition return_paren_ws_text (t : jsstring) : Prop :=
  ∃ ws1 ws2,
    t = lit "return" ++ ws1 ++ N_of_ascii "(" :: ws2
    ∧ forallb is_space ws1 = true ∧ forallb is_space ws2 = true.

(** A [return\s*\(\s*<x], with [x] other than [>], starts at index [j] of
    [code]. *)
Definition return_jsx_at (code : jsstring) (j : nat) : Prop :=
  ∃ pre Z c rest,
    code = pre ++ Z ++ lt_chr :: c :: rest
    ∧ return_paren_ws_text Z ∧ not_gt c = true ∧ length pre = j.

(** Numbers of opening and of closing parentheses. *)
Definition opens (l : jsstring) : nat := length (List.filter (is_chr "(") l).
Definition closes (l : jsstring) : nat := length (List.filter (is_chr ")") l).

(** At index [n] of [l] there is a closing parenthesis that closes one
    parenthesis more than [l] has opened so far, [d] parentheses being open
    at the start of [l]. *)
Definition closes_at (d : nat) (l : jsstring) (n : nat) : Prop :=
  l !! n = Some (N_of_ascii ")") ∧ d + opens (take n l) = closes (take n l).

(** The first closing parenthesis of [l] that matches no opening
    parenthesis of [l]. *)
Definition first_unmatched_close (l : jsstring) (n : nat) : Prop :=
  closes_at 0 l n ∧ ∀ m, m < n → ¬ closes_at 0 l m.

(** The three pieces that [wrapJSXReturn] cuts the code into (its variables
    [before], [inside] and [after]), in the terms of the string: [before]
    ends with the [<] of the first [return (<x]; [after] starts with the
    first closing parenthesis, from the character after that [<] on, that
    matches no opening parenthesis; [inside] is what lies between. *)
Definition return_jsx_split (code before inside after : jsstring) : Prop :=
  ∃ pre Z c rest n,
    code = pre ++ Z ++ lt_chr :: c :: rest
    ∧ return_paren_ws_text Z ∧ not_gt c = true
    ∧ (∀ j, return_jsx_at code j → length pre ≤ j)
    ∧ first_unmatched_close (c :: rest) n
    ∧ before = pre ++ Z ++ [lt_chr]
    ∧ inside = take n (c :: rest)
    ∧ after = drop n (c :: rest).


(** No [<] in [u]. *)
Definition lt_free (u : jsstring) : Prop :=
  forallb (fun c => negb (is_chr "<" c)) u = true.

Definition no_parens (s : jsstring) : Prop :=
  forallb (fun c => negb (is_chr "(" c) && negb (is_chr ")" c)) s = true.

(** [pat] occurs in [s] at index [j]. *)
Definition occurs_at (pat s : jsstring) (j : nat) : Prop :=
  ∃ a b, s = a ++ pat ++ b ∧ length a = j.

(** [j] is the index of the last occurrence of [pat] in [s]. *)
Definition last_occurrence (pat s : jsstring) (j : nat) : Prop :=
  occurs_at pat s j ∧ ∀ j', occurs_at pat s j' → j' ≤ j.

(** [s] with [t] inserted at index [i]. *)
Definition insert_at (i : nat) (t s : jsstring) : jsstring :=
  take i s ++ t ++ drop i s.

(** A [return\s*\(] starts at index [i] of [code]. *)
Definition return_paren_at (code : jsstring) (i : nat) : Prop :=
  ∃ pre ws rest,
    code = pre ++ lit "return" ++ ws ++ N_of_ascii "(" :: rest
    ∧ forallb is_space ws = true ∧ length pre = i.

Definition close_paren_semi : jsstring := lit ");".

(** The state in which a computation ends, however it ends. *)
Definition final_state {A} (o : outcome A) : state :=
  match o with
  | Return _ s | Throw _ s | Exit _ s => s
  end.

Definition marker_files : list jsstring :=
  [lit "app.json"; lit "expo.json"; lit "expo.config.js"].

(** Some marker file exists. *)
Definition marker_present (fs : gmap jsstring node) : Prop :=
  ∃ p, p ∈ marker_files ∧ is_Some (fs !! p).

(** The path of the template that [emit_template] reads (lines 83-85). *)
Definition template_of (stk : stack) : jsstring :=
  if stack_eqb stk ReactNative then lit "templates/provider.rn.tsx"
  else lit "templates/provider.web.tsx".

(** [key] names a property that the spread of [v] copies: a property of
    an object, an index of an array or of a string; a number, a boolean
    and [null] give nothing. *)
Definition spread_key (v : json) (key : jsstring) : Prop :=
  match v with
  | JObj props => is_Some (props !! key)
  | JArr elems => ∃ i, i < length elems ∧ key = decimal i
  | JStr s => ∃ i, i < length s ∧ key = decimal i
  | JNull | JBool _ | JNum _ => False
  end.

(** The manifest [pkg] is an object that lists [key] under
    [dependencies] or under [devDependencies]. *)
Definition lists_dependency (pkg : json) (key : jsstring) : Prop :=
  ∃ top field v,
    pkg = JObj top
    ∧ (field = lit "dependencies" ∨ field = lit "devDependencies")
    ∧ top !! field = Some v
    ∧ spread_key v key.

Section Manifest.

Variable JSON_parse : jsstring → option json.

(** What [readJSONSafe] returns for the file at [p]. *)
Definition parsed_or_null (fs : gmap jsstring node) (p : jsstring) : json :=
  match fs !! p with
  | Some (File txt) =>
      match JSON_parse txt with
      | Some v => v
      | None => JNull
      end
  | Some Dir | None => JNull
  end.

(** The value of [pkg] at line 18. *)
Definition manifest (fs : gmap jsstring node) : json :=
  or_empty (Some (parsed_or_null fs (lit "package.json"))).

(** [package.json] is a file that parses to a manifest listing [key]. *)
Definition manifest_lists (fs : gmap jsstring node) (key : jsstring) : Prop :=
  ∃ txt pkg,
    fs !! lit "package.json" = Some (File txt)
    ∧ JSON_parse txt = Some pkg
    ∧ lists_dependency pkg key.

End Manifest.


(** The event logged by the import step (lines 120 and 122). *)
Definition import_event (importLine code : jsstring) : event :=
  if import_missing importLine code then LOG_import_inserted
  else WARN_import_exists.

(** A project whose manifest does not parse and whose package directory
    holds the web template only (used in the examples). *)
Definition no_json : jsstring → option json := λ _, None.

(** A parser that reads every manifest as [pkg] (used in the examples). *)
Definition parses_as (pkg : json) : jsstring → option json := λ _, Some pkg.
Definition web_only : gmap jsstring jsstring :=
  {[ lit "templates/provider.web.tsx" := lit "WEB" ]}.

(** The text of an import line that starts [suf]: ["import "] and what
    follows up to the end of the line. *)
Definition import_text (suf : jsstring) : jsstring :=
  lit "import " ++ take_while is_dot (drop 7 suf).

(** A match of [/(^|\n)import .*;?/] with text [t] starts at index [j]
    of [code]: at the start of the string, or at a line feed. *)
Definition import_line_at (code : jsstring) (j : nat) (t : jsstring) : Prop :=
  (j = 0 ∧ is_prefix (lit "import ") code = true ∧ t = import_text code)
  ∨ (∃ pre suf,
       code = pre ++ N_of_ascii "010" :: suf ∧ length pre = j
       ∧ (pre = [] → is_prefix (lit "import ") code = false)
       ∧ is_prefix (lit "import ") suf = true
       ∧ t = N_of_ascii "010" :: import_text suf).

(** The match of [r], if any, that starts [k] characters into [suf], [pre]
    being what comes before [suf] (most recent first). *)
Definition match_from (r : re) (pre suf : jsstring) (k : nat) : option jsmatch :=
  match_at r (rev (take k suf) ++ pre) (drop k suf).

(** No match of [r] is empty, and none starts inside another. *)
Definition separated_matches (r : re) (pre suf : jsstring) : Prop :=
  ∀ k mo, k ≤ length suf → match_from r pre suf k = Some mo →
    m_text mo ≠ []
    ∧ ∀ k', k < k' → k' < k + length (m_text mo) → k' ≤ length suf →
            match_from r pre suf k' = None.

(** The texts of the matches of [r] at all the places of [suf], from left
    to right. *)
Fixpoint matches_from (r : re) (pre suf : jsstring) : list jsstring :=
  match match_at r pre suf with
  | Some mo => [m_text mo]
  | None => []
  end ++
  match suf with
  | [] => []
  | c :: suf' => matches_from r (c :: pre) suf'
  end.

(** ** Notions used to state the further properties *)

(** [s.split(sep)] for a separator of one character. *)
Fixpoint split_on (sep : char) (p : jsstring) : list jsstring :=
  match p with
  | [] => [[]]
  | c :: p' =>
      if N.eqb c sep then [] :: split_on sep p'
      else match split_on sep p' with
           | seg :: segs => (c :: seg) :: segs
           | [] => [[c]]
           end
  end.

Definition backslash : char := N_of_ascii "\".

(** Lines 197-199, [sep] being [path.sep]: ["/"] on POSIX, where the
    function is applied by [importLine_of], and a backslash on Windows. *)
Definition posixPath (sep : char) (p : jsstring) : jsstring :=
  join_path (split_on sep p).

(** The text [m] is matched by the pattern [r], when [pre] is the input
    before [m] (most recent character first) and [suf] the input after
    it. *)
Fixpoint matches (r : re) (pre m suf : jsstring) : Prop :=
  match r with
  | Eps => m = []
  | Chr p => ∃ c, m = [c] ∧ p c = true
  | Star p => forallb p m = true
  | Opt p => m = [] ∨ ∃ c, m = [c] ∧ p c = true
  | Bos => m = [] ∧ pre = []
  | Eos => m = [] ∧ suf = []
  | Wb => m = [] ∧ xorb (word_at pre) (word_at suf) = true
  | Seq a b =>
      ∃ m1 m2, m = m1 ++ m2 ∧ matches a pre m1 (m2 ++ suf)
               ∧ matches b (rev m1 ++ pre) m2 suf
  | Alt a b => matches a pre m suf ∨ matches b pre m suf
  | Cap a => matches a pre m suf
  end.

(** The same, with the texts [caps] of the capturing groups of [r], in the
    order in which the groups are closed. *)
Fixpoint matches_with (r : re) (pre m suf : jsstring) (caps : list jsstring)
  : Prop :=
  match r with
  | Seq a b =>
      ∃ m1 m2 c1 c2,
        m = m1 ++ m2 ∧ caps = c1 ++ c2
        ∧ matches_with a pre m1 (m2 ++ suf) c1
        ∧ matches_with b (rev m1 ++ pre) m2 suf c2
  | Alt a b => matches_with a pre m suf caps ∨ matches_with b pre m suf caps
  | Cap a => ∃ c, caps = c ++ [m] ∧ matches_with a pre m suf c
  | _ => caps = [] ∧ matches r pre m suf
  end.

(** Some piece of [s] is matched by [r]. *)
Definition matches_somewhere (r : re) (s : jsstring) : Prop :=
  ∃ a m b, s = a ++ m ++ b ∧ matches r (rev a) m b.

(** The import statement for the module specifier [spec] (lines 99-105). *)
Definition import_from (spec : jsstring) : jsstring :=
  lit "import { NotificationsProvider } from "
    ++ dquote :: spec ++ dquote :: lit ";".

(** The extensions that [relNoExt] removes. *)
Definition source_exts : list jsstring :=
  [lit ".ts"; lit ".tsx"; lit ".js"; lit ".jsx"].

(** Lines 97-159 without the file accesses: the text written back to the
    root file, from the text [c] read from it. *)
Definition patched_code (stk : stack) (rootPath providerFile c : jsstring)
  : jsstring :=
  let code := import_step (importLine_of rootPath providerFile) c in
  let once := wrapJSXReturn code providerName in
  if jsstring_eqb once code then fallback_wrap stk code else once.

(** The events logged by lines 97-162 on the text [c]. *)
Definition patch_events (rootPath providerFile c : jsstring) : list event :=
  let code := import_step (importLine_of rootPath providerFile) c in
  let once := wrapJSXReturn code providerName in
  [import_event (importLine_of rootPath providerFile) c]
    ++ (if jsstring_eqb once code then [WARN_fallback] else [])
    ++ [LOG_updated rootPath].

(** The events logged by lines 164-173. *)
Definition done_events (stk : stack) : list event :=
  [LOG_done;
   LOG_hint_import (lit "src/nim-react-toastify/NotificationsProvider");
   LOG_hint_hook;
   LOG_hint_show (stack_eqb stk ReactNative)].

(** The paths that a run may create. *)
Definition created_paths : list jsstring :=
  [lit "src"; targetDir; providerFile_of true; providerFile_of false].

(** Line 142: the text put in place of the opening tags, from the two
    groups of the match. *)
Definition html_body_opening (mo : jsmatch) : jsstring :=
  let a := nth 0 (m_groups mo) [] in
  let b := nth 1 (m_groups mo) [] in
  lit "return (<html" ++ a ++ lit "><body" ++ b ++ lit "><"
    ++ providerName ++ lit ">".

(** Line 146: the text put in place of the closing tags. *)
Definition html_body_closing : jsstring :=
  lit "</" ++ providerName ++ lit "></body></html>)".

(** Lines 140-143 and lines 144-147: the two replacements of the Next.js
    strategy; [wrap_next_layout] is the second applied to the first. *)
Definition next_layout_open (code : jsstring) : jsstring :=
  regex_replace re_html_body_open html_body_opening code.
Definition next_layout_close (code : jsstring) : jsstring :=
  regex_replace re_html_body_close (λ _, html_body_closing) code.

(** [t] is [s] up to the case of its letters. *)
Definition same_ci (s : string) (t : jsstring) : Prop :=
  length t = String.length s ∧ match_chars is_ci s t = true.

Definition spaces (ws : jsstring) : Prop := forallb is_space ws = true.

(** No [>] in [a]. *)
Definition gt_free (a : jsstring) : Prop := forallb not_gt a = true.

(** [t] is a text matched by [/return\s*\(\s*<html(G)>\s*<body(G)>/i], [a]
    and [b] being the texts of the two groups: what stands between the
    tag name and the [>] of the tag. *)
Definition html_body_open_text (t a b : jsstring) : Prop :=
  ∃ kw ws1 ws2 h ws3 bd,
    t = kw ++ ws1 ++ lit "(" ++ ws2 ++ h ++ a ++ lit ">" ++ ws3 ++ bd ++ b
          ++ lit ">"
    ∧ same_ci "return" kw ∧ spaces ws1 ∧ spaces ws2 ∧ same_ci "<html" h
    ∧ gt_free a ∧ spaces ws3 ∧ same_ci "<body" bd ∧ gt_free b.

(** [t] is a text matched by [/<\/body>\s*<\/html>\s*\)\s*;?\s*/i]. *)
Definition html_body_close_text (t : jsstring) : Prop :=
  ∃ bd ws1 h ws2 ws3 semi ws4,
    t = bd ++ ws1 ++ h ++ ws2 ++ lit ")" ++ ws3 ++ semi ++ ws4
    ∧ same_ci "</body>" bd ∧ spaces ws1 ∧ same_ci "</html>" h ∧ spaces ws2
    ∧ spaces ws3 ∧ (semi = [] ∨ semi = lit ";") ∧ spaces ws4.

(** [c] is the last character of [s] that is not white space. *)
Definition last_nonspace (s : jsstring) (c : char) : Prop :=
  ∃ body ws, s = body ++ c :: ws ∧ is_space c = false ∧ spaces ws.

(** [t] is a text matched by [/import\s*\{\s*NotificationsProvider\s*\}/]. *)
Definition import_guard_text (t : jsstring) : Prop :=
  ∃ ws1 ws2 ws3,
    t = lit "import" ++ ws1 ++ lit "{" ++ ws2 ++ lit "NotificationsProvider"
          ++ ws3 ++ lit "}"
    ∧ spaces ws1 ∧ spaces ws2 ∧ spaces ws3.

(** [t] occurs somewhere in [s]. *)
Definition occurs (t s : jsstring) : Prop := ∃ a b, s = a ++ t ++ b.

(** The keys of the merged dependencies of the manifest [pkg]. *)
Definition dependency_keys (pkg : json) : gset jsstring :=
  dom (merged_deps pkg).

(** * Properties *)

(** ** The matcher *)

Lemma take_drop_while p l : take_while p l ++ drop_while p l = l.
Proof. induction l as [|c l IH]; simpl; [done|]. destruct (p c); simpl; congruence. Qed.

Lemma take_while_all p l : forallb p (take_while p l) = true.
Proof. induction l as [|c l IH]; simpl; [done|]. destruct (p c) eqn:E; simpl; [rewrite E|]; done. Qed.

Lemma drop_while_head p l c l' : drop_while p l = c :: l' → p c = false.
Proof.
  induction l as [|d l IH]; simpl; [done|].
  destruct (p d) eqn:E; [done|]. intros [= -> _]. done.
Qed.

Lemma advances_refl st : advances st st [].
Proof. done. Qed.

Lemma advances_trans a b c m1 m2 :
  advances a b m1 → advances b c m2 → advances a c (m1 ++ m2).
Proof.
  intros [H1 H2] [H3 H4]. split.
  - rewrite H3, H1, rev_app_distr, app_assoc. done.
  - rewrite H2, H4, app_assoc. done.
Qed.

Lemma star_advances p k pre suf caps res :
  star p k pre suf caps = Some res →
  ∃ st' m, k st' = Some res ∧ advances (MState pre suf caps) st' m
           ∧ captures st' = caps ∧ forallb p m = true.
Proof.
  revert pre. induction suf as [|c suf IH]; intros pre; simpl.
  - intros H. exists (MState pre [] caps), []. done.
  - destruct (p c) eqn:Hc.
    + destruct (star p k (c :: pre) suf caps) as [r0|] eqn:E.
      * intros [= <-]. destruct (IH _ E) as (st' & m & Hk & [H1 H2] & Hcap & Hall).
        exists st', (c :: m). split; [done|]. split; [|split; [done|]].
        -- split; simpl in *; [rewrite H1, <- app_assoc; done | rewrite H2; done].
        -- simpl. rewrite Hc. done.
      * intros H. exists (MState pre (c :: suf) caps), []. done.
    + intros H. exists (MState pre (c :: suf) caps), []. done.
Qed.

(** Whatever the continuation accepts was reached by consuming a piece of
    the remaining input. *)
Lemma rmatch_advances r : ∀ k st res,
  rmatch r k st = Some res →
  ∃ st' m, k st' = Some res ∧ advances st st' m.
Proof.
  induction r as [|p|p|p| | | |a IHa b IHb|a IHa b IHb|a IHa]; intros k st res; simpl.
  - intros H. exists st, []. done.
  - destruct st as [pre [|c suf] caps]; simpl; [done|].
    destruct (p c); [|done]. intros H. eexists _, [c]. split; [exact H|]. done.
  - intros H. destruct (star_advances _ _ _ _ _ _ H) as (st' & m & Hk & Ha & _).
    exists st', m. destruct st; done.
  - destruct st as [pre [|c suf] caps]; simpl.
    + intros H. eexists _, []. split; [exact H|]. done.
    + destruct (p c).
      * destruct (k (MState (c :: pre) suf caps)) eqn:E.
        -- intros [= <-]. eexists _, [c]. split; [exact E|]. done.
        -- intros H. eexists _, []. split; [exact H|]. done.
      * intros H. eexists _, []. split; [exact H|]. done.
  - destruct (consumed st); [|done]. intros H. exists st, []. done.
  - destruct (remaining st); [|done]. intros H. exists st, []. done.
  - destruct (xorb _ _); [|done]. intros H. exists st, []. done.
  - intros H. destruct (IHa _ _ _ H) as (st1 & m1 & H1 & A1).
    destruct (IHb _ _ _ H1) as (st2 & m2 & H2 & A2).
    exists st2, (m1 ++ m2). split; [done|]. eapply advances_trans; done.
  - destruct (rmatch a k st) eqn:E.
    + intros [= <-]. eauto.
    + eauto.
  - intros H. destruct (IHa _ _ _ H) as (st1 & m1 & H1 & A1).
    eexists _, m1. split; [exact H1|]. destruct A1. done.
Qed.

(** A match object describes a piece of the input: the match starts at
    [m_index] and [m_text] is the text found there. *)
Lemma match_at_Some r pre suf mo :
  match_at r pre suf = Some mo →
  m_index mo = length pre ∧ ∃ rest, suf = m_text mo ++ rest.
Proof.
  unfold match_at. destruct (rmatch r Some _) as [st'|] eqn:E; [|done].
  intros [= <-]. simpl. split; [done|].
  destruct (rmatch_advances _ _ _ _ E) as (st1 & m & [= ->] & [H1 H2]).
  simpl in *. exists (remaining st'). rewrite H2, length_app.
  replace (length m + length (remaining st') - length (remaining st'))
    with (length m) by lia.
  rewrite take_app_length. done.
Qed.

Lemma exec_from_Some r : ∀ suf pre mo,
  exec_from r pre suf = Some mo →
  ∃ skipped suf',
    suf = skipped ++ suf' ∧ match_at r (rev skipped ++ pre) suf' = Some mo
    ∧ ∀ j, j < length skipped →
        match_at r (rev (take j skipped) ++ pre) (drop j suf) = None.
Proof.
  induction suf as [|c suf IH]; intros pre mo; simpl.
  - destruct (match_at r pre []) eqn:E; [|done]. intros [= <-].
    exists [], []. split; [done|]. split; [done|]. simpl; lia.
  - destruct (match_at r pre (c :: suf)) eqn:E.
    + intros [= <-]. exists [], (c :: suf). split; [done|]. split; [done|]. simpl; lia.
    + intros H. destruct (IH _ _ H) as (sk & suf' & -> & Hm & Hno).
      exists (c :: sk), suf'. split; [done|]. split.
      * simpl. rewrite <- app_assoc. done.
      * intros [|j] Hj; simpl in *; [done|].
        rewrite <- app_assoc. apply Hno. lia.
Qed.

Lemma exec_from_None r : ∀ suf pre,
  exec_from r pre suf = None →
  ∀ j, j ≤ length suf → match_at r (rev (take j suf) ++ pre) (drop j suf) = None.
Proof.
  induction suf as [|c suf IH]; intros pre; simpl.
  - destruct (match_at r pre []) eqn:E; [done|]. intros _ [|j] Hj; [done|lia].
  - destruct (match_at r pre (c :: suf)) eqn:E; [done|].
    intros H [|j] Hj; simpl; [done|]. rewrite <- app_assoc. apply IH; [done|lia].
Qed.

(** The leftmost match, read on the whole string. *)
Lemma regex_match_Some r s mo :
  regex_match r s = Some mo →
  ∃ rest,
    s = take (m_index mo) s ++ m_text mo ++ rest
    ∧ length (take (m_index mo) s) = m_index mo
    ∧ match_at r (rev (take (m_index mo) s)) (drop (m_index mo) s) = Some mo
    ∧ ∀ j, j < m_index mo → match_at r (rev (take j s)) (drop j s) = None.
Proof.
  intros H. destruct (exec_from_Some _ _ _ _ H) as (sk & suf' & -> & Hm & Hno).
  destruct (match_at_Some _ _ _ _ Hm) as (Hi & rest & ->).
  rewrite length_app, length_rev in Hi. simpl in Hi. rewrite Nat.add_0_r in Hi.
  rewrite Hi, take_app_length, drop_app_length. exists rest.
  split; [done|]. split; [done|]. split.
  - rewrite app_nil_r in Hm. done.
  - intros j Hj. specialize (Hno j Hj). rewrite app_nil_r in Hno.
    rewrite take_app_le by lia. done.
Qed.

Lemma regex_match_None r s :
  regex_match r s = None →
  ∀ j, j ≤ length s → match_at r (rev (take j s)) (drop j s) = None.
Proof.
  intros H j Hj. pose proof (exec_from_None _ _ _ H j Hj) as E.
  rewrite app_nil_r in E. done.
Qed.

(** *** Closed forms of the matcher on the patterns of the source *)

Lemma rmatch_Seq a b k st :
  rmatch (Seq a b) k st = rmatch a (rmatch b k) st.
Proof. done. Qed.

Lemma rmatch_Star p k pre suf caps :
  rmatch (Star p) k (MState pre suf caps) = star p k pre suf caps.
Proof. done. Qed.

Lemma rmatch_Chr_cons p k pre c suf caps :
  rmatch (Chr p) k (MState pre (c :: suf) caps) =
  if p c then k (MState (c :: pre) suf caps) else None.
Proof. done. Qed.

Lemma rmatch_Chr_nil p k pre caps :
  rmatch (Chr p) k (MState pre [] caps) = None.
Proof. done. Qed.

Lemma rmatch_Eps k st : rmatch Eps k st = k st.
Proof. done. Qed.

Lemma rmatch_Lit_with f s : ∀ k pre suf caps,
  rmatch (Lit_with f s) k (MState pre suf caps) =
  if match_chars f s suf
  then k (MState (rev (take (String.length s) suf) ++ pre)
            (drop (String.length s) suf) caps)
  else None.
Proof.
  induction s as [|a s IH]; intros k pre suf caps; simpl.
  - rewrite drop_0. done.
  - destruct suf as [|c suf]; simpl; [done|].
    destruct (f a c); simpl; [|done].
    rewrite IH. destruct (match_chars f s suf); [|done].
    rewrite <- app_assoc. done.
Qed.

Lemma match_chars_is_prefix s suf :
  match_chars is_chr s suf = is_prefix (lit s) suf.
Proof.
  revert suf. induction s as [|a s IH]; intros [|c suf]; simpl; try done.
  rewrite IH. unfold is_chr. rewrite N.eqb_sym. done.
Qed.

Lemma star_fail p k : ∀ suf pre caps,
  (∀ pre' c suf', p c = true → k (MState pre' (c :: suf') caps) = None) →
  star p k pre suf caps =
  k (MState (rev (take_while p suf) ++ pre) (drop_while p suf) caps).
Proof.
  induction suf as [|c suf IH]; intros pre caps Hk; simpl; [done|].
  destruct (p c) eqn:Hc; [|done].
  rewrite IH by done. simpl. rewrite <- app_assoc. simpl.
  destruct (k _) eqn:E; [done|]. rewrite Hk; done.
Qed.

Lemma star_first p k : ∀ suf pre caps r,
  k (MState (rev (take_while p suf) ++ pre) (drop_while p suf) caps) = Some r →
  star p k pre suf caps = Some r.
Proof.
  induction suf as [|c suf IH]; intros pre caps r; simpl; [done|].
  destruct (p c) eqn:Hc; [|done].
  simpl. rewrite <- app_assoc. simpl. intros H. rewrite (IH _ _ _ H). done.
Qed.

Lemma star_none p k : ∀ suf pre caps,
  (∀ st, k st = None) → star p k pre suf caps = None.
Proof.
  induction suf as [|c suf IH]; intros pre caps Hk; simpl; [done|].
  destruct (p c); [|done]. rewrite IH; done.
Qed.

Lemma space_not_chr a c :
  is_space (N_of_ascii a) = false → is_space c = true → is_chr a c = false.
Proof.
  intros Ha Hc. unfold is_chr. destruct (N.eqb_spec c (N_of_ascii a)); [|done].
  congruence.
Qed.

Lemma length_drop_while_le p l : length (drop_while p l) ≤ length l.
Proof. induction l as [|c l IH]; simpl; [done|]. destruct (p c); simpl; lia. Qed.

Lemma is_prefix_spec pat s :
  is_prefix pat s = true ↔ ∃ r, s = pat ++ r.
Proof.
  revert s. induction pat as [|p pat IH]; intros s; simpl.
  - split; [intros _; by exists s | done].
  - destruct s as [|c s]; [split; [done | intros [r [=]]]|].
    rewrite andb_true_iff, N.eqb_eq, IH. split.
    + intros [-> [r ->]]. by exists r.
    + intros [r [= -> ->]]. eauto.
Qed.

Lemma is_prefix_app pat r : is_prefix pat (pat ++ r) = true.
Proof. apply is_prefix_spec. by exists r. Qed.

Lemma after_return_paren_Some suf r :
  after_return_paren suf = Some r ↔
  ∃ ws, suf = lit "return" ++ ws ++ N_of_ascii "(" :: r ∧ forallb is_space ws = true.
Proof.
  unfold after_return_paren. split.
  - destruct (is_prefix _ suf) eqn:E; [|done].
    apply is_prefix_spec in E as [r0 ->].
    change (drop 6 (lit "return" ++ r0)) with r0.
    pose proof (take_drop_while is_space r0) as Htd.
    pose proof (take_while_all is_space r0) as Hall.
    destruct (drop_while is_space r0) as [|x r']; [done|].
    destruct (is_chr "(" x) eqn:Hx; [|done]. intros [= ->].
    apply N.eqb_eq in Hx as ->.
    exists (take_while is_space r0). rewrite Htd. done.
  - intros (ws & -> & Hws). rewrite is_prefix_app.
    change (drop 6 (lit "return" ++ ?x)) with x.
    replace (drop_while is_space (ws ++ N_of_ascii "(" :: r))
      with (N_of_ascii "(" :: r); [done|].
    clear -Hws. induction ws as [|c ws IH]; simpl in *; [done|].
    apply andb_true_iff in Hws as [-> Hws]. auto.
Qed.

Lemma after_return_paren_length suf r :
  after_return_paren suf = Some r → length r + 7 ≤ length suf.
Proof.
  intros (ws & -> & _)%after_return_paren_Some.
  rewrite !length_app. simpl. lia.
Qed.

(** [return\s*\(] followed by the rest [R] of a pattern. *)
Lemma rmatch_return_paren R k pre suf caps :
  rmatch (Seq (Lit "return") (Seq (Star is_space) (Seq (Chr (is_chr "(")) R)))
    k (MState pre suf caps) =
  match after_return_paren suf with
  | Some r =>
      rmatch R k
        (MState (rev (take (length suf - length r) suf) ++ pre) r caps)
  | None => None
  end.
Proof.
  rewrite rmatch_Seq. unfold Lit. rewrite rmatch_Lit_with, match_chars_is_prefix.
  unfold after_return_paren.
  destruct (is_prefix (lit "return") suf) eqn:Hp; [|done].
  rewrite rmatch_Seq, rmatch_Star, star_fail.
  2:{ intros pre' c suf' Hc. rewrite rmatch_Seq, rmatch_Chr_cons.
      rewrite (space_not_chr "(" c); done. }
  change (String.length "return") with 6.
  pose proof (take_drop_while is_space (drop 6 suf)) as Htd.
  destruct (drop_while is_space (drop 6 suf)) as [|x r] eqn:E; [done|].
  rewrite rmatch_Seq, rmatch_Chr_cons.
  destruct (is_chr "(" x) eqn:Hc; [|done].
  f_equal. f_equal.
  apply is_prefix_spec in Hp as [r0 ->].
  change (drop 6 (lit "return" ++ r0)) with r0 in *.
  change (take 6 (lit "return" ++ r0)) with (lit "return").
  set (tw := take_while is_space r0) in *. clearbody tw. subst r0.
  replace (lit "return" ++ tw ++ x :: r)
    with ((lit "return" ++ tw ++ [x]) ++ r) by (rewrite <- !app_assoc; done).
  rewrite take_app_length' by (rewrite !length_app; simpl; lia).
  rewrite !rev_app_distr. simpl. rewrite <- !app_assoc. done.
Qed.

Lemma match_at_return_paren pre suf :
  match_at re_return_paren pre suf =
  match after_return_paren suf with
  | Some r => Some (JsMatch (length pre) (take (length suf - length r) suf) [])
  | None => None
  end.
Proof.
  unfold match_at, re_return_paren, Seqs. rewrite rmatch_return_paren.
  destruct (after_return_paren suf); done.
Qed.

Lemma match_at_return_paren_ws pre suf :
  match_at re_return_paren_ws pre suf =
  match after_return_paren suf with
  | Some r =>
      Some (JsMatch (length pre)
              (take (length suf - length (drop_while is_space r)) suf) [])
  | None => None
  end.
Proof.
  unfold match_at, re_return_paren_ws, Seqs. rewrite rmatch_return_paren.
  destruct (after_return_paren suf) as [r|]; [|done].
  rewrite rmatch_Seq, rmatch_Star.
  erewrite star_first by (rewrite rmatch_Eps; reflexivity). done.
Qed.

Lemma match_at_return_jsx pre suf :
  match_at re_return_jsx pre suf =
  match after_return_paren suf with
  | Some r =>
      match drop_while is_space r with
      | c2 :: c3 :: r' =>
          if is_chr "<" c2 && not_gt c3
          then Some (JsMatch (length pre) (take (length suf - length r') suf) [])
          else None
      | _ => None
      end
  | None => None
  end.
Proof.
  unfold match_at, re_return_jsx, Seqs. rewrite rmatch_return_paren.
  destruct (after_return_paren suf) as [r|]; [|done].
  rewrite rmatch_Seq, rmatch_Star, star_fail.
  2:{ intros pre' c suf' Hc. rewrite rmatch_Seq, rmatch_Chr_cons.
      rewrite (space_not_chr "<" c); done. }
  destruct (drop_while is_space r) as [|c2 [|c3 r']]; [done| |].
  - rewrite rmatch_Seq, rmatch_Chr_cons. destruct (is_chr "<" c2); done.
  - rewrite rmatch_Seq, rmatch_Chr_cons. destruct (is_chr "<" c2); [|done].
    rewrite rmatch_Seq, rmatch_Chr_cons. destruct (not_gt c3); done.
Qed.

(** The three patterns on [return] start a match at the same places. *)
Lemma match_at_return_paren_ws_None pre suf :
  match_at re_return_paren_ws pre suf = None ↔
  match_at re_return_paren pre suf = None.
Proof.
  rewrite match_at_return_paren_ws, match_at_return_paren.
  destruct (after_return_paren suf); done.
Qed.

(** The pattern of the double-wrap guard matches nowhere: after [$] the
    input is exhausted, so the literal [{] cannot follow. *)
Lemma match_at_double_wrap pre suf : match_at re_double_wrap pre suf = None.
Proof.
  unfold match_at, re_double_wrap, Seqs.
  rewrite rmatch_Seq. destruct suf as [|c suf]; [done|].
  rewrite rmatch_Chr_cons. destruct (is_chr "<" c); [|done].
  rewrite rmatch_Seq, rmatch_Star, star_none; [done|].
  intros [pre' [|c' suf'] caps]; done.
Qed.

Lemma exec_from_all_None r :
  (∀ pre suf, match_at r pre suf = None) → ∀ suf pre, exec_from r pre suf = None.
Proof.
  intros H. induction suf as [|c suf IH]; intros pre; simpl; rewrite H; done.
Qed.

Lemma regex_test_double_wrap s : regex_test re_double_wrap s = false.
Proof.
  unfold regex_test, regex_match.
  rewrite exec_from_all_None; [done|]. apply match_at_double_wrap.
Qed.

(** ** [wrapJSXReturn] *)

Lemma wrapJSXReturn_unfold code P :
  wrapJSXReturn code P =
  match return_jsx_span code with
  | None => code
  | Some (s, e) =>
      take s code ++ (open_tag P ++ slice code s e ++ close_tag P) ++ drop e code
  end.
Proof.
  unfold wrapJSXReturn, return_jsx_span.
  destruct (regex_match re_return_jsx code) as [mo|]; [|done].
  cbv zeta. destruct (scan_close _ _ _) as [e|]; [|done].
  rewrite regex_test_double_wrap. unfold slice at 1, slice_from.
  rewrite Nat.sub_0_r, drop_0. done.
Qed.

(** *** The parenthesis scan *)

Lemma scan_close_Some : ∀ l d i e,
  scan_close l d i = Some e →
  i ≤ e ∧ e - i < length l ∧ drop (e - i) l = N_of_ascii ")" :: drop (S (e - i)) l.
Proof.
  induction l as [|c l IH]; intros d i e; simpl; [done|].
  destruct (is_chr ")" c) eqn:Hc.
  - destruct (if is_chr "(" c then S d else d) as [|d'].
    + intros [= <-]. rewrite Nat.sub_diag. simpl.
      apply N.eqb_eq in Hc as ->. split; [lia|]. split; [lia|]. rewrite drop_0. done.
    + intros H. apply IH in H as (H1 & H2 & H3).
      replace (e - i) with (S (e - S i)) by lia. simpl. split; [lia|]. split; [lia|done].
  - intros H. apply IH in H as (H1 & H2 & H3).
    replace (e - i) with (S (e - S i)) by lia. simpl. split; [lia|]. split; [lia|done].
Qed.



(** *** The first [return (<x] of a string *)

Lemma drop_while_app_barrier p u c v :
  p c = false → drop_while p (u ++ c :: v) = drop_while p u ++ c :: v.
Proof.
  intros Hc. induction u as [|x u IH]; simpl; [by rewrite Hc|].
  destruct (p x); done.
Qed.

Lemma drop_while_nil p l : drop_while p l = [] ↔ forallb p l = true.
Proof.
  induction l as [|c l IH]; simpl; [done|].
  destruct (p c); simpl; [done|]. split; done.
Qed.




Lemma lt_free_app u v : lt_free (u ++ v) ↔ lt_free u ∧ lt_free v.
Proof. unfold lt_free. rewrite forallb_app, andb_true_iff. done. Qed.







Lemma match_at_return_jsx_Some pre suf mo :
  match_at re_return_jsx pre suf = Some mo →
  ∃ Z c3 r',
    return_paren_ws_text Z ∧ suf = Z ++ lt_chr :: c3 :: r'
    ∧ m_text mo = Z ++ [lt_chr; c3] ∧ not_gt c3 = true
    ∧ m_index mo = length pre.
Proof.
  rewrite match_at_return_jsx.
  destruct (after_return_paren suf) as [r|] eqn:Hr; [|done].
  apply after_return_paren_Some in Hr as (ws & -> & Hws).
  pose proof (take_drop_while is_space r) as Htd.
  pose proof (take_while_all is_space r) as Hall.
  destruct (drop_while is_space r) as [|c2 [|c3 r']]; [done..|].
  destruct (is_chr "<" c2) eqn:Hc2; [|done].
  destruct (not_gt c3) eqn:Hc3; [|done].
  change (true && true) with true. cbv iota.
  intros Hmo. apply (inj Some) in Hmo. subst mo. unfold m_text, m_index.
  apply N.eqb_eq in Hc2 as ->.
  set (tw := take_while is_space r) in *. clearbody tw. subst r.
  exists (lit "return" ++ ws ++ N_of_ascii "(" :: tw), c3, r'.
  split; [by exists ws, tw|].
  assert (Heq : lit "return" ++ ws ++ N_of_ascii "(" :: tw ++ N_of_ascii "<" :: c3 :: r'
                = ((lit "return" ++ ws ++ N_of_ascii "(" :: tw) ++ [lt_chr; c3]) ++ r').
  { rewrite <- !app_assoc. simpl. rewrite <- ?app_assoc. done. }
  split; [by rewrite Heq, <- !app_assoc|]. split; [|done].
  rewrite Heq. apply take_app_length'.
  rewrite <- Heq, !length_app. simpl. rewrite !length_app. simpl. lia.
Qed.

(** The shape of the code around the span found by [wrapJSXReturn]: [start]
    is the index right after the [<] of the first [return (<x], and
    [endIdx] is the index of a closing parenthesis. *)
Lemma return_jsx_span_Some code s e :
  return_jsx_span code = Some (s, e) →
  ∃ pre Z c0 R mo,
    code = ((pre ++ Z) ++ [lt_chr]) ++ c0 :: R
    ∧ return_paren_ws_text Z
    ∧ not_gt c0 = true
    ∧ s = length pre + length Z + 1
    ∧ regex_match re_return_jsx code = Some mo
    ∧ m_index mo = length pre
    ∧ m_text mo = Z ++ [lt_chr; c0]
    ∧ scan_close (c0 :: R) 0 s = Some e.
Proof.
  unfold return_jsx_span.
  destruct (regex_match re_return_jsx code) as [mo|] eqn:Hm; [|done].
  cbv zeta. destruct (scan_close _ _ _) as [e'|] eqn:Hs; [|done].
  intros [= <- <-].
  destruct (regex_match_Some _ _ _ Hm) as (rest & Hcode & Hlen & Hat & _).
  apply match_at_return_jsx_Some in Hat as (Z & c3 & r' & HZ & Hsuf & Htxt & Hc3 & _).
  set (pre := take (m_index mo) code) in *.
  assert (Hc : code = ((pre ++ Z) ++ [lt_chr]) ++ c3 :: r').
  { rewrite <- (take_drop (m_index mo) code). fold pre. rewrite Hsuf.
    rewrite <- !app_assoc. done. }
  assert (Hstart : m_index mo + length (m_text mo) - 1 = length pre + length Z + 1).
  { rewrite Htxt, length_app, Hlen. simpl. lia. }
  rewrite Hstart in *.
  exists pre, Z, c3, r', mo. repeat split; try done.
  rewrite Hc in Hs at 1.
  rewrite drop_app_length' in Hs; [done|].
  rewrite !length_app. simpl. lia.
Qed.






(** *** What the scan finds *)

Lemma closes_at_0 d c l :
  closes_at d (c :: l) 0 ↔ c = N_of_ascii ")" ∧ d = 0.
Proof.
  unfold closes_at, opens, closes. simpl. rewrite Nat.add_0_r.
  split; [intros [[= ->] ->]|intros [-> ->]]; done.
Qed.

Lemma closes_at_S_close d c l n :
  is_chr ")" c = true →
  closes_at (S d) (c :: l) (S n) ↔ closes_at d l n.
Proof.
  intros Hc. unfold closes_at, opens, closes. simpl. rewrite Hc.
  assert (is_chr "(" c = false) as ->.
  { apply N.eqb_eq in Hc as ->. done. }
  simpl. split; intros [H1 H2]; (split; [done|lia]).
Qed.

Lemma closes_at_S_other d c l n :
  is_chr ")" c = false →
  closes_at d (c :: l) (S n) ↔
  closes_at (if is_chr "(" c then S d else d) l n.
Proof.
  intros Hc. unfold closes_at, opens, closes. simpl. rewrite Hc.
  destruct (is_chr "(" c); simpl; split; intros [H1 H2]; (split; [done|lia]).
Qed.

Lemma scan_close_spec : ∀ l d i,
  match scan_close l d i with
  | Some e =>
      i ≤ e ∧ closes_at d l (e - i) ∧ ∀ m, m < e - i → ¬ closes_at d l m
  | None => ∀ n, ¬ closes_at d l n
  end.
Proof.
  induction l as [|c l IH]; intros d i.
  - simpl. intros n [H _]. done.
  - cbn [scan_close]. destruct (is_chr ")" c) eqn:Hc.
    + assert (Hopen : is_chr "(" c = false).
      { apply N.eqb_eq in Hc as ->. done. }
      rewrite Hopen. destruct d as [|d'].
      * rewrite Nat.sub_diag. split; [lia|]. split; [|lia].
        apply closes_at_0. apply N.eqb_eq in Hc. done.
      * specialize (IH d' (S i)). destruct (scan_close l d' (S i)) as [e|].
        -- destruct IH as (Hle & Hat & Hno).
           replace (e - i) with (S (e - S i)) by lia.
           split; [lia|]. split.
           ++ by apply closes_at_S_close.
           ++ intros [|m] Hm.
              ** intros [_ [=]]%closes_at_0.
              ** intros H%closes_at_S_close; [|done]. apply (Hno m); [lia|done].
        -- intros [|n].
           ++ intros [_ [=]]%closes_at_0.
           ++ intros H%closes_at_S_close; [|done]. exact (IH n H).
    + set (d1 := if is_chr "(" c then S d else d).
      specialize (IH d1 (S i)). destruct (scan_close l d1 (S i)) as [e|].
      * destruct IH as (Hle & Hat & Hno).
        replace (e - i) with (S (e - S i)) by lia.
        split; [lia|]. split.
        -- by apply closes_at_S_other.
        -- intros [|m] Hm.
           ++ intros [-> _]%closes_at_0. done.
           ++ intros H%closes_at_S_other; [|done]. apply (Hno m); [lia|done].
      * intros [|n].
        -- intros [-> _]%closes_at_0. done.
        -- intros H%closes_at_S_other; [|done]. exact (IH n H).
Qed.

Lemma scan_close_first_unmatched l i e :
  scan_close l 0 i = Some e → first_unmatched_close l (e - i).
Proof.
  intros H. pose proof (scan_close_spec l 0 i) as Hs. rewrite H in Hs.
  destruct Hs as (_ & H1 & H2). done.
Qed.

Lemma scan_close_none_unmatched l i :
  scan_close l 0 i = None → ∀ n, ¬ closes_at 0 l n.
Proof.
  intros H. pose proof (scan_close_spec l 0 i) as Hs. rewrite H in Hs. done.
Qed.

(** *** Where the pattern matches *)

Lemma match_at_return_jsx_iff code j :
  return_jsx_at code j ↔
  j ≤ length code
  ∧ is_Some (match_at re_return_jsx (rev (take j code)) (drop j code)).
Proof.
  split.
  - intros (pre & Z & c & rest & -> & (ws1 & ws2 & -> & H1 & H2) & Hc & <-).
    split; [rewrite length_app; lia|].
    rewrite drop_app_length, match_at_return_jsx.
    assert (after_return_paren
              ((lit "return" ++ ws1 ++ N_of_ascii "(" :: ws2) ++ lt_chr :: c :: rest)
            = Some (ws2 ++ lt_chr :: c :: rest)) as ->.
    { apply after_return_paren_Some. exists ws1. split; [|done].
      rewrite <- !app_assoc. simpl. rewrite <- ?app_assoc. done. }
    rewrite drop_while_app_barrier by done.
    apply drop_while_nil in H2 as ->. simpl.
    rewrite Hc. done.
  - intros [Hj [mo Hm]].
    apply match_at_return_jsx_Some in Hm as (Z & c3 & r' & HZ & Hsuf & _ & Hc3 & _).
    exists (take j code), Z, c3, r'. split.
    + rewrite <- Hsuf, take_drop. done.
    + split; [done|]. split; [done|]. rewrite length_take. lia.
Qed.

Lemma regex_match_return_jsx_None code :
  regex_match re_return_jsx code = None ↔ ∀ j, ¬ return_jsx_at code j.
Proof.
  split.
  - intros H j [Hj [mo Hm]]%match_at_return_jsx_iff.
    rewrite (regex_match_None _ _ H j Hj) in Hm. done.
  - intros H. destruct (regex_match re_return_jsx code) as [mo|] eqn:Hm; [|done].
    destruct (regex_match_Some _ _ _ Hm) as (rest & Hcode & Hlen & Hat & _).
    destruct (H (m_index mo)). apply match_at_return_jsx_iff.
    split; [rewrite <- Hlen, length_take; lia|]. eauto.
Qed.

Lemma regex_match_return_jsx_first code mo :
  regex_match re_return_jsx code = Some mo →
  return_jsx_at code (m_index mo)
  ∧ ∀ j, return_jsx_at code j → m_index mo ≤ j.
Proof.
  intros Hm.
  destruct (regex_match_Some _ _ _ Hm) as (rest & Hcode & Hlen & Hat & Hno).
  split.
  - apply match_at_return_jsx_iff.
    split; [rewrite <- Hlen, length_take; lia|]. eauto.
  - intros j [Hj [mo' Hm']]%match_at_return_jsx_iff.
    destruct (decide (m_index mo ≤ j)) as [|Hlt]; [done|].
    rewrite Hno in Hm' by lia. done.
Qed.

(** *** The span, in the terms of the string *)

Lemma forallb_space_lt_free ws : forallb is_space ws = true → lt_free ws.
Proof.
  unfold lt_free. rewrite !forallb_forall. intros H x Hx.
  rewrite (space_not_chr "<" x); auto.
Qed.

Lemma return_paren_ws_text_lt_free Z : return_paren_ws_text Z → lt_free Z.
Proof.
  intros (ws1 & ws2 & -> & H1 & H2).
  apply lt_free_app. split; [reflexivity|].
  apply lt_free_app. split; [by apply forallb_space_lt_free|].
  apply (lt_free_app [_]). split; [reflexivity|by apply forallb_space_lt_free].
Qed.

Lemma split_at_first_lt u : ∀ u' v v',
  lt_free u → lt_free u' →
  u ++ lt_chr :: v = u' ++ lt_chr :: v' → u = u' ∧ v = v'.
Proof.
  unfold lt_free.
  induction u as [|x u IH]; intros [|x' u'] v v' Hu Hu'; simpl in *.
  - intros [= ->]. done.
  - intros [= <- _]. done.
  - intros [= -> _]. done.
  - intros [= -> H]. apply andb_true_iff in Hu as [_ Hu], Hu' as [_ Hu'].
    destruct (IH _ _ _ Hu Hu' H) as [-> ->]. done.
Qed.

Lemma first_unmatched_close_unique l n n' :
  first_unmatched_close l n → first_unmatched_close l n' → n = n'.
Proof.
  intros [H1 H2] [H1' H2'].
  destruct (Nat.lt_trichotomy n n') as [H|[H|H]]; [|done|].
  - destruct (H2' _ H H1).
  - destruct (H2 _ H H1').
Qed.

Lemma return_jsx_span_iff code s e :
  return_jsx_span code = Some (s, e) ↔
  ∃ before inside after,
    return_jsx_split code before inside after
    ∧ s = length before ∧ e = s + length inside.
Proof.
  split.
  - intros Hspan.
    destruct (return_jsx_span_Some _ _ _ Hspan)
      as (pre & Z & c0 & R & mo & Hcode & HZ & Hc0 & Hs & Hm & Hi & Ht & Hscan).
    destruct (regex_match_return_jsx_first _ _ Hm) as [_ Hfirst].
    destruct (scan_close_Some _ _ _ _ Hscan) as (Hle & Hlt & _).
    pose proof (scan_close_first_unmatched _ _ _ Hscan) as Hun.
    exists (pre ++ Z ++ [lt_chr]), (take (e - s) (c0 :: R)), (drop (e - s) (c0 :: R)).
    split.
    + exists pre, Z, c0, R, (e - s). rewrite Hi in Hfirst.
      split; [by rewrite Hcode, <- !app_assoc|]. done.
    + rewrite !length_app, length_take. cbn [length] in *. lia.
  - intros (before & inside & after & Hsplit & -> & ->).
    destruct Hsplit
      as (pre & Z & c & rest & n & Hcode & HZ & Hc & Hfirst & Hun & -> & -> & ->).
    assert (Hat : return_jsx_at code (length pre)) by (by exists pre, Z, c, rest).
    unfold return_jsx_span.
    destruct (regex_match re_return_jsx code) as [mo|] eqn:Hm.
    2:{ rewrite regex_match_return_jsx_None in Hm. destruct (Hm _ Hat). }
    destruct (regex_match_return_jsx_first _ _ Hm) as [Hat' Hfirst'].
    assert (Hidx : m_index mo = length pre).
    { apply Nat.le_antisymm; auto. }
    destruct (regex_match_Some _ _ _ Hm) as (rest' & _ & _ & Hmat & _).
    rewrite Hidx in Hmat.
    apply match_at_return_jsx_Some in Hmat
      as (Z' & c3 & r' & HZ' & Hsuf & Htxt & _ & _).
    rewrite Hcode, drop_app_length in Hsuf.
    apply split_at_first_lt in Hsuf as [<- [= <- <-]];
      [|by apply return_paren_ws_text_lt_free..].
    cbv zeta. rewrite Hidx, Htxt, !length_app. simpl.
    replace (length pre + (length Z + 2) - 1) with (length pre + (length Z + 1)) by lia.
    assert (Hdrop : drop (length pre + (length Z + 1)) code = c :: rest).
    { rewrite Hcode.
      replace (pre ++ Z ++ lt_chr :: c :: rest)
        with ((pre ++ Z ++ [lt_chr]) ++ c :: rest)
        by (by rewrite <- !app_assoc).
      apply drop_app_length'. rewrite !length_app. simpl. lia. }
    rewrite Hdrop.
    pose proof (scan_close_spec (c :: rest) 0 (length pre + (length Z + 1))) as Hs.
    destruct (scan_close _ _ _) as [e|].
    + destruct Hs as (Hle & H1 & H2).
      assert (e - (length pre + (length Z + 1)) = n) as Hn.
      { apply (first_unmatched_close_unique (c :: rest)); [|exact Hun].
        exact (conj H1 H2). }
      destruct Hun as [[Hlook _] _]. apply lookup_lt_Some in Hlook.
      rewrite length_take. do 2 f_equal. lia.
    + destruct Hun as [Hun _]. destruct (Hs _ Hun).
Qed.

Lemma return_jsx_span_None code :
  return_jsx_span code = None ↔
  ∀ before inside after, ¬ return_jsx_split code before inside after.
Proof.
  split.
  - intros H before inside after Hs.
    assert (return_jsx_span code = Some (length before, length before + length inside)) as H'.
    { apply return_jsx_span_iff. by exists before, inside, after. }
    congruence.
  - intros H. destruct (return_jsx_span code) as [[s e]|] eqn:E; [|done].
    apply return_jsx_span_iff in E as (b & i & a & Hs & _). destruct (H _ _ _ Hs).
Qed.

Lemma return_jsx_split_code code before inside after :
  return_jsx_split code before inside after →
  code = before ++ inside ++ after
  ∧ (∃ before', before = before' ++ [lt_chr])
  ∧ (∃ after', after = N_of_ascii ")" :: after').
Proof.
  intros (pre & Z & c & rest & n & Hcode & HZ & Hc & Hfirst & Hun & -> & -> & ->).
  split; [|split].
  - rewrite take_drop, Hcode, <- !app_assoc. done.
  - exists (pre ++ Z). by rewrite <- app_assoc.
  - destruct Hun as [[Hlook _] _].
    exists (drop (S n) (c :: rest)). by apply drop_S.
Qed.

(** ** Substring search *)

Lemma occurs_at_is_prefix pat s j :
  occurs_at pat s j ↔ j ≤ length s ∧ is_prefix pat (drop j s) = true.
Proof.
  split.
  - intros (a & b & -> & <-). split; [rewrite length_app; lia|].
    rewrite drop_app_length. apply is_prefix_app.
  - intros [Hj (r & Hr)%is_prefix_spec].
    exists (take j s), r. split.
    + rewrite <- Hr, take_drop. done.
    + rewrite length_take. lia.
Qed.

Lemma includes_spec pat s :
  includes s pat = true ↔ ∃ j, occurs_at pat s j.
Proof.
  induction s as [|c s IH]; simpl.
  - rewrite orb_false_r. split.
    + intros H. exists 0. apply occurs_at_is_prefix. done.
    + intros [j [Hj H]%occurs_at_is_prefix]. simpl in Hj.
      replace j with 0 in H by lia. done.
  - rewrite orb_true_iff, IH. split.
    + intros [H|[j H]].
      * exists 0. apply occurs_at_is_prefix. simpl. split; [lia|done].
      * exists (S j). apply occurs_at_is_prefix in H as [? ?].
        apply occurs_at_is_prefix. simpl. split; [lia|done].
    + intros [[|j] [Hj H]%occurs_at_is_prefix]; [left; done|].
      right. exists j. apply occurs_at_is_prefix. simpl in *. split; [lia|done].
Qed.

Lemma includes_false pat s :
  includes s pat = false ↔ ∀ j, ¬ occurs_at pat s j.
Proof.
  rewrite <- not_true_iff_false, includes_spec. split.
  - intros H j Hj. apply H. eauto.
  - intros H [j Hj]. exact (H j Hj).
Qed.

Lemma lastIndexOf_from_spec pat : ∀ s i acc,
  (∃ k, last_occurrence pat s k ∧ lastIndexOf_from i acc s pat = Some (i + k))
  ∨ ((∀ j, ¬ occurs_at pat s j) ∧ lastIndexOf_from i acc s pat = acc).
Proof.
  induction s as [|c s IH]; intros i acc.
  - simpl. destruct (is_prefix pat []) eqn:E.
    + left. exists 0. rewrite Nat.add_0_r. split; [|done]. split.
      * apply occurs_at_is_prefix. done.
      * intros j [Hj _]%occurs_at_is_prefix. done.
    + right. split; [|done].
      intros j [Hj H]%occurs_at_is_prefix. simpl in Hj.
      replace j with 0 in H by lia. simpl in H. congruence.
  - cbn [lastIndexOf_from].
    set (acc' := if is_prefix pat (c :: s) then Some i else acc).
    destruct (IH (S i) acc') as [(k & [Hk Hmax] & ->)|[Hnone ->]].
    + left. exists (S k). split; [|f_equal; lia]. split.
      * apply occurs_at_is_prefix in Hk as [? ?].
        apply occurs_at_is_prefix. simpl. split; [lia|done].
      * intros [|j] [Hj H]%occurs_at_is_prefix; [lia|].
        apply le_n_S, Hmax, occurs_at_is_prefix. simpl in *. split; [lia|done].
    + unfold acc'. destruct (is_prefix pat (c :: s)) eqn:E.
      * left. exists 0. rewrite Nat.add_0_r. split; [|done]. split.
        -- apply occurs_at_is_prefix. simpl. split; [lia|done].
        -- intros [|j] [Hj H]%occurs_at_is_prefix; [lia|].
           exfalso. apply (Hnone j), occurs_at_is_prefix. simpl in *. split; [lia|done].
      * right. split; [|done].
        intros [|j] [Hj H]%occurs_at_is_prefix.
        -- simpl in H. congruence.
        -- apply (Hnone j), occurs_at_is_prefix. simpl in *. split; [lia|done].
Qed.

Lemma lastIndexOf_Some pat s k :
  lastIndexOf s pat = Some k ↔ last_occurrence pat s k.
Proof.
  unfold lastIndexOf.
  destruct (lastIndexOf_from_spec pat s 0 None) as [(k' & Hk' & ->)|[Hnone ->]].
  - simpl. split.
    + intros [= <-]. done.
    + intros [Hk Hmax]. f_equal. destruct Hk' as [Hk' Hmax'].
      apply Nat.le_antisymm; auto.
  - split; [done|]. intros [Hk _]. destruct (Hnone _ Hk).
Qed.

Lemma lastIndexOf_None pat s :
  lastIndexOf s pat = None ↔ ∀ j, ¬ occurs_at pat s j.
Proof.
  unfold lastIndexOf.
  destruct (lastIndexOf_from_spec pat s 0 None) as [(k' & Hk' & ->)|[Hnone ->]].
  - split; [done|]. intros H. destruct Hk' as [Hk' _]. destruct (H _ Hk').
  - done.
Qed.

(** *** Occurrences of a two-character text around an insertion *)

Lemma occurs_at_two p1 p2 s j :
  occurs_at [p1; p2] s j ↔ s !! j = Some p1 ∧ s !! S j = Some p2.
Proof.
  split.
  - intros (a & b & -> & <-).
    rewrite lookup_app_r by lia. rewrite Nat.sub_diag.
    rewrite (lookup_app_r a) by lia. replace (S (length a) - length a) with 1 by lia.
    done.
  - intros [H1 H2]. exists (take j s), (drop (S (S j)) s).
    pose proof (lookup_lt_Some _ _ _ H2) as Hlt.
    split; [|rewrite length_take; lia].
    rewrite <- (take_drop j s) at 1. f_equal.
    rewrite (drop_S _ _ _ H1), (drop_S _ _ _ H2). done.
Qed.

Lemma lookup_insert_at i t s j :
  i ≤ length s →
  insert_at i t s !! j =
  if decide (j < i) then s !! j
  else if decide (j < i + length t) then t !! (j - i)
  else s !! (j - length t).
Proof.
  intros Hi. unfold insert_at.
  assert (Hlen : length (take i s) = i) by (rewrite length_take; lia).
  destruct (decide (j < i)).
  - rewrite lookup_app_l by lia. apply lookup_take_lt. done.
  - rewrite lookup_app_r by lia. rewrite Hlen.
    destruct (decide (j < i + length t)).
    + rewrite lookup_app_l by lia. done.
    + rewrite lookup_app_r by lia. rewrite lookup_drop. f_equal. lia.
Qed.

(** Inserting a text [t] free of [p1], right after a character other than
    [p1] and with a first character other than [p2], neither creates nor
    destroys an occurrence of [p1 p2]; the occurrences after the insertion
    point are shifted by the length of [t]. *)
Lemma occurs_at_two_insert p1 p2 i t s j :
  0 < i → i ≤ length s →
  s !! (i - 1) ≠ Some p1 →
  (∀ k, t !! k ≠ Some p1) →
  occurs_at [p1; p2] (insert_at i t s) j ↔
  (j < i ∧ occurs_at [p1; p2] s j)
  ∨ (i + length t ≤ j ∧ occurs_at [p1; p2] s (j - length t)).
Proof.
  intros Hi0 Hi Hprev Ht. rewrite !occurs_at_two, !lookup_insert_at by done.
  destruct (decide (j < i)) as [Hj|Hj].
  - destruct (decide (S j < i)) as [Hj'|Hj'].
    + split; [intros ?; left; done|].
      intros [[_ H]|[? _]]; [done|lia].
    + replace j with (i - 1) in * by lia.
      split; [intros [? _]; done|].
      intros [[_ [H _]]|[? _]]; [done|lia].
  - destruct (decide (j < i + length t)).
    + split; [intros [H _]; destruct (Ht _ H)|]. intros [[? _]|[? _]]; lia.
    + destruct (decide (S j < i)); [lia|].
      destruct (decide (S j < i + length t)); [lia|].
      replace (S j - length t) with (S (j - length t)) by lia.
      split; [intros ?; right; split; [lia|done]|].
      intros [[? _]|[_ H]]; [lia|done].
Qed.

(** ** The generic fallback *)

Lemma return_paren_at_after code j :
  return_paren_at code j ↔
  j ≤ length code ∧ is_Some (after_return_paren (drop j code)).
Proof.
  split.
  - intros (pre & ws & rest & -> & Hws & <-). split; [rewrite length_app; lia|].
    rewrite drop_app_length. exists rest. apply after_return_paren_Some. eauto.
  - intros [Hj [r (ws & Hr & Hws)%after_return_paren_Some]].
    exists (take j code), ws, r. split; [|split; [done|rewrite length_take; lia]].
    rewrite <- Hr, take_drop. done.
Qed.

Lemma exec_from_None_iff r1 r2 :
  (∀ pre suf, match_at r1 pre suf = None ↔ match_at r2 pre suf = None) →
  ∀ suf pre, exec_from r1 pre suf = None ↔ exec_from r2 pre suf = None.
Proof.
  intros H. induction suf as [|c suf IH]; intros pre; simpl.
  - specialize (H pre []).
    destruct (match_at r1 pre []), (match_at r2 pre []); try done;
      destruct H as [H1 H2]; try (by discriminate H1); try (by discriminate H2).
  - specialize (H pre (c :: suf)).
    destruct (match_at r1 pre (c :: suf)), (match_at r2 pre (c :: suf)); try done;
      destruct H as [H1 H2]; try (by discriminate H1); try (by discriminate H2).
Qed.

Lemma regex_test_return_paren code :
  regex_test re_return_paren code = true ↔ ∃ i, return_paren_at code i.
Proof.
  unfold regex_test. split.
  - destruct (regex_match re_return_paren code) as [mo|] eqn:Hm; [|done].
    intros _. destruct (regex_match_Some _ _ _ Hm) as (rest & Hcode & Hlen & Hat & _).
    exists (m_index mo). apply return_paren_at_after. split.
    + rewrite <- Hlen, length_take. lia.
    + rewrite match_at_return_paren in Hat.
      destruct (after_return_paren _); [eauto|done].
  - intros [i [Hi [r Hr]]%return_paren_at_after].
    destruct (regex_match re_return_paren code) as [mo|] eqn:Hm; [done|].
    pose proof (regex_match_None _ _ Hm i Hi) as Hat.
    rewrite match_at_return_paren, Hr in Hat. done.
Qed.

Lemma forallb_last_not {A} (p : A → bool) (l : list A) x :
  forallb p l = true → last l = Some x → p x = true.
Proof.
  intros Hall Hl. rewrite forallb_forall in Hall. apply Hall.
  apply list_elem_of_In, last_Some_elem_of. done.
Qed.

Lemma return_paren_ws_text_last t :
  return_paren_ws_text t →
  0 < length t ∧ t !! (length t - 1) ≠ Some (N_of_ascii ")").
Proof.
  intros (ws1 & ws2 & -> & H1 & H2). split.
  - rewrite !length_app. simpl. lia.
  - rewrite Nat.sub_1_r, <- last_lookup. rewrite !last_app, last_cons.
    destruct (last ws2) as [y|] eqn:Ey.
    + pose proof (forallb_last_not _ _ _ H2 Ey) as Hy.
      intros [= ->]. done.
    + done.
Qed.

(** The first match of [return\s*\(\s*], in the terms of the string. *)
Lemma regex_match_return_paren_ws code :
  regex_test re_return_paren code = true →
  ∃ mo pre t rest,
    regex_match re_return_paren_ws code = Some mo
    ∧ code = pre ++ t ++ rest
    ∧ m_index mo = length pre ∧ m_text mo = t
    ∧ return_paren_ws_text t
    ∧ (∀ c r, rest = c :: r → is_space c = false)
    ∧ return_paren_at code (length pre)
    ∧ (∀ j, return_paren_at code j → length pre ≤ j).
Proof.
  unfold regex_test. intros Ht.
  destruct (regex_match re_return_paren_ws code) as [mo|] eqn:Hm.
  2:{ unfold regex_match in *.
      rewrite (exec_from_None_iff _ _ match_at_return_paren_ws_None) in Hm.
      rewrite Hm in Ht. done. }
  destruct (regex_match_Some _ _ _ Hm) as (rest & Hcode & Hlen & Hat & Hno).
  rewrite match_at_return_paren_ws in Hat.
  destruct (after_return_paren (drop (m_index mo) code)) as [r|] eqn:Hr; [|done].
  apply (inj Some) in Hat.
  pose proof Hr as (ws & Hd & Hws)%after_return_paren_Some.
  pose proof (take_drop_while is_space r) as Htd.
  pose proof (take_while_all is_space r) as Hall.
  pose proof (drop_while_head is_space r) as Hhead.
  set (tw := take_while is_space r) in *.
  set (dw := drop_while is_space r) in *.
  assert (Heq : drop (m_index mo) code
                = (lit "return" ++ ws ++ N_of_ascii "(" :: tw) ++ dw).
  { rewrite Hd, <- Htd, <- !app_assoc. simpl. rewrite <- ?app_assoc. done. }
  assert (Htext : m_text mo = lit "return" ++ ws ++ N_of_ascii "(" :: tw).
  { rewrite <- Hat. unfold m_text. rewrite Heq.
    apply take_app_length'. rewrite (length_app _ dw). lia. }
  exists mo, (take (m_index mo) code), (m_text mo), dw.
  split; [done|]. split.
  { rewrite <- (take_drop (m_index mo) code) at 1. rewrite Heq, Htext. done. }
  split; [done|]. split; [done|]. split; [by exists ws, tw|]. split.
  { intros c r' Hc. eapply Hhead. done. }
  split.
  - apply return_paren_at_after. rewrite Hlen, Hr. split; [|done].
    rewrite <- Hlen, length_take. lia.
  - intros j [Hj [r' Hr']]%return_paren_at_after.
    destruct (decide (length (take (m_index mo) code) ≤ j)) as [|Hlt]; [done|].
    rewrite Hlen in Hlt. specialize (Hno j ltac:(lia)).
    rewrite match_at_return_paren_ws, Hr' in Hno. done.
Qed.

Lemma insert_at_app pre t rest :
  insert_at (length pre) t (pre ++ rest) = pre ++ t ++ rest.
Proof. unfold insert_at. rewrite take_app_length, drop_app_length. done. Qed.

Lemma open_tag_no_close_paren k :
  open_tag providerName !! k ≠ Some (N_of_ascii ")").
Proof.
  intros H. apply list_elem_of_lookup_2, list_elem_of_In in H.
  assert (Hall : forallb (λ c, negb (is_chr ")" c)) (open_tag providerName) = true)
    by (vm_compute; reflexivity).
  rewrite forallb_forall in Hall. apply Hall in H. done.
Qed.

(** Lines 150-157, in the terms of the string: the opening tag goes right
    after the first [return\s*\(\s*]; the closing tag goes right before the
    last [");"] of the file, if there is one. *)
Lemma wrap_generic_spec code :
  regex_test re_return_paren code = true →
  ∃ pre t rest,
    code = pre ++ t ++ rest
    ∧ return_paren_ws_text t
    ∧ (∀ c r, rest = c :: r → is_space c = false)
    ∧ return_paren_at code (length pre)
    ∧ (∀ j, return_paren_at code j → length pre ≤ j)
    ∧ let i := length pre + length t in
      let opened := insert_at i (open_tag providerName) code in
      ((∀ j, ¬ occurs_at close_paren_semi code j) → wrap_generic code = opened)
      ∧ (∀ k, last_occurrence close_paren_semi code k →
           wrap_generic code =
           insert_at (if decide (k < i) then k
                      else k + length (open_tag providerName))
             (close_tag providerName) opened).
Proof.
  intros Ht.
  destruct (regex_match_return_paren_ws _ Ht)
    as (mo & pre & t & rest & Hm & Hcode & Hi & Htxt & Htext & Hrest & Hat & Hfirst).
  exists pre, t, rest. do 5 (split; [done|]).
  intros i opened.
  assert (Hopened : regex_replace re_return_paren_ws
            (λ mo, m_text mo ++ open_tag providerName) code = opened).
  { unfold regex_replace. rewrite Hm, Hi, Htxt.
    unfold opened, i. rewrite Hcode at 1 2 3.
    rewrite take_app_length, (app_assoc pre t rest), <- length_app.
    rewrite drop_app_length, insert_at_app, <- !app_assoc. done. }
  destruct (return_paren_ws_text_last _ Htext) as [Htpos Htlast].
  assert (Hilen : i ≤ length code).
  { unfold i. rewrite Hcode, !length_app. lia. }
  assert (Hprev : code !! (i - 1) ≠ Some (N_of_ascii ")")).
  { unfold i. rewrite Hcode, lookup_app_r by lia.
    rewrite lookup_app_l by lia.
    replace (length pre + length t - 1 - length pre) with (length t - 1) by lia.
    done. }
  assert (Hocc : ∀ j, occurs_at close_paren_semi opened j ↔
            (j < i ∧ occurs_at close_paren_semi code j)
            ∨ (i + length (open_tag providerName) ≤ j
               ∧ occurs_at close_paren_semi code (j - length (open_tag providerName)))).
  { intros j. apply occurs_at_two_insert; [lia|done|done|].
    apply open_tag_no_close_paren. }
  unfold wrap_generic. rewrite Hopened. fold close_paren_semi. split.
  - intros Hnone.
    assert (lastIndexOf opened close_paren_semi = None) as ->; [|done].
    apply lastIndexOf_None. intros j [[_ H]|[_ H]]%Hocc; exact (Hnone _ H).
  - intros k [Hk Hmax].
    set (k1 := if decide (k < i) then k else k + length (open_tag providerName)).
    assert (lastIndexOf opened close_paren_semi = Some k1) as ->.
    { apply lastIndexOf_Some. split.
      - apply Hocc. unfold k1. destruct (decide (k < i)); [left; done|].
        right. split; [lia|]. rewrite Nat.add_sub. done.
      - intros j [[Hj H]|[Hj H]]%Hocc; apply Hmax in H; unfold k1;
          destruct (decide (k < i)); lia. }
    unfold slice, slice_from, insert_at. rewrite Nat.sub_0_r, drop_0. done.
Qed.

(** *** Occurrences of a text around an insertion *)

Lemma occurs_at_lookup pat s j :
  occurs_at pat s j → ∀ k, k < length pat → s !! (j + k) = pat !! k.
Proof.
  intros (a & b & -> & <-) k Hk.
  rewrite lookup_app_r by lia.
  replace (length a + k - length a) with k by lia.
  rewrite lookup_app_l by lia. done.
Qed.

Lemma occurs_at_of_lookup pat s j :
  pat ≠ [] →
  (∀ k, k < length pat → s !! (j + k) = pat !! k) →
  occurs_at pat s j.
Proof.
  intros Hne H.
  assert (Hj : j < length s).
  { destruct pat as [|x pat]; [done|].
    specialize (H 0 ltac:(simpl; lia)). rewrite Nat.add_0_r in H.
    by apply lookup_lt_Some in H. }
  assert (Hpat : take (length pat) (drop j s) = pat).
  { apply list_eq. intros k. destruct (decide (k < length pat)).
    - rewrite lookup_take_lt, lookup_drop by done. auto.
    - rewrite lookup_take_ge by lia. symmetry. apply lookup_ge_None. lia. }
  exists (take j s), (drop (length pat) (drop j s)). split.
  - transitivity (take j s ++ take (length pat) (drop j s)
                    ++ drop (length pat) (drop j s));
      [by rewrite !take_drop | by rewrite Hpat].
  - rewrite length_take. lia.
Qed.

(** A text [pat] whose first character [x] occurs nowhere else in it does
    not overlap an inserted text [t] that starts with [x], has no other
    [x] and differs from [pat] at the second character. *)
Lemma occurs_at_insert_inv x pat' t' i s j :
  x ∉ pat' → x ∉ t' → head pat' ≠ head t' → pat' ≠ [] → t' ≠ [] →
  i ≤ length s →
  occurs_at (x :: pat') (insert_at i (x :: t') s) j →
  (j + length (x :: pat') ≤ i ∧ occurs_at (x :: pat') s j)
  ∨ (i + length (x :: t') ≤ j
     ∧ occurs_at (x :: pat') s (j - length (x :: t'))).
Proof.
  intros Hpat Ht Hhead Hne Hne' Hi Hocc.
  pose proof (occurs_at_lookup _ _ _ Hocc) as Hlook.
  destruct (decide (j + length (x :: pat') ≤ i)) as [Hleft|Hleft].
  { left. split; [done|]. apply occurs_at_of_lookup; [done|].
    intros k Hk. rewrite <- (Hlook k Hk), lookup_insert_at by done.
    destruct (decide (j + k < i)); [done|lia]. }
  destruct (decide (i + length (x :: t') ≤ j)) as [Hright|Hright].
  { right. split; [done|]. apply occurs_at_of_lookup; [done|].
    intros k Hk. rewrite <- (Hlook k Hk), lookup_insert_at by done.
    destruct (decide (j + k < i)); [lia|].
    destruct (decide (j + k < i + length (x :: t'))); [lia|].
    f_equal. lia. }
  exfalso. destruct (decide (i ≤ j)) as [Hij|Hij].
  - (* the occurrence starts inside the inserted text *)
    pose proof (Hlook 0 ltac:(simpl; lia)) as H0.
    rewrite Nat.add_0_r, lookup_insert_at in H0 by done.
    destruct (decide (j < i)); [lia|].
    destruct (decide (j < i + length (x :: t'))); [|lia].
    destruct (j - i) as [|m] eqn:Hm.
    + pose proof (Hlook 1 ltac:(destruct pat'; simpl; [done|lia])) as H1.
      rewrite lookup_insert_at in H1 by done.
      destruct (decide (j + 1 < i)); [lia|].
      replace (j + 1 - i) with 1 in H1 by lia.
      destruct (decide (j + 1 < i + length (x :: t')))
        as [|Hshort]; [|destruct t'; simpl in *; [done|lia]].
      simpl in H1. rewrite <- !head_lookup in H1. congruence.
    + simpl in H0. apply Ht. eapply list_elem_of_lookup_2. exact H0.
  - (* the inserted text starts inside the occurrence *)
    assert (Hk : i - j < length (x :: pat')) by lia.
    pose proof (Hlook (i - j) Hk) as H.
    replace (j + (i - j)) with i in H by lia.
    rewrite lookup_insert_at in H by done.
    destruct (decide (i < i)); [lia|].
    destruct (decide (i < i + length (x :: t'))); [|simpl in *; lia].
    rewrite Nat.sub_diag in H. simpl in H.
    destruct (i - j) as [|m] eqn:Hm; [lia|]. simpl in H.
    apply Hpat. eapply list_elem_of_lookup_2. symmetry. exact H.
Qed.

(** The closing tag around an inserted opening tag. *)
Lemma close_tag_after_open_insert i s :
  i ≤ length s →
  includes s (close_tag providerName) = false →
  includes (insert_at i (open_tag providerName) s) (close_tag providerName)
  = false.
Proof.
  intros Hi Hnone. rewrite includes_false in *. intros j Hj.
  change (close_tag providerName)
    with (lt_chr :: lit "/NotificationsProvider>") in Hj.
  change (open_tag providerName)
    with (lt_chr :: lit "NotificationsProvider>") in Hj.
  apply occurs_at_insert_inv in Hj as [[_ Hj]|[_ Hj]].
  - exact (Hnone _ Hj).
  - exact (Hnone _ Hj).
  - intros H%list_elem_of_In. vm_compute in H. intuition discriminate.
  - intros H%list_elem_of_In. vm_compute in H. intuition discriminate.
  - vm_compute. discriminate.
  - discriminate.
  - discriminate.
  - exact Hi.
Qed.

(** ** The stack detector *)

Section RunProperties.

Variable JSON_parse : jsstring → option json.

Lemma readJSONSafe_spec p s :
  readJSONSafe JSON_parse p s
  = Return (parsed_or_null JSON_parse (st_fs s) p) s.
Proof.
  unfold readJSONSafe, try_catch, bind, readFileSync, parsed_or_null.
  destruct (st_fs s !! p) as [[txt|]|]; try done.
  destruct (JSON_parse txt); done.
Qed.

Lemma detect_stack_spec s :
  detect_stack JSON_parse s =
  Return
    (let deps := merged_deps (manifest JSON_parse (st_fs s)) in
     stack_of (has_key (lit "next") deps)
       (has_key (lit "react-native") deps
        || bool_decide (is_Some (st_fs s !! lit "app.json"))
        || bool_decide (is_Some (st_fs s !! lit "expo.json"))
        || bool_decide (is_Some (st_fs s !! lit "expo.config.js"))))
    s.
Proof.
  unfold detect_stack, bind. rewrite readJSONSafe_spec. fold (manifest JSON_parse (st_fs s)).
  cbv zeta. unfold orM, bind, ret, existsSync.
  destruct (has_key (lit "react-native") _); [done|].
  destruct (bool_decide (is_Some (st_fs s !! lit "app.json"))); [done|].
  destruct (bool_decide (is_Some (st_fs s !! lit "expo.json"))); [done|].
  done.
Qed.

End RunProperties.

Lemma has_key_dom (key : jsstring) (deps : gmap jsstring json) :
  has_key key deps = true ↔ key ∈ dom deps.
Proof. unfold has_key. rewrite bool_decide_eq_true, elem_of_dom. done. Qed.

Lemma merged_deps_dom (pkg : json) (key : jsstring) :
  key ∈ dom (merged_deps pkg) ↔
  key ∈ dom (own_props (or_empty (get_prop pkg (lit "dependencies"))))
  ∨ key ∈ dom (own_props (or_empty (get_prop pkg (lit "devDependencies")))).
Proof. unfold merged_deps. rewrite dom_union, elem_of_union. tauto. Qed.

(** ** The root locator *)

Lemma find_existing_spec paths s :
  find_existing paths s =
  Return (List.find (λ p, bool_decide (is_Some (st_fs s !! p))) paths) s.
Proof.
  induction paths as [|p paths IH]; [done|].
  cbn [find_existing List.find]. unfold bind, existsSync.
  destruct (bool_decide _); done.
Qed.

Lemma find_first_spec {A} (f : A → bool) (l : list A) x :
  List.find f l = Some x ↔
  ∃ i, l !! i = Some x ∧ f x = true
       ∧ ∀ j y, j < i → l !! j = Some y → f y = false.
Proof.
  induction l as [|a l IH]; simpl.
  - split; [done|]. intros (i & H & _). done.
  - destruct (f a) eqn:Ha.
    + split.
      * intros [= <-]. exists 0. split; [done|]. split; [done|]. lia.
      * intros ([|i] & Hi & Hx & Hno).
        -- simpl in Hi. congruence.
        -- specialize (Hno 0 a ltac:(lia) eq_refl). congruence.
    + rewrite IH. split.
      * intros (i & Hi & Hx & Hno). exists (S i). split; [done|]. split; [done|].
        intros [|j] y Hj Hy; simpl in Hy; [congruence|]. eapply Hno; [|done]. lia.
      * intros ([|i] & Hi & Hx & Hno).
        -- simpl in Hi. congruence.
        -- exists i. split; [done|]. split; [done|].
           intros j y Hj Hy. apply (Hno (S j) y); [lia|done].
Qed.

Lemma find_none_spec {A} (f : A → bool) (l : list A) :
  List.find f l = None ↔ ∀ x, x ∈ l → f x = false.
Proof.
  induction l as [|a l IH]; simpl.
  - split; [|done]. intros _ x Hx. inversion Hx.
  - destruct (f a) eqn:Ha.
    + split; [done|]. intros H. specialize (H a ltac:(left)). congruence.
    + rewrite IH. split.
      * intros H x [->|Hx]%elem_of_cons; auto.
      * intros H x Hx. apply H. by right.
Qed.



(** ** The import pattern *)

Lemma rmatch_import_tail pre suf caps :
  rmatch (Seqs [Lit "import "; Star is_dot; Opt (is_chr ";")]) Some
    (MState pre suf caps)
  = if is_prefix (lit "import ") suf
    then Some (MState (rev (take_while is_dot (drop 7 suf))
                         ++ rev (take 7 suf) ++ pre)
                 (drop_while is_dot (drop 7 suf)) caps)
    else None.
Proof.
  unfold Seqs, Lit. rewrite rmatch_Seq, rmatch_Lit_with, match_chars_is_prefix.
  destruct (is_prefix (lit "import ") suf); [|done].
  change (String.length "import ") with 7.
  rewrite rmatch_Seq, rmatch_Star.
  apply star_first. rewrite rmatch_Seq.
  pose proof (drop_while_head is_dot (drop 7 suf)) as Hhead.
  destruct (drop_while is_dot (drop 7 suf)) as [|c r]; [done|].
  cbn [rmatch remaining].
  destruct (is_chr ";" c) eqn:Hc; [|done].
  apply N.eqb_eq in Hc as ->. specialize (Hhead _ _ eq_refl). done.
Qed.

Lemma length_import_text suf :
  is_prefix (lit "import ") suf = true →
  length suf - length (drop_while is_dot (drop 7 suf)) = length (import_text suf)
  ∧ take (length (import_text suf)) suf = import_text suf.
Proof.
  intros [r ->]%is_prefix_spec. unfold import_text.
  change (drop 7 (lit "import " ++ r)) with r.
  pose proof (take_drop_while is_dot r) as Htd.
  set (tw := take_while is_dot r) in *. set (dw := drop_while is_dot r) in *.
  clearbody tw dw. subst r. split.
  - rewrite !length_app. lia.
  - rewrite app_assoc. apply take_app_length.
Qed.

Lemma rmatch_import_line pre suf :
  (λ st', (remaining st', captures st'))
    <$> rmatch re_import_line Some (MState pre suf [])
  = if bool_decide (pre = []) && is_prefix (lit "import ") suf
    then Some (drop_while is_dot (drop 7 suf), [[]])
    else match suf with
         | c :: suf' =>
             if is_chr "010" c && is_prefix (lit "import ") suf'
             then Some (drop_while is_dot (drop 7 suf'), [[c]])
             else None
         | [] => None
         end.
Proof.
  unfold re_import_line.
  change (Seqs (?a :: ?l)) with (Seq a (Seqs l)).
  rewrite rmatch_Seq.
  set (tail := Seqs [Lit "import "; Star is_dot; Opt (is_chr ";")]).
  assert (Htail : ∀ pre' suf' caps,
    rmatch tail Some (MState pre' suf' caps)
    = if is_prefix (lit "import ") suf'
      then Some (MState (rev (take_while is_dot (drop 7 suf'))
                           ++ rev (take 7 suf') ++ pre')
                   (drop_while is_dot (drop 7 suf')) caps)
      else None) by apply rmatch_import_tail.
  clearbody tail.
  assert (Hsecond :
    (λ st', (remaining st', captures st'))
      <$> match suf with
          | c :: suf' =>
              if is_chr "010" c
              then rmatch tail Some
                     (MState (c :: pre) suf'
                        ([] ++ [take (length suf - length suf') suf]))
              else None
          | [] => None
          end
    = match suf with
      | c :: suf' =>
          if is_chr "010" c && is_prefix (lit "import ") suf'
          then Some (drop_while is_dot (drop 7 suf'), [[c]])
          else None
      | [] => None
      end).
  { destruct suf as [|c suf']; [done|].
    destruct (is_chr "010" c); [|done]. cbn [andb].
    rewrite Htail.
    replace (length (c :: suf') - length suf') with 1 by (simpl; lia).
    destruct (is_prefix (lit "import ") suf'); done. }
  cbn [rmatch consumed remaining captures].
  destruct pre as [|p pre].
  - rewrite bool_decide_eq_true_2 by done. cbn [andb].
    rewrite Nat.sub_diag, take_0, Htail.
    destruct (is_prefix (lit "import ") suf) eqn:Hp; [done|].
    destruct suf as [|c suf']; [done|]. exact Hsecond.
  - rewrite bool_decide_eq_false_2 by done. cbn [andb].
    destruct suf as [|c suf']; [done|]. exact Hsecond.
Qed.

(** The matcher on the import pattern, at any place. *)
Lemma match_at_import_line pre suf :
  match_at re_import_line pre suf =
  if bool_decide (pre = []) && is_prefix (lit "import ") suf
  then Some (JsMatch 0 (import_text suf) [[]])
  else match suf with
       | c :: suf' =>
           if is_chr "010" c && is_prefix (lit "import ") suf'
           then Some (JsMatch (length pre) (c :: import_text suf') [[c]])
           else None
       | [] => None
       end.
Proof.
  pose proof (rmatch_import_line pre suf) as H. unfold match_at.
  destruct (rmatch re_import_line Some (MState pre suf [])) as [st'|];
    cbn [fmap option_fmap option_map] in H.
  - destruct (bool_decide (pre = [])) eqn:Hpre; cbn [andb] in *.
    + apply bool_decide_eq_true in Hpre as ->.
      destruct (is_prefix (lit "import ") suf) eqn:Hp.
      * injection H as -> ->.
        destruct (length_import_text _ Hp) as [-> ->]. done.
      * destruct suf as [|c suf']; [done|].
        destruct (is_chr "010" c && is_prefix (lit "import ") suf') eqn:E; [|done].
        apply andb_true_iff in E as [_ Hp']. injection H as -> ->.
        destruct (length_import_text _ Hp') as [Hlen Htake].
        cbn [length].
        replace (S (length suf') - length (drop_while is_dot (drop 7 suf')))
          with (S (length (import_text suf')))
          by (pose proof (length_drop_while_le is_dot (drop 7 suf'));
              rewrite length_drop in *; lia).
        cbn [take]. rewrite Htake. done.
    + destruct suf as [|c suf']; [done|].
      destruct (is_chr "010" c && is_prefix (lit "import ") suf') eqn:E; [|done].
      apply andb_true_iff in E as [_ Hp']. injection H as -> ->.
      destruct (length_import_text _ Hp') as [Hlen Htake].
      cbn [length].
      replace (S (length suf') - length (drop_while is_dot (drop 7 suf')))
        with (S (length (import_text suf')))
        by (pose proof (length_drop_while_le is_dot (drop 7 suf'));
            rewrite length_drop in *; lia).
      cbn [take]. rewrite Htake. done.
  - destruct (bool_decide (pre = []) && is_prefix (lit "import ") suf); [done|].
    destruct suf as [|c suf']; [done|].
    destruct (is_chr "010" c && is_prefix (lit "import ") suf'); done.
Qed.

(** ** Global matching *)

Lemma match_from_0 r pre suf : match_from r pre suf 0 = match_at r pre suf.
Proof. unfold match_from. by rewrite take_0, drop_0. Qed.

Lemma match_from_S r pre c suf k :
  match_from r pre (c :: suf) (S k) = match_from r (c :: pre) suf k.
Proof. unfold match_from. simpl. by rewrite <- app_assoc. Qed.

Lemma separated_matches_tail r pre c suf :
  separated_matches r pre (c :: suf) → separated_matches r (c :: pre) suf.
Proof.
  intros H k mo Hk Hm. rewrite <- match_from_S in Hm.
  destruct (H (S k) mo ltac:(simpl; lia) Hm) as [Hne Hno].
  split; [done|]. intros k' H1 H2 H3. rewrite <- match_from_S.
  apply Hno; simpl; lia.
Qed.

(** With separated matches, [s.match(r)] with the [g] flag returns the
    texts of the matches at all the places where [r] matches. *)
Lemma match_all_from_spec r : ∀ suf pre skip,
  separated_matches r pre suf →
  (∀ k, k < skip → k ≤ length suf → match_from r pre suf k = None) →
  match_all_from r skip pre suf = matches_from r pre suf.
Proof.
  induction suf as [|c suf IH]; intros pre skip Hsep Hskip.
  - cbn [matches_from]. rewrite app_nil_r.
    destruct skip as [|n]; cbn [match_all_from].
    + destruct (match_at r pre []); done.
    + specialize (Hskip 0 ltac:(lia) ltac:(simpl; lia)).
      rewrite match_from_0 in Hskip. rewrite Hskip. done.
  - cbn [matches_from].
    pose proof (separated_matches_tail _ _ _ _ Hsep) as Hsep'.
    destruct skip as [|n]; cbn [match_all_from].
    + destruct (match_at r pre (c :: suf)) as [mo|] eqn:Hm.
      * cbn [app]. f_equal. apply IH; [done|].
        intros k Hk Hle. rewrite <- match_from_S.
        rewrite <- match_from_0 in Hm.
        destruct (Hsep 0 mo ltac:(lia) Hm) as [Hne Hno].
        apply Hno; simpl; lia.
      * cbn [app]. apply IH; [done|]. intros k Hk. lia.
    + pose proof (Hskip 0 ltac:(lia) ltac:(simpl; lia)) as H0.
      rewrite match_from_0 in H0. rewrite H0. cbn [app].
      apply IH; [done|].
      intros k Hk Hle. rewrite <- match_from_S. apply Hskip; simpl; lia.
Qed.

Lemma matches_from_nil r : ∀ suf pre,
  (∀ k, k ≤ length suf → match_from r pre suf k = None) →
  matches_from r pre suf = [].
Proof.
  induction suf as [|c suf IH]; intros pre H; cbn [matches_from].
  - rewrite <- match_from_0, H by (simpl; lia). done.
  - rewrite <- match_from_0, H by (simpl; lia). cbn [app].
    apply IH. intros k Hk. rewrite <- match_from_S. apply H. simpl. lia.
Qed.

Lemma matches_from_last r : ∀ suf pre p mo,
  p ≤ length suf →
  match_from r pre suf p = Some mo →
  (∀ k, p < k → k ≤ length suf → match_from r pre suf k = None) →
  ∃ l, matches_from r pre suf = l ++ [m_text mo].
Proof.
  induction suf as [|c suf IH]; intros pre p mo Hp Hm Hlast.
  - assert (p = 0) as -> by (simpl in Hp; lia).
    rewrite match_from_0 in Hm. cbn [matches_from]. rewrite Hm.
    exists []. done.
  - cbn [matches_from]. destruct p as [|p].
    + rewrite match_from_0 in Hm. rewrite Hm.
      rewrite (matches_from_nil r suf (c :: pre)).
      * exists []. done.
      * intros k Hk. rewrite <- match_from_S. apply Hlast; simpl; lia.
    + rewrite match_from_S in Hm.
      destruct (IH (c :: pre) p mo ltac:(simpl in Hp; lia) Hm) as [l Hl].
      * intros k Hk Hle. rewrite <- match_from_S. apply Hlast; simpl; lia.
      * rewrite Hl. eexists. rewrite app_assoc. done.
Qed.

Lemma last_snoc {A} (l : list A) x d : List.last (l ++ [x]) d = x.
Proof. apply last_last. Qed.

(** *** The import pattern has separated matches *)

Lemma import_text_tail_no_nl suf x :
  x ∈ import_text suf → is_chr "010" x = false.
Proof.
  unfold import_text. rewrite elem_of_app. intros [H|H].
  - apply list_elem_of_In in H. vm_compute in H.
    destruct H as [<-|[<-|[<-|[<-|[<-|[<-|[<-|[]]]]]]]]; done.
  - pose proof (take_while_all is_dot (drop 7 suf)) as Hall.
    rewrite forallb_forall in Hall. apply list_elem_of_In, Hall in H.
    unfold is_chr. destruct (N.eqb_spec x (N_of_ascii "010")) as [->|]; [|done].
    done.
Qed.

Lemma match_at_import_line_Some pre suf mo :
  match_at re_import_line pre suf = Some mo →
  m_text mo ≠ []
  ∧ (pre ≠ [] → ∃ suf', suf = N_of_ascii "010" :: suf')
  ∧ ∀ x, x ∈ drop 1 (m_text mo) → is_chr "010" x = false.
Proof.
  rewrite match_at_import_line.
  destruct (bool_decide (pre = [])) eqn:Hpre; cbn [andb].
  - apply bool_decide_eq_true in Hpre as ->.
    destruct (is_prefix (lit "import ") suf) eqn:Hp.
    + intros [= <-]. cbn [m_text]. split; [done|]. split; [done|].
      intros x Hx. apply (import_text_tail_no_nl suf).
      by apply (subseteq_drop 1).
    + destruct suf as [|c suf']; [done|].
      destruct (is_chr "010" c && is_prefix _ suf') eqn:E; [|done].
      intros [= <-]. cbn [m_text drop]. split; [done|]. split; [done|].
      rewrite drop_0. apply import_text_tail_no_nl.
  - apply bool_decide_eq_false in Hpre.
    destruct suf as [|c suf']; [done|].
    destruct (is_chr "010" c && is_prefix _ suf') eqn:E; [|done].
    apply andb_true_iff in E as [Hc%N.eqb_eq _]. subst c.
    intros [= <-]. cbn [m_text drop]. split; [done|]. split; [eauto|].
    rewrite drop_0. apply import_text_tail_no_nl.
Qed.

Lemma separated_matches_import_line pre suf :
  separated_matches re_import_line pre suf.
Proof.
  intros k mo Hk Hm. unfold match_from in Hm.
  pose proof (match_at_import_line_Some _ _ _ Hm) as (Hne & _ & Hnl).
  split; [done|]. intros k' H1 H2 H3. unfold match_from.
  destruct (match_at re_import_line _ (drop k' suf)) as [mo'|] eqn:Hm'; [|done].
  exfalso.
  apply match_at_import_line_Some in Hm' as (_ & Hstart & _).
  destruct Hstart as [suf' Hsuf'].
  { intros Hnil. apply (f_equal length) in Hnil.
    rewrite length_app, length_rev, length_take in Hnil. simpl in Hnil. lia. }
  apply match_at_Some in Hm as (_ & rest & Hrest).
  assert (Hx : suf !! k' = Some (N_of_ascii "010")).
  { rewrite <- (Nat.add_0_r k'), <- lookup_drop, Hsuf'. done. }
  assert (Hy : m_text mo !! (k' - k) = Some (N_of_ascii "010")).
  { rewrite <- Hx. replace k' with (k + (k' - k)) at 2 by lia.
    rewrite <- lookup_drop, Hrest, lookup_app_l by lia. done. }
  assert (Hin : N_of_ascii "010" ∈ drop 1 (m_text mo)).
  { apply (list_elem_of_lookup_2 _ (k' - k - 1)).
    rewrite lookup_drop. rewrite <- Hy. f_equal. lia. }
  apply Hnl in Hin. done.
Qed.

Lemma regex_match_all_import_line code :
  regex_match_all re_import_line code
  = match matches_from re_import_line [] code with
    | [] => None
    | l => Some l
    end.
Proof.
  unfold regex_match_all. rewrite match_all_from_spec; [done| |intros; lia].
  apply separated_matches_import_line.
Qed.

Lemma import_line_at_match code j t :
  import_line_at code j t ↔
  j ≤ length code
  ∧ ∃ mo, match_from re_import_line [] code j = Some mo ∧ m_text mo = t.
Proof.
  unfold match_from. rewrite app_nil_r. split.
  - intros [(-> & Hp & ->)|(pre & suf & -> & <- & Hfirst & Hp & ->)].
    + split; [lia|]. rewrite take_0, drop_0. eexists.
      rewrite match_at_import_line, Hp. cbn. done.
    + split; [rewrite length_app; lia|].
      rewrite take_app_length, drop_app_length, match_at_import_line.
      assert (is_prefix (lit "import ") (N_of_ascii "010" :: suf) = false)
        as -> by done.
      rewrite andb_false_r, Hp. cbn. eauto.
  - intros [Hj (mo & Hm & <-)]. rewrite match_at_import_line in Hm.
    destruct (bool_decide (rev (take j code) = [])) eqn:Hpre; cbn [andb] in Hm.
    + apply bool_decide_eq_true in Hpre.
      assert (j = 0) as ->.
      { apply (f_equal length) in Hpre.
        rewrite length_rev, length_take in Hpre. simpl in Hpre. lia. }
      rewrite drop_0 in Hm.
      destruct (is_prefix (lit "import ") code) eqn:Hp.
      * injection Hm as <-. left. done.
      * destruct code as [|c suf']; [done|].
        destruct (is_chr "010" c && is_prefix _ suf') eqn:E; [|done].
        apply andb_true_iff in E as [Hc%N.eqb_eq Hp']. subst c.
        injection Hm as <-. right. exists [], suf'. done.
    + apply bool_decide_eq_false in Hpre.
      destruct (drop j code) as [|c suf'] eqn:Hd; [done|].
      destruct (is_chr "010" c && is_prefix _ suf') eqn:E; [|done].
      apply andb_true_iff in E as [Hc%N.eqb_eq Hp']. subst c.
      injection Hm as <-. right. exists (take j code), suf'.
      split; [by rewrite <- Hd, take_drop|].
      split; [rewrite length_take; lia|]. split; [|done].
      intros Hnil. rewrite Hnil in Hpre. done.
Qed.

(** ** The matcher finds a match exactly when there is one *)

Lemma rmatch_sound_caps r : ∀ k st res,
  rmatch r k st = Some res →
  ∃ st' m c, k st' = Some res ∧ advances st st' m
             ∧ captures st' = captures st ++ c
             ∧ matches_with r (consumed st) m (remaining st') c.
Proof.
  induction r as [|p|p|p| | | |a IHa b IHb|a IHa b IHb|a IHa]; intros k st res;
    cbn [rmatch matches_with matches].
  - intros H. exists st, [], []. rewrite app_nil_r. done.
  - destruct st as [pre [|c suf] caps]; cbn [remaining consumed captures]; [done|].
    destruct (p c) eqn:Hc; [|done]. intros H. eexists _, [c], [].
    split; [exact H|]. split; [done|]. cbn [captures]. rewrite app_nil_r.
    split; [done|]. split; [done|]. eauto.
  - intros H. destruct (star_advances _ _ _ _ _ _ H) as (st' & m & Hk & Ha & Hc & Hall).
    exists st', m, []. rewrite app_nil_r. destruct st; done.
  - destruct st as [pre [|c suf] caps]; cbn [remaining consumed captures].
    + intros H. eexists _, [], []. split; [exact H|]. split; [done|].
      cbn [captures]. rewrite app_nil_r. split; [done|]. split; [done|]. by left.
    + destruct (p c) eqn:Hc.
      * destruct (k (MState (c :: pre) suf caps)) eqn:E.
        -- intros [= <-]. eexists _, [c], []. split; [exact E|]. split; [done|].
           cbn [captures]. rewrite app_nil_r. split; [done|]. split; [done|].
           right. eauto.
        -- intros H. eexists _, [], []. split; [exact H|]. split; [done|].
           cbn [captures]. rewrite app_nil_r. split; [done|]. split; [done|].
           by left.
      * intros H. eexists _, [], []. split; [exact H|]. split; [done|].
        cbn [captures]. rewrite app_nil_r. split; [done|]. split; [done|].
        by left.
  - destruct (consumed st) eqn:E; [|done]. intros H. exists st, [], [].
    rewrite app_nil_r. done.
  - destruct (remaining st) eqn:E; [|done]. intros H. exists st, [], [].
    rewrite E, app_nil_r. done.
  - destruct (xorb _ _) eqn:E; [|done]. intros H. exists st, [], [].
    rewrite app_nil_r. done.
  - intros H. destruct (IHa _ _ _ H) as (st1 & m1 & c1 & H1 & A1 & C1 & S1).
    destruct (IHb _ _ _ H1) as (st2 & m2 & c2 & H2 & A2 & C2 & S2).
    exists st2, (m1 ++ m2), (c1 ++ c2). split; [done|].
    split; [eapply advances_trans; done|].
    split; [rewrite C2, C1, app_assoc; done|].
    exists m1, m2, c1, c2. split; [done|]. split; [done|].
    destruct A1 as [A1 A1'], A2 as [A2 A2'].
    rewrite <- A2', <- A1. done.
  - destruct (rmatch a k st) eqn:E.
    + intros [= <-]. destruct (IHa _ _ _ E) as (st' & m0 & c0 & ? & ? & ? & ?).
      exists st', m0, c0. eauto 6.
    + intros H. destruct (IHb _ _ _ H) as (st' & m0 & c0 & ? & ? & ? & ?).
      exists st', m0, c0. eauto 6.
  - intros H. destruct (IHa _ _ _ H) as (st1 & m1 & c1 & H1 & A1 & C1 & S1).
    eexists _, m1, (c1 ++ [m1]). split; [exact H1|].
    destruct A1 as [A1 A1']. split; [done|]. cbn [captures remaining].
    split.
    + rewrite C1, <- app_assoc. do 2 f_equal.
      rewrite A1', length_app.
      replace (length m1 + length (remaining st1) - length (remaining st1))
        with (length m1) by lia.
      rewrite take_app_length. done.
    + exists c1. done.
Qed.

Lemma matches_with_matches r : ∀ pre m suf c,
  matches_with r pre m suf c → matches r pre m suf.
Proof.
  induction r as [|p|p|p| | | |a IHa b IHb|a IHa b IHb|a IHa]; intros pre m suf c;
    cbn [matches_with matches]; try (by intros [_ H]).
  - intros (m1 & m2 & c1 & c2 & -> & _ & Ha & Hb).
    exists m1, m2. split; [done|]. split; [eapply IHa|eapply IHb]; eassumption.
  - intros [H|H]; [left; eapply IHa|right; eapply IHb]; eassumption.
  - intros (c0 & _ & H). eapply IHa. eassumption.
Qed.

Lemma star_accepts p k : ∀ suf pre caps,
  is_Some (k (MState pre suf caps)) → is_Some (star p k pre suf caps).
Proof.
  intros [|c suf] pre caps H; cbn [star]; [done|].
  destruct (p c); [|done]. destruct (star p k (c :: pre) suf caps); [eauto|done].
Qed.

Lemma star_complete p k suf caps : ∀ m pre,
  forallb p m = true →
  is_Some (k (MState (rev m ++ pre) suf caps)) →
  is_Some (star p k pre (m ++ suf) caps).
Proof.
  induction m as [|c m IH]; intros pre Hall Hk.
  - apply star_accepts. done.
  - cbn [forallb] in Hall. apply andb_true_iff in Hall as [Hc Hall].
    cbn [app star]. rewrite Hc.
    destruct (IH (c :: pre) Hall) as [r Hr].
    { cbn [rev] in Hk. rewrite <- app_assoc in Hk. done. }
    rewrite Hr. eauto.
Qed.

Lemma rmatch_complete r : ∀ k pre m suf,
  matches r pre m suf →
  (∀ caps, is_Some (k (MState (rev m ++ pre) suf caps))) →
  ∀ caps, is_Some (rmatch r k (MState pre (m ++ suf) caps)).
Proof.
  induction r as [|p|p|p| | | |a IHa b IHb|a IHa b IHb|a IHa];
    intros k pre m suf; cbn [rmatch matches remaining consumed captures].
  - intros -> Hk caps. apply Hk.
  - intros (c & -> & Hc) Hk caps. cbn [app]. rewrite Hc. apply Hk.
  - intros Hall Hk caps. apply star_complete; [done|]. apply Hk.
  - intros [->|(c & -> & Hc)] Hk caps.
    + cbn [app]. destruct suf as [|c suf]; [apply Hk|].
      destruct (p c); [|apply Hk].
      destruct (k (MState (c :: pre) suf caps)); [eauto|apply Hk].
    + cbn [app]. rewrite Hc. specialize (Hk caps). cbn [rev app] in Hk.
      destruct Hk as [r ->]. eauto.
  - intros [-> ->] Hk caps. apply Hk.
  - intros [-> ->] Hk caps. apply Hk.
  - intros [-> Hx] Hk caps. cbn [app]. rewrite Hx. apply Hk.
  - intros (m1 & m2 & -> & Ha & Hb) Hk caps. rewrite <- app_assoc.
    apply IHa; [done|]. intros caps'. apply IHb; [done|].
    intros caps''. specialize (Hk caps''). rewrite rev_app_distr, <- app_assoc in Hk.
    done.
  - intros [Ha|Hb] Hk caps.
    + destruct (IHa k pre m suf Ha Hk caps) as [r ->]. eauto.
    + destruct (rmatch a k _); [eauto|]. apply IHb; done.
  - intros Ha Hk caps. apply IHa; [done|]. intros caps'. apply Hk.
Qed.

(** A match object stands for a text that the pattern matches, with the
    texts of its groups. *)
Lemma match_at_sound_caps r pre suf mo :
  match_at r pre suf = Some mo →
  m_index mo = length pre
  ∧ ∃ rest, suf = m_text mo ++ rest
            ∧ matches_with r pre (m_text mo) rest (m_groups mo).
Proof.
  unfold match_at. destruct (rmatch r Some _) as [st'|] eqn:E; [|done].
  intros H. apply (inj Some) in H. subst mo. cbn [m_index m_text m_groups].
  split; [done|].
  destruct (rmatch_sound_caps _ _ _ _ E) as (st1 & m & c & Hk & [H1 H2] & Hc & Hm).
  apply (inj Some) in Hk. subst st1.
  cbn [remaining consumed captures] in *. exists (remaining st').
  rewrite H2, length_app.
  replace (length m + length (remaining st') - length (remaining st'))
    with (length m) by lia.
  rewrite take_app_length, Hc. done.
Qed.

Lemma match_at_sound r pre suf mo :
  match_at r pre suf = Some mo →
  m_index mo = length pre
  ∧ ∃ rest, suf = m_text mo ++ rest ∧ matches r pre (m_text mo) rest.
Proof.
  intros (Hi & rest & Hs & Hm)%match_at_sound_caps. split; [done|].
  exists rest. split; [done|]. eapply matches_with_matches. exact Hm.
Qed.

Lemma match_at_complete r pre m suf :
  matches r pre m suf → is_Some (match_at r pre (m ++ suf)).
Proof.
  intros H. unfold match_at.
  destruct (rmatch_complete r Some pre m suf H (λ _, ltac:(eauto)) [])
    as [st' ->].
  eauto.
Qed.

Lemma exec_from_complete r : ∀ a pre suf,
  is_Some (match_at r (rev a ++ pre) suf) → is_Some (exec_from r pre (a ++ suf)).
Proof.
  induction a as [|c a IH]; intros pre suf H.
  - cbn [rev app] in H. destruct H as [mo Hmo].
    destruct suf; cbn [app exec_from]; rewrite Hmo; eauto.
  - cbn [app exec_from]. destruct (match_at r pre (c :: a ++ suf)); [eauto|].
    apply IH. cbn [rev] in H. rewrite <- app_assoc in H. done.
Qed.

(** [r.test(s)] holds exactly when some piece of [s] is matched by [r]. *)
Lemma regex_test_matches r s :
  regex_test r s = true ↔ matches_somewhere r s.
Proof.
  unfold regex_test, matches_somewhere. split.
  - destruct (regex_match r s) as [mo|] eqn:E; [|done]. intros _.
    destruct (regex_match_Some _ _ _ E) as (rest & Hs & Hlen & Hm & _).
    destruct (match_at_sound _ _ _ _ Hm) as (_ & rest' & Hd & Hsem).
    exists (take (m_index mo) s), (m_text mo), rest'. split; [|done].
    rewrite <- Hd, take_drop. done.
  - intros (a & m & b & -> & Hsem).
    destruct (exec_from_complete r a [] (m ++ b)) as [mo Hmo].
    { rewrite app_nil_r. apply match_at_complete. done. }
    unfold regex_match. rewrite Hmo. done.
Qed.

(** The match that [s.match(r)] and [s.replace(r, ...)] use is a text
    matched by [r] at its index. *)
Lemma regex_match_sound r s mo :
  regex_match r s = Some mo →
  ∃ rest,
    s = take (m_index mo) s ++ m_text mo ++ rest
    ∧ length (take (m_index mo) s) = m_index mo
    ∧ matches r (rev (take (m_index mo) s)) (m_text mo) rest.
Proof.
  intros E. destruct (regex_match_Some _ _ _ E) as (rest & Hs & Hlen & Hm & _).
  destruct (match_at_sound _ _ _ _ Hm) as (_ & rest' & Hd & Hsem).
  exists rest'. split; [|done]. rewrite <- Hd, take_drop. done.
Qed.

(** The same with the groups; no piece of [s] that starts further left
    is matched by [r]. *)
Lemma regex_match_sound_caps r s mo :
  regex_match r s = Some mo →
  ∃ rest,
    s = take (m_index mo) s ++ m_text mo ++ rest
    ∧ length (take (m_index mo) s) = m_index mo
    ∧ matches_with r (rev (take (m_index mo) s)) (m_text mo) rest (m_groups mo)
    ∧ ∀ a m b, s = a ++ m ++ b → matches r (rev a) m b →
               m_index mo ≤ length a.
Proof.
  intros E. destruct (regex_match_Some _ _ _ E) as (rest & Hs & Hlen & Hm & Hno).
  destruct (match_at_sound_caps _ _ _ _ Hm) as (_ & rest' & Hd & Hsem).
  exists rest'. split; [rewrite <- Hd, take_drop; done|]. split; [done|].
  split; [done|]. intros a m b -> Hab.
  destruct (decide (m_index mo ≤ length a)) as [|Hlt]; [done|].
  specialize (Hno (length a) ltac:(lia)).
  rewrite take_app_length, drop_app_length in Hno.
  destruct (match_at_complete r (rev a) m b Hab) as [mo' Hmo']. congruence.
Qed.

Lemma regex_match_None_matches r s :
  regex_match r s = None ↔ ¬ matches_somewhere r s.
Proof.
  rewrite <- regex_test_matches. unfold regex_test.
  destruct (regex_match r s); split; try done; intros H; by destruct H.
Qed.

(** A pattern that ends with [$], replaced by a fixed text. *)
Lemma regex_replace_at_end r (P : jsstring → Prop) w p :
  (∀ pre m suf, matches r pre m suf ↔ P m ∧ suf = []) →
  (∃ t m, p = t ++ m ∧ P m ∧ regex_replace r (λ _, w) p = t ++ w)
  ∨ ((∀ t m, p = t ++ m → ¬ P m) ∧ regex_replace r (λ _, w) p = p).
Proof.
  intros Hr. unfold regex_replace.
  destruct (regex_match r p) as [mo|] eqn:E.
  - left. destruct (regex_match_sound _ _ _ E) as (rest & Hp & Hlen & Hsem).
    apply Hr in Hsem as [HP ->]. rewrite app_nil_r in Hp.
    exists (take (m_index mo) p), (m_text mo). split; [done|]. split; [done|].
    rewrite drop_ge; [by rewrite app_nil_r|].
    rewrite Hp at 1. rewrite length_app, Hlen. done.
  - right. split; [|done]. intros t m -> HP.
    apply regex_match_None_matches in E. apply E.
    exists t, m, []. rewrite app_nil_r. split; [done|]. apply Hr. done.
Qed.

(** ** Patterns in the terms of the string *)

Lemma matches_Lit s : ∀ pre m suf, matches (Lit s) pre m suf ↔ m = lit s.
Proof.
  unfold Lit. induction s as [|a s IH]; intros pre m suf; cbn [Lit_with matches].
  - done.
  - split.
    + intros (m1 & m2 & -> & (c & -> & Hc) & H2). apply IH in H2 as ->.
      apply N.eqb_eq in Hc as ->. done.
    + intros ->. exists [N_of_ascii a], (lit s). split; [done|]. split.
      * exists (N_of_ascii a). split; [done|]. apply N.eqb_refl.
      * apply IH. done.
Qed.

Lemma matches_Chr a pre m suf :
  matches (Chr (is_chr a)) pre m suf ↔ m = [N_of_ascii a].
Proof.
  cbn [matches]. split.
  - intros (c & -> & Hc). apply N.eqb_eq in Hc as ->. done.
  - intros ->. eexists. split; [done|]. apply N.eqb_refl.
Qed.

Lemma matches_Opt a pre m suf :
  matches (Opt (is_chr a)) pre m suf ↔ m = [] ∨ m = [N_of_ascii a].
Proof.
  cbn [matches]. split.
  - intros [->|(c & -> & Hc)]; [by left|]. apply N.eqb_eq in Hc as ->. by right.
  - intros [->| ->]; [by left|]. right. eexists. split; [done|]. apply N.eqb_refl.
Qed.

Lemma matches_Seq a b pre m suf :
  matches (Seq a b) pre m suf ↔
  ∃ m1 m2, m = m1 ++ m2 ∧ matches a pre m1 (m2 ++ suf)
           ∧ matches b (rev m1 ++ pre) m2 suf.
Proof. done. Qed.

Lemma matches_Eos_Eps pre m suf :
  matches (Seq Eos Eps) pre m suf ↔ m = [] ∧ suf = [].
Proof.
  cbn [matches]. split.
  - intros (m1 & m2 & -> & [-> H] & ->). done.
  - intros [-> ->]. exists [], []. done.
Qed.

(** [\.Xsx?$] for a letter [X]. *)
Lemma matches_ext X pre m suf :
  matches (Seq (Chr (is_chr ".")) (Seq (Lit (String X "s"))
             (Seq (Opt (is_chr "x")) (Seq Eos Eps)))) pre m suf
  ↔ (m = lit (String "." (String X "s"))
     ∨ m = lit (String "." (String X "sx"))) ∧ suf = [].
Proof.
  rewrite matches_Seq. setoid_rewrite matches_Chr.
  setoid_rewrite matches_Seq. setoid_rewrite matches_Lit.
  setoid_rewrite matches_Seq. setoid_rewrite matches_Opt.
  setoid_rewrite matches_Eos_Eps. split.
  - intros (m1 & m2 & -> & -> & m3 & m4 & -> & -> & m5 & m6 & -> & H & -> & ->).
    split; [|done]. destruct H as [-> | ->]; [by left|by right].
  - intros [[-> | ->] ->].
    + exists (lit "."), (lit (String X "s")). split; [done|]. split; [done|].
      exists (lit (String X "s")), []. split; [done|]. split; [done|].
      exists [], []. split; [done|]. split; [by left|done].
    + exists (lit "."), (lit (String X "sx")). split; [done|]. split; [done|].
      exists (lit (String X "s")), (lit "x"). split; [done|]. split; [done|].
      exists (lit "x"), []. split; [done|]. split; [by right|done].
Qed.

Lemma matches_ts_ext pre m suf :
  matches re_ts_ext pre m suf ↔ (m = lit ".ts" ∨ m = lit ".tsx") ∧ suf = [].
Proof. apply (matches_ext "t"). Qed.

Lemma matches_Lit_with f s : ∀ pre m suf,
  matches (Lit_with f s) pre m suf
  ↔ length m = String.length s ∧ match_chars f s m = true.
Proof.
  induction s as [|x s IH]; intros pre m suf; cbn [Lit_with matches].
  - split; [intros ->; done|]. intros [H _]. by destruct m.
  - split.
    + intros (m1 & m2 & -> & (c & -> & Hc) & H2). apply IH in H2 as [Hl Hm].
      cbn [app length match_chars String.length]. rewrite Hc, Hl, Hm. done.
    + destruct m as [|c m]; [intros [[=] _]|].
      cbn [length match_chars String.length]. intros [Hl [Hc Hm]%andb_true_iff].
      exists [c], m. split; [done|]. split; [eauto|]. apply IH. split; [lia|done].
Qed.

Lemma matches_LitI s pre m suf : matches (LitI s) pre m suf ↔ same_ci s m.
Proof. apply matches_Lit_with. Qed.

Lemma includes_occurs pat s : includes s pat = true ↔ occurs pat s.
Proof.
  rewrite includes_spec. unfold occurs, occurs_at. split.
  - intros (j & a & b & -> & _). eauto.
  - intros (a & b & ->). exists (length a), a, b. done.
Qed.

(** [/\.tsx?$/] matches the paths that end with [.ts] or [.tsx]. *)
Lemma regex_test_ts_ext p :
  regex_test re_ts_ext p = true
  ↔ lit ".ts" `suffix_of` p ∨ lit ".tsx" `suffix_of` p.
Proof.
  rewrite regex_test_matches. unfold matches_somewhere.
  setoid_rewrite matches_ts_ext. split.
  - intros (a & m & b & -> & [-> | ->] & ->); rewrite app_nil_r;
      [left|right]; by exists a.
  - intros [[a ->]|[a ->]].
    + exists a, (lit ".ts"), []. rewrite app_nil_r. split; [done|].
      split; [by left|done].
    + exists a, (lit ".tsx"), []. rewrite app_nil_r. split; [done|].
      split; [by right|done].
Qed.

(** [/export default function/i] *)
Lemma regex_test_export_default_function code :
  regex_test re_export_default_function code = true
  ↔ ∃ a m b, code = a ++ m ++ b ∧ same_ci "export default function" m.
Proof.
  rewrite regex_test_matches. unfold matches_somewhere, re_export_default_function.
  by setoid_rewrite matches_LitI.
Qed.


(** * The claims *)

(** ** [wrapJSXReturn] *)

Lemma return_jsx_split_span code before inside after :
  return_jsx_split code before inside after →
  return_jsx_span code = Some (length before, length before + length inside)
  ∧ take (length before) code = before
  ∧ slice code (length before) (length before + length inside) = inside
  ∧ drop (length before + length inside) code = after.
Proof.
  intros Hs. destruct (return_jsx_split_code _ _ _ _ Hs) as (Hcode & _ & _).
  split; [apply return_jsx_span_iff; by exists before, inside, after|].
  rewrite Hcode. split; [by rewrite take_app_length|]. split.
  - unfold slice. rewrite drop_app_length.
    replace (length before + length inside - length before) with (length inside) by lia.
    by rewrite take_app_length.
  - rewrite app_assoc, <- length_app. by rewrite drop_app_length.
Qed.

(** The first case in which the code is returned unchanged: no
    [return (<x] anywhere. *)
Lemma wrapJSXReturn_no_match code P :
  (∀ j, ¬ return_jsx_at code j) → wrapJSXReturn code P = code.
Proof.
  intros H. rewrite wrapJSXReturn_unfold.
  destruct (return_jsx_span code) as [[s e]|] eqn:E; [|done].
  apply return_jsx_span_iff in E as (b & i & a & Hs & _).
  destruct Hs as (pre & Z & c & rest & n & Hcode & HZ & Hc & _).
  destruct (H (length pre)). by exists pre, Z, c, rest.
Qed.

(** The second case: after the first [return (<] no closing parenthesis is
    left unmatched. *)
Lemma wrapJSXReturn_no_close code P pre Z c rest :
  code = pre ++ Z ++ lt_chr :: c :: rest →
  return_paren_ws_text Z → not_gt c = true →
  (∀ j, return_jsx_at code j → length pre ≤ j) →
  (∀ n, ¬ closes_at 0 (c :: rest) n) →
  wrapJSXReturn code P = code.
Proof.
  intros Hcode HZ Hc Hfirst Hnone. rewrite wrapJSXReturn_unfold.
  destruct (return_jsx_span code) as [[s e]|] eqn:E; [|done].
  apply return_jsx_span_iff in E as (b & i & a & Hs & _).
  destruct Hs as (pre' & Z' & c' & rest' & n & Hcode' & HZ' & Hc' & Hfirst' & Hun & _).
  assert (Hlen : length pre = length pre').
  { apply Nat.le_antisymm.
    - apply Hfirst. by exists pre', Z', c', rest'.
    - apply Hfirst'. by exists pre, Z, c, rest. }
  rewrite Hcode in Hcode'. apply app_inj_1 in Hcode' as [<- Heq]; [|done].
  apply split_at_first_lt in Heq as [<- [= <- <-]];
    [|by apply return_paren_ws_text_lt_free..].
  destruct Hun as [Hun _]. destruct (Hnone _ Hun).
Qed.

(** Otherwise the code is cut in three and the middle piece is wrapped. *)
Lemma wrapJSXReturn_split code before inside after P :
  return_jsx_split code before inside after →
  wrapJSXReturn code P
  = before ++ open_tag P ++ inside ++ close_tag P ++ after.
Proof.
  intros Hs. destruct (return_jsx_split_span _ _ _ _ Hs) as (Hspan & Ht & Hi & Hd).
  rewrite wrapJSXReturn_unfold, Hspan, Ht, Hi, Hd, <- !app_assoc. done.
Qed.

(** C1. The text that [wrapJSXReturn] wraps does not start at the [<] of
    the first [return (<x]: [before] ends with that [<] (the source computes
    [start] as the index of the last character of the match, one past the
    [<], under the comment "position at '<'"). So the opening tag lands
    between the [<] and the rest of the JSX, and the result is never the
    code with the text from the [<] up to the closing parenthesis wrapped. *)
Theorem wrapJSXReturn_off_by_one code before inside after :
  return_jsx_split code before inside after →
  ∃ before',
    before = before' ++ [lt_chr]
    ∧ code = before' ++ lt_chr :: inside ++ after
    ∧ (∃ after', after = N_of_ascii ")" :: after')
    ∧ wrapJSXReturn code providerName
      = before' ++ lt_chr :: open_tag providerName ++ inside
          ++ close_tag providerName ++ after
    ∧ wrapJSXReturn code providerName
      ≠ before' ++ open_tag providerName ++ lt_chr :: inside
          ++ close_tag providerName ++ after.
Proof.
  intros Hs.
  destruct (return_jsx_split_code _ _ _ _ Hs) as (Hcode & [before' ->] & Hafter).
  exists before'. split; [done|]. split; [by rewrite Hcode, <- app_assoc|].
  split; [done|].
  rewrite (wrapJSXReturn_split _ _ _ _ providerName Hs), <- !app_assoc.
  split; [done|].
  intros H. apply app_inv_head in H.
  change (open_tag providerName)
    with (lt_chr :: N_of_ascii "N" :: lit "otificationsProvider" ++ lit ">") in H.
  discriminate H.
Qed.

(** A way to exhibit the pieces of a concrete code: when the text up to
    the closing parenthesis has no parenthesis at all. *)
Lemma return_jsx_split_intro code Z c rest n :
  code = Z ++ lt_chr :: c :: rest →
  return_paren_ws_text Z → not_gt c = true →
  no_parens (take n (c :: rest)) →
  (c :: rest) !! n = Some (N_of_ascii ")") →
  return_jsx_split code (Z ++ [lt_chr]) (take n (c :: rest)) (drop n (c :: rest)).
Proof.
  intros Hcode HZ Hc Hnp Hn. exists [], Z, c, rest, n.
  split; [done|]. split; [done|]. split; [done|].
  split; [intros j _; simpl; lia|]. split; [|done].
  assert (Hcount : ∀ k, k ≤ n → opens (take k (c :: rest)) = 0
                               ∧ closes (take k (c :: rest)) = 0).
  { intros k Hk. unfold no_parens in Hnp. rewrite forallb_forall in Hnp.
    unfold opens, closes.
    split; apply length_zero_iff_nil;
      (destruct (List.filter _ _) as [|x l] eqn:E; [done|]);
      assert (Hx : In x (List.filter _ (take k (c :: rest))))
        by (rewrite E; by left);
      apply filter_In in Hx as [Hx Hp];
      apply list_elem_of_In, elem_of_take in Hx as (i & Hi & Hik);
      assert (Hin : In x (take n (c :: rest)))
        by (apply list_elem_of_In, elem_of_take; exists i; split; [done|lia]);
      apply Hnp in Hin; rewrite Hp in Hin; simpl in Hin;
      rewrite ?andb_false_r in Hin; done. }
  split.
  - split; [done|]. destruct (Hcount n (le_n _)) as [-> ->]. done.
  - intros m Hm [Hlook _].
    unfold no_parens in Hnp. rewrite forallb_forall in Hnp.
    assert (Hin : In (N_of_ascii ")") (take n (c :: rest))).
    { apply list_elem_of_In, elem_of_take. exists m. done. }
    apply Hnp in Hin. done.
Qed.

Lemma wrapJSXReturn_off_by_one_witness :
  ∃ before',
    lit "return (<" = before' ++ [lt_chr]
    ∧ lit "return (<div/>)" = before' ++ lt_chr :: lit "div/>" ++ lit ")"
    ∧ (∃ after', lit ")" = N_of_ascii ")" :: after')
    ∧ wrapJSXReturn (lit "return (<div/>)") providerName
      = before' ++ lt_chr :: open_tag providerName ++ lit "div/>"
          ++ close_tag providerName ++ lit ")"
    ∧ wrapJSXReturn (lit "return (<div/>)") providerName
      ≠ before' ++ open_tag providerName ++ lt_chr :: lit "div/>"
          ++ close_tag providerName ++ lit ")".
Proof.
  apply (wrapJSXReturn_off_by_one (lit "return (<div/>)")
           (lit "return (<") (lit "div/>") (lit ")")).
  apply (return_jsx_split_intro _ (lit "return (") (N_of_ascii "d")
           (lit "iv/>)") 5); try (vm_compute; reflexivity).
  exists [N_of_ascii " "], []. repeat split; vm_compute; reflexivity.
Defined.

(** The failing input of C1, evaluated. *)
Example wrapJSXReturn_div :
  wrapJSXReturn (lit "return (<div/>)") providerName
  = lit "return (<<NotificationsProvider>div/></NotificationsProvider>)".
Proof. vm_compute. reflexivity. Qed.




Lemma jsstring_eqb_true a b : jsstring_eqb a b = true ↔ a = b.
Proof. unfold jsstring_eqb. apply bool_decide_eq_true. Qed.


(** Lines 97-161 on a readable root file: what is written and what is
    logged. *)
Lemma patch_root_spec stk rootPath providerFile fs log0 c :
  fs !! rootPath = Some (File c) →
  let code := import_step (importLine_of rootPath providerFile) c in
  let once := wrapJSXReturn code providerName in
  patch_root stk rootPath providerFile (State fs log0)
  = Return ()
      (State
         (<[rootPath :=
              File (if jsstring_eqb once code then fallback_wrap stk code
                    else once)]> fs)
         (log0 ++ [import_event (importLine_of rootPath providerFile) c]
            ++ (if jsstring_eqb once code then [WARN_fallback] else [])
            ++ [LOG_updated rootPath])).
Proof.
  intros Hc code once. subst code once. unfold import_step, import_event.
  unfold patch_root, bind at 1, readFileSync. cbn [st_fs]. rewrite Hc.
  destruct (import_missing _ c);
    unfold bind at 1; unfold bind at 1; unfold log, ret;
    cbn [st_fs st_log];
    (destruct (jsstring_eqb _ _) eqn:E;
     [apply jsstring_eqb_true in E; rewrite E|]);
    unfold bind, log, ret, writeFileSync; cbn [st_fs st_log]; rewrite Hc;
    cbn [st_fs st_log]; rewrite <- ?app_assoc; reflexivity.
Qed.





(** C9. In the generic fallback (the condition of the Next.js strategy
    fails), on a code with a [return (] but without [");"], the result is
    the code with [<NotificationsProvider>] inserted after the first
    [return (] and the white space that follows it, and nothing else: no
    closing tag is added. The written text holds the opening tag, and it
    holds no closing tag provided the code held none. *)
Theorem generic_fallback_unbalanced stk code :
  ¬ (stk = Next
     ∧ (∃ a m b, code = a ++ m ++ b ∧ same_ci "export default function" m)
     ∧ occurs (lit "{ children }") code) →
  (∃ i, return_paren_at code i) →
  ¬ occurs (lit ");") code →
  ∃ pre t rest,
    code = pre ++ t ++ rest
    ∧ return_paren_ws_text t
    ∧ (∀ ch r, rest = ch :: r → is_space ch = false)
    ∧ return_paren_at code (length pre)
    ∧ (∀ j, return_paren_at code j → length pre ≤ j)
    ∧ fallback_wrap stk code
      = pre ++ t ++ lit "<NotificationsProvider>" ++ rest
    ∧ occurs (lit "<NotificationsProvider>") (fallback_wrap stk code)
    ∧ (¬ occurs (lit "</NotificationsProvider>") code →
       ¬ occurs (lit "</NotificationsProvider>") (fallback_wrap stk code)).
Proof.
  intros Hgen Hret Hsemi.
  assert (Hn : is_next_layout stk code = false).
  { apply not_true_iff_false. unfold is_next_layout.
    rewrite !andb_true_iff. intros [[Hs He] Hc]. apply Hgen.
    split; [by destruct stk|].
    split; [by apply regex_test_export_default_function|by apply includes_occurs]. }
  apply regex_test_return_paren in Hret as Ht.
  assert (Hinc : includes code (lit ");") = false).
  { apply not_true_iff_false. by rewrite includes_occurs. }
  unfold fallback_wrap. rewrite Hn, Ht.
  destruct (wrap_generic_spec _ Ht)
    as (pre & t & rest & Hcode & Htext & Hmax & Hat & Hfirst & Hopen).
  cbv zeta in Hopen. destruct Hopen as [Hnone _].
  exists pre, t, rest. do 5 (split; [done|]).
  rewrite Hnone by (by apply includes_false).
  change (open_tag providerName) with (lit "<NotificationsProvider>").
  assert (Hres : insert_at (length pre + length t)
                   (lit "<NotificationsProvider>") code
                 = pre ++ t ++ lit "<NotificationsProvider>" ++ rest).
  { rewrite Hcode, (app_assoc pre t rest), <- length_app, insert_at_app.
    rewrite <- !app_assoc. done. }
  split; [done|]. split.
  - rewrite Hres. exists (pre ++ t), rest. by rewrite <- !app_assoc.
  - intros Hno. rewrite <- includes_occurs. apply not_true_iff_false.
    apply (close_tag_after_open_insert (length pre + length t) code).
    + rewrite Hcode, !length_app. lia.
    + apply not_true_iff_false. by rewrite includes_occurs.
Qed.

Lemma generic_fallback_unbalanced_witness :
  let code := lit "const f = () => { return (x) }" in
  ∃ pre t rest,
    code = pre ++ t ++ rest
    ∧ return_paren_ws_text t
    ∧ (∀ ch r, rest = ch :: r → is_space ch = false)
    ∧ return_paren_at code (length pre)
    ∧ (∀ j, return_paren_at code j → length pre ≤ j)
    ∧ fallback_wrap React code
      = pre ++ t ++ lit "<NotificationsProvider>" ++ rest
    ∧ occurs (lit "<NotificationsProvider>") (fallback_wrap React code)
    ∧ (¬ occurs (lit "</NotificationsProvider>") code →
       ¬ occurs (lit "</NotificationsProvider>") (fallback_wrap React code)).
Proof.
  apply (generic_fallback_unbalanced React
           (lit "const f = () => { return (x) }")).
  - intros [H _]. discriminate H.
  - exists 18, (lit "const f = () => { "), (lit " "), (lit "x) }").
    repeat split; reflexivity.
  - intros H%includes_occurs. vm_compute in H. discriminate H.
Defined.

(** The written file of that example. *)
Example generic_fallback_no_closing_tag :
  fallback_wrap React (lit "const f = () => { return (x) }")
  = lit "const f = () => { return (<NotificationsProvider>x) }".
Proof. vm_compute. reflexivity. Qed.

(** C9 as stated fails: a code that already holds a closing tag gets the
    opening tag only, and the written text is balanced. *)
Lemma generic_fallback_balanced_by_existing_tag :
  let code := lit "return (x</NotificationsProvider>)" in
  wrapJSXReturn code providerName = code
  ∧ is_next_layout React code = false
  ∧ regex_test re_return_paren code = true
  ∧ includes code (lit ");") = false
  ∧ fallback_wrap React code
    = lit "return (<NotificationsProvider>x</NotificationsProvider>)".
Proof. vm_compute. repeat split; reflexivity. Qed.

(** ** The import step *)

Lemma insert_import_includes importLine code :
  includes (insert_import importLine code) importLine = true.
Proof.
  apply includes_spec. unfold insert_import.
  destruct (regex_match_all re_import_line code) as [importBlock|].
  - cbv zeta. set (idx := match lastIndexOf code _ with Some i => _ | None => _ end).
    exists (length (slice code 0 idx ++ nl)),
      (slice code 0 idx ++ nl), (nl ++ slice_from code idx).
    split; [|reflexivity]. rewrite <- !app_assoc. reflexivity.
  - exists 0, [], (nl ++ code). split; reflexivity.
Qed.

(** The part of C4 that holds: when the guard finds the import, the step
    changes nothing, so that a second run of the step inserts nothing. *)
Lemma import_step_idempotent importLine code :
  import_step importLine (import_step importLine code)
  = import_step importLine code.
Proof.
  unfold import_step at 2.
  destruct (import_missing importLine code) eqn:E.
  - unfold import_step. rewrite E. unfold import_missing.
    rewrite insert_import_includes. reflexivity.
  - unfold import_step. rewrite E. reflexivity.
Qed.

Lemma import_step_prepend importLine code :
  import_missing importLine code = true →
  regex_match_all re_import_line code = None →
  import_step importLine code = importLine ++ nl ++ code.
Proof.
  intros H1 H2. unfold import_step, insert_import. rewrite H1, H2. reflexivity.
Qed.

(** C4. The import line is not always inserted after the last line that
    matches the import pattern: the insertion point is found by searching
    the text of that line from the end of the file, so when the text of the
    only import line occurs again further down, the import line is
    inserted there, in the middle of a later line. *)
Theorem import_step_misplaced :
  let importLine := importLine_of (lit "index.jsx") (providerFile_of false) in
  let line1 := lit "import App from './App'" in
  let code := line1 ++ nl ++ lit "// see import App from './App' above" ++ nl in
  import_missing importLine code = true
  ∧ regex_match_all re_import_line code = Some [line1]
  ∧ regex_match re_import_line code = Some (JsMatch 0 line1 [[]])
  ∧ import_step importLine code
    = line1 ++ nl ++ lit "// see import App from './App'" ++ nl
        ++ importLine ++ nl ++ lit " above" ++ nl
  ∧ import_step importLine code
    ≠ insert_at (length line1) (nl ++ importLine ++ nl) code.
Proof. vm_compute. repeat split; try reflexivity. discriminate. Qed.

(** Where the import line goes in general: after the last occurrence of
    the text of the last match. *)
Lemma insert_import_spec importLine code importBlock k :
  regex_match_all re_import_line code = Some importBlock →
  last_occurrence (List.last importBlock []) code k →
  insert_import importLine code
  = insert_at (k + length (List.last importBlock []))
      (nl ++ importLine ++ nl) code.
Proof.
  intros Hb Hk. unfold insert_import. rewrite Hb. cbv zeta.
  apply lastIndexOf_Some in Hk. rewrite Hk.
  unfold slice, slice_from, insert_at. rewrite Nat.sub_0_r, drop_0, <- !app_assoc.
  reflexivity.
Qed.

(** When no line matches the import pattern, the import line is
    prepended. *)
Lemma import_step_no_import_line importLine code :
  import_missing importLine code = true →
  (∀ j t, ¬ import_line_at code j t) →
  import_step importLine code = importLine ++ nl ++ code.
Proof.
  intros Hmiss Hnone. apply import_step_prepend; [done|].
  rewrite regex_match_all_import_line, matches_from_nil; [done|].
  intros k Hk. destruct (match_from re_import_line [] code k) as [mo|] eqn:Hm; [|done].
  destruct (Hnone k (m_text mo)). apply import_line_at_match. eauto.
Qed.

(** When the text of the last line that matches the import pattern does
    not occur again further down, the import line is inserted, on a line
    of its own, right after that line. *)
Lemma import_step_after_last_line importLine code p t :
  import_missing importLine code = true →
  import_line_at code p t →
  (∀ j t', import_line_at code j t' → j ≤ p) →
  (∀ j, occurs_at t code j → j ≤ p) →
  import_step importLine code
  = insert_at (p + length t) (nl ++ importLine ++ nl) code.
Proof.
  intros Hmiss Hat Hlast Hrecur.
  apply import_line_at_match in Hat as (Hp & mo & Hm & <-).
  destruct (matches_from_last re_import_line code [] p mo Hp Hm) as [l Hl].
  { intros k Hk Hle.
    destruct (match_from re_import_line [] code k) as [mo'|] eqn:Hm'; [|done].
    assert (k ≤ p); [|lia].
    apply (Hlast k (m_text mo')), import_line_at_match. eauto. }
  unfold import_step. rewrite Hmiss.
  assert (Hall : regex_match_all re_import_line code = Some (l ++ [m_text mo])).
  { rewrite regex_match_all_import_line, Hl. by destruct l. }
  rewrite (insert_import_spec _ _ _ p Hall); rewrite last_snoc; [done|].
  split; [|done].
  unfold match_from in Hm. rewrite app_nil_r in Hm.
  apply match_at_Some in Hm as (_ & rest & Hrest).
  exists (take p code), rest. split.
  - rewrite <- Hrest, take_drop. done.
  - rewrite length_take. lia.
Qed.

(** ** The pipeline *)

(** The keys that a spread copies. *)
Lemma own_props_dom v (key : jsstring) :
  key ∈ dom (own_props v) ↔ spread_key v key.
Proof.
  destruct v as [| | |s|elems|props]; cbn [own_props spread_key];
    try (rewrite dom_empty, elem_of_empty; done).
  - rewrite dom_list_to_map, elem_of_list_to_set, list_elem_of_fmap. split.
    + intros ([k x] & -> & Hin). apply elem_of_lookup_imap_1 in Hin
        as (i & c & [= -> ->] & Hi). exists i. split; [|done].
      by eapply lookup_lt_Some.
    + intros (i & Hi & ->). apply lookup_lt_is_Some in Hi as [c Hc].
      exists (decimal i, JStr [c]). split; [done|].
      by apply (elem_of_lookup_imap_2 (λ i c, (decimal i, JStr [c])) s c i).
  - rewrite dom_list_to_map, elem_of_list_to_set, list_elem_of_fmap. split.
    + intros ([k x] & -> & Hin). apply elem_of_lookup_imap_1 in Hin
        as (i & c & [= -> ->] & Hi). exists i. split; [|done].
      by eapply lookup_lt_Some.
    + intros (i & Hi & ->). apply lookup_lt_is_Some in Hi as [c Hc].
      exists (decimal i, c). split; [done|].
      by apply (elem_of_lookup_imap_2 (λ i x, (decimal i, x)) elems c i).
  - apply elem_of_dom.
Qed.

Lemma or_empty_Null : or_empty (Some JNull) = JObj ∅.
Proof. reflexivity. Qed.

Lemma or_empty_object v top :
  or_empty (Some v) = JObj top → v = JObj top ∨ (truthy v = false ∧ top = ∅).
Proof.
  cbn [or_empty]. destruct (truthy v); [by left|].
  intros H. right. split; [done|]. congruence.
Qed.

(** The keys that [...(pkg.field || {})] copies. *)
Lemma spread_or_empty_dom pkg field (key : jsstring) :
  key ∈ dom (own_props (or_empty (get_prop pkg field)))
  ↔ ∃ top v, pkg = JObj top ∧ top !! field = Some v ∧ spread_key v key.
Proof.
  rewrite own_props_dom. split.
  - destruct pkg as [| | | | |top]; cbn [get_prop or_empty spread_key];
      try (by intros [? H%lookup_empty_Some]).
    destruct (top !! field) as [v|] eqn:Hv; cbn [or_empty];
      [|by intros [? H%lookup_empty_Some]].
    destruct (truthy v); [|by intros [? H%lookup_empty_Some]].
    intros H. exists top, v. done.
  - intros (top & v & -> & Hv & Hkey). cbn [get_prop]. rewrite Hv.
    cbn [or_empty]. destruct (truthy v) eqn:Ht; [done|].
    destruct v as [|b|nz|s| |]; try done.
    cbn [truthy] in Ht. apply negb_false_iff, bool_decide_eq_true in Ht.
    subst s. destruct Hkey as (i & Hi & _). cbn [length] in Hi. lia.
Qed.

Section DetectorClaims.

Variable JSON_parse : jsstring → option json.

Lemma marker_present_bool fs :
  bool_decide (is_Some (fs !! lit "app.json"))
  || bool_decide (is_Some (fs !! lit "expo.json"))
  || bool_decide (is_Some (fs !! lit "expo.config.js")) = true
  ↔ marker_present fs.
Proof.
  rewrite !orb_true_iff, !bool_decide_eq_true. unfold marker_present, marker_files.
  split.
  - intros [[H|H]|H]; eexists; (split; [|exact H]); set_solver.
  - intros (p & Hp & H). rewrite !elem_of_cons in Hp.
    destruct Hp as [->|[->|[->|Hp]]]; [tauto..|inversion Hp].
Qed.

(** The keys of the merged dependencies are the keys that the manifest
    lists. *)
Lemma merged_deps_manifest_lists fs (key : jsstring) :
  key ∈ dom (merged_deps (manifest JSON_parse fs))
  ↔ manifest_lists JSON_parse fs key.
Proof.
  rewrite merged_deps_dom, !spread_or_empty_dom.
  unfold manifest, manifest_lists, lists_dependency, parsed_or_null. split.
  - intros H.
    assert (∃ top field v,
              or_empty (Some match fs !! lit "package.json" with
                             | Some (File txt) =>
                                 match JSON_parse txt with
                                 | Some v => v
                                 | None => JNull
                                 end
                             | _ => JNull
                             end) = JObj top
              ∧ (field = lit "dependencies" ∨ field = lit "devDependencies")
              ∧ top !! field = Some v ∧ spread_key v key)
      as (top & field & v & Hpkg & Hfield & Hv & Hkey).
    { destruct H as [(top & v & Hpkg & Hv & Hkey)|(top & v & Hpkg & Hv & Hkey)];
        [exists top, (lit "dependencies"), v
        |exists top, (lit "devDependencies"), v]; auto. }
    destruct (fs !! lit "package.json") as [[txt|]|];
      [|rewrite or_empty_Null in Hpkg; assert (top = ∅) by congruence;
        subst top; by rewrite lookup_empty in Hv..].
    destruct (JSON_parse txt) as [pkg|] eqn:Hparse;
      [|rewrite or_empty_Null in Hpkg; assert (top = ∅) by congruence;
        subst top; by rewrite lookup_empty in Hv].
    exists txt, pkg. split; [done|]. split; [done|].
    apply or_empty_object in Hpkg as [->|[_ ->]];
      [|by rewrite lookup_empty in Hv].
    exists top, field, v. done.
  - intros (txt & pkg & -> & -> & top & field & v & -> & Hfield & Hv & Hkey).
    destruct Hfield as [-> | ->]; [left|right]; exists top, v; done.
Qed.

(** C5. Stack detection returns, without touching the state, one of the
    three variants: [next] iff the manifest lists ["next"] under
    [dependencies] or [devDependencies]; otherwise [react-native] iff
    the manifest lists ["react-native"] or a marker file exists;
    otherwise [react]. What the manifest lists are the keys of the merged
    dependencies. *)
Theorem stack_detection fs log0 :
  ∃ stk,
    detect_stack JSON_parse (State fs log0) = Return stk (State fs log0)
    ∧ (stk = Next ↔ manifest_lists JSON_parse fs (lit "next"))
    ∧ (stk = ReactNative ↔
         ¬ manifest_lists JSON_parse fs (lit "next")
         ∧ (manifest_lists JSON_parse fs (lit "react-native")
            ∨ marker_present fs))
    ∧ (stk = React ↔
         ¬ manifest_lists JSON_parse fs (lit "next")
         ∧ ¬ (manifest_lists JSON_parse fs (lit "react-native")
              ∨ marker_present fs))
    ∧ (∀ key : jsstring,
         key ∈ dom (merged_deps (manifest JSON_parse fs))
         ↔ manifest_lists JSON_parse fs key).
Proof.
  eexists. split; [apply detect_stack_spec|]. cbn [st_fs]. cbv zeta.
  rewrite <- !merged_deps_manifest_lists.
  set (deps := merged_deps (manifest JSON_parse fs)).
  rewrite <- !has_key_dom, <- marker_present_bool.
  split; [|split; [|split]].
  - unfold stack_of. destruct (has_key (lit "next") deps); [done|].
    destruct (_ || _); split; done.
  - unfold stack_of. destruct (has_key (lit "next") deps).
    + split; [done|]. intros [H _]. done.
    + rewrite <- !orb_assoc.
      destruct (has_key (lit "react-native") deps); simpl.
      * split; [|done]. intros _. split; [done|]. by left.
      * destruct (_ || _); split; try done.
        -- intros _. split; [done|]. by right.
        -- intros [_ [H|H]]; done.
  - unfold stack_of. destruct (has_key (lit "next") deps).
    + split; [done|]. intros [H _]. done.
    + rewrite <- !orb_assoc.
      destruct (has_key (lit "react-native") deps); simpl.
      * split; [done|]. intros [_ H]. destruct H. by left.
      * destruct (_ || _); split; try done.
        -- intros [_ H]. destruct H. by right.
        -- intros _. split; [done|]. intros [H|H]; done.
  - intros key. apply merged_deps_manifest_lists.
Qed.

End DetectorClaims.

(** For instance: a manifest with [next] among its [devDependencies] and
    [react-native] among its [dependencies] is a Next.js project; with
    [react-native] alone, or with an [app.json] next to a manifest that
    lists neither, a React Native project; a project without manifest and
    without marker file is a React project. *)
Example stack_detection_examples :
  let manifest_file : gmap jsstring node :=
    {[ lit "package.json" := File (lit "{}") ]} in
  let rn := JObj {[ lit "react-native" := JStr (lit "0.74.0") ]} in
  let next := JObj {[ lit "next" := JStr (lit "14.2.0") ]} in
  detect_stack
    (parses_as (JObj {[ lit "dependencies" := rn; lit "devDependencies" := next ]}))
    (State manifest_file [])
  = Return Next (State manifest_file [])
  ∧ detect_stack (parses_as (JObj {[ lit "dependencies" := rn ]}))
      (State manifest_file [])
    = Return ReactNative (State manifest_file [])
  ∧ detect_stack (parses_as (JObj ∅))
      (State (<[lit "app.json" := File []]> manifest_file) [])
    = Return ReactNative (State (<[lit "app.json" := File []]> manifest_file) [])
  ∧ detect_stack no_json (State ∅ []) = Return React (State ∅ []).
Proof. vm_compute. repeat split; reflexivity. Qed.

(** C6. The root file is the first candidate, in the order of the list,
    that exists; the list has 16 entries, from [app/layout.tsx] to
    [src/index.jsx]. *)
Theorem root_is_first_existing_candidate fs log0 :
  length candidates = 16
  ∧ head candidates = Some (lit "app/layout.tsx")
  ∧ last candidates = Some (lit "src/index.jsx")
  ∧ ∃ r,
      find_existing candidates (State fs log0) = Return r (State fs log0)
      ∧ (∀ p, r = Some p ↔
           ∃ i, candidates !! i = Some p ∧ is_Some (fs !! p)
                ∧ ∀ j q, j < i → candidates !! j = Some q → fs !! q = None)
      ∧ (r = None ↔ ∀ p, p ∈ candidates → fs !! p = None)
      ∧ locate_root (State fs log0)
        = match r with
          | Some p => Return p (State fs (log0 ++ [LOG_root p]))
          | None => Exit 1 (State fs (log0 ++ [ERR_no_root]))
          end.
Proof.
  split; [done|]. split; [done|]. split; [done|].
  eexists. split; [apply find_existing_spec|]. cbn [st_fs].
  split; [|split].
  - intros p. rewrite find_first_spec. split.
    + intros (i & Hi & Hp%bool_decide_eq_true & Hno). exists i.
      split; [done|]. split; [done|]. intros j q Hj Hq.
      specialize (Hno j q Hj Hq). apply bool_decide_eq_false in Hno.
      by apply eq_None_not_Some.
    + intros (i & Hi & Hp & Hno). exists i. split; [done|].
      split; [by apply bool_decide_eq_true|]. intros j q Hj Hq.
      apply bool_decide_eq_false. rewrite (Hno j q Hj Hq). by intros [? ?].
  - rewrite find_none_spec. split.
    + intros H p Hp. specialize (H p Hp). apply bool_decide_eq_false in H.
      by apply eq_None_not_Some.
    + intros H p Hp. apply bool_decide_eq_false. rewrite (H p Hp). by intros [? ?].
  - unfold locate_root, bind. rewrite find_existing_spec. cbn [st_fs].
    destruct (List.find _ candidates); done.
Qed.

Lemma locate_root_spec s :
  locate_root s
  = match List.find (λ p, bool_decide (is_Some (st_fs s !! p))) candidates with
    | Some p => Return p (State (st_fs s) (st_log s ++ [LOG_root p]))
    | None => Exit 1 (State (st_fs s) (st_log s ++ [ERR_no_root]))
    end.
Proof.
  unfold locate_root, bind. rewrite find_existing_spec.
  destruct (List.find _ candidates); reflexivity.
Qed.

Lemma bind_Return {A B} (m : M A) (k : A → M B) s a s1 :
  m s = Return a s1 → bind m k s = k a s1.
Proof. unfold bind. intros ->. reflexivity. Qed.

Lemma bind_Exit {A B} (m : M A) (k : A → M B) s c s' :
  bind m k s = Exit c s' →
  m s = Exit c s' ∨ ∃ a s1, m s = Return a s1 ∧ k a s1 = Exit c s'.
Proof.
  unfold bind. destruct (m s) as [a s1|e s1|c1 s1]; [eauto|done|].
  intros [= <- <-]. by left.
Qed.

Lemma log_Return ev s :
  log ev s = Return () (State (st_fs s) (st_log s ++ [ev])).
Proof. reflexivity. Qed.

(** [mkdirSync] leaves the log and every other path alone, and does not
    exit. *)
Lemma mkdirSync_recursive_frame chain : ∀ s,
  st_log (final_state (mkdirSync_recursive chain s)) = st_log s
  ∧ (∀ q, q ∉ chain →
       st_fs (final_state (mkdirSync_recursive chain s)) !! q = st_fs s !! q)
  ∧ (∀ c s', mkdirSync_recursive chain s ≠ Exit c s').
Proof.
  induction chain as [|d chain IH]; intros s.
  - split; [done|]. split; [done|]. intros c s'. discriminate.
  - cbn [mkdirSync_recursive].
    destruct (st_fs s !! d) as [[data|]|] eqn:Hd.
    + destruct chain; (split; [done|]; split; [done|]);
        intros c s'; discriminate.
    + destruct (IH s) as (H1 & H2 & H3). split; [done|]. split; [|done].
      intros q [Hq1 Hq2]%not_elem_of_cons. auto.
    + destruct (IH (State (<[d:=Dir]> (st_fs s)) (st_log s))) as (H1 & H2 & H3).
      split; [done|]. split; [|done].
      intros q [Hq1 Hq2]%not_elem_of_cons. rewrite H2 by done.
      cbn [st_fs]. rewrite lookup_insert_ne; done.
Qed.

(** The directories are made unless a regular file stands in their
    place. *)
Lemma mkdirSync_recursive_target fs log0 :
  (∀ d, fs !! lit "src" ≠ Some (File d)) →
  (∀ d, fs !! targetDir ≠ Some (File d)) →
  mkdirSync_recursive [lit "src"; targetDir] (State fs log0)
  = Return () (State (<[targetDir := Dir]> (<[lit "src" := Dir]> fs)) log0).
Proof.
  intros Hsrc Htd. cbn [mkdirSync_recursive st_fs st_log].
  assert (Hne : lit "src" ≠ targetDir) by (vm_compute; discriminate).
  destruct (fs !! lit "src") as [[d|]|] eqn:E1.
  - destruct (Hsrc d eq_refl).
  - rewrite (insert_id fs (lit "src") Dir E1).
    destruct (fs !! targetDir) as [[d|]|] eqn:E2.
    + destruct (Htd d eq_refl).
    + by rewrite (insert_id fs targetDir Dir E2).
    + reflexivity.
  - rewrite lookup_insert_ne by done.
    destruct (fs !! targetDir) as [[d|]|] eqn:E2.
    + destruct (Htd d eq_refl).
    + rewrite (insert_id (<[lit "src":=Dir]> fs) targetDir Dir); [done|].
      by rewrite lookup_insert_ne.
    + reflexivity.
Qed.

Lemma providerFile_not_dir usesTS :
  providerFile_of usesTS ∉ [lit "src"; targetDir].
Proof.
  rewrite !not_elem_of_cons. destruct usesTS; vm_compute;
    (split; [discriminate|]); (split; [discriminate|]); apply not_elem_of_nil.
Qed.

Section PipelineClaims.

Variable JSON_parse : jsstring → option json.
Variable pkg_files : gmap jsstring jsstring.

(** Lines 71-94, once the directories are made. *)
Lemma emit_template_spec stk usesTS s s1 :
  mkdirSync_recursive [lit "src"; targetDir] s = Return () s1 →
  emit_template pkg_files stk usesTS s
  = let providerFile := providerFile_of usesTS in
    match st_fs s1 !! providerFile with
    | Some _ =>
        Return providerFile
          (State (st_fs s1) (st_log s1 ++ [WARN_provider_exists providerFile]))
    | None =>
        match pkg_files !! template_of stk with
        | Some data =>
            Return providerFile
              (State (<[providerFile := File data]> (st_fs s1))
                 (st_log s1 ++ [LOG_created providerFile]))
        | None => Throw (ENOENT (template_of stk)) s1
        end
    end.
Proof.
  intros Hmk. unfold emit_template. rewrite (bind_Return _ _ _ _ _ Hmk).
  cbv zeta. unfold bind at 1, existsSync.
  destruct (st_fs s1 !! providerFile_of usesTS) as [n|] eqn:Hpf.
  - rewrite bool_decide_eq_true_2 by eauto. reflexivity.
  - rewrite bool_decide_eq_false_2 by (by intros [? ?]).
    cbn [negb]. unfold bind at 1. unfold bind at 1.
    unfold template_of, readTemplate.
    destruct (stack_eqb stk ReactNative);
      (destruct (pkg_files !! _) as [data|]; [|reflexivity]);
      unfold ret, bind, writeFileSync; cbn [st_fs st_log]; rewrite Hpf;
      reflexivity.
Qed.

Lemma emit_template_Throw stk usesTS s e s1 :
  mkdirSync_recursive [lit "src"; targetDir] s = Throw e s1 →
  emit_template pkg_files stk usesTS s = Throw e s1.
Proof. intros Hmk. unfold emit_template, bind at 1. rewrite Hmk. reflexivity. Qed.

(** C8. The target path is
    [src/nim-react-toastify/NotificationsProvider.tsx] when the root file
    ends with [.ts] or [.tsx], and [NotificationsProvider.jsx] otherwise.
    A provider file (or anything else) that is already there is left as it
    is, however the step ends. When nothing is there, the step can only
    return after writing there the template of the stack
    ([templates/provider.rn.tsx] for [react-native],
    [templates/provider.web.tsx] otherwise), and it does so as soon as no
    regular file stands where the directories go and the template is
    installed; if it throws instead, still nothing is at the target
    path. *)
Theorem template_emitter stk rootPath fs log0 :
  let providerFile :=
    if decide (lit ".ts" `suffix_of` rootPath ∨ lit ".tsx" `suffix_of` rootPath)
    then lit "src/nim-react-toastify/NotificationsProvider.tsx"
    else lit "src/nim-react-toastify/NotificationsProvider.jsx" in
  let template :=
    match stk with
    | ReactNative => lit "templates/provider.rn.tsx"
    | Next | React => lit "templates/provider.web.tsx"
    end in
  let o := emit_template pkg_files stk (regex_test re_ts_ext rootPath)
             (State fs log0) in
  (∀ n, fs !! providerFile = Some n →
        st_fs (final_state o) !! providerFile = Some n)
  ∧ (fs !! providerFile = None →
       (∀ r s', o = Return r s' →
          r = providerFile
          ∧ ∃ data, pkg_files !! template = Some data
                    ∧ st_fs s' !! providerFile = Some (File data))
       ∧ (∀ e s', o = Throw e s' → st_fs s' !! providerFile = None)
       ∧ (∀ data,
            (∀ d, fs !! lit "src" ≠ Some (File d)) →
            (∀ d, fs !! lit "src/nim-react-toastify" ≠ Some (File d)) →
            pkg_files !! template = Some data →
            o = Return providerFile
                  (State (<[providerFile := File data]>
                            (<[lit "src/nim-react-toastify" := Dir]>
                               (<[lit "src" := Dir]> fs)))
                     (log0 ++ [LOG_created providerFile])))).
Proof.
  cbv zeta.
  assert (Hpf : (if decide (lit ".ts" `suffix_of` rootPath
                            ∨ lit ".tsx" `suffix_of` rootPath)
                 then lit "src/nim-react-toastify/NotificationsProvider.tsx"
                 else lit "src/nim-react-toastify/NotificationsProvider.jsx")
                = providerFile_of (regex_test re_ts_ext rootPath)).
  { destruct (decide _) as [H|H].
    - apply regex_test_ts_ext in H. rewrite H. reflexivity.
    - rewrite <- regex_test_ts_ext in H. apply not_true_is_false in H.
      rewrite H. reflexivity. }
  assert (Htpl : match stk with
                 | ReactNative => lit "templates/provider.rn.tsx"
                 | Next | React => lit "templates/provider.web.tsx"
                 end = template_of stk) by (by destruct stk).
  rewrite Hpf, Htpl. clear Hpf Htpl.
  generalize (regex_test re_ts_ext rootPath). intros usesTS.
  set (pf := providerFile_of usesTS).
  destruct (mkdirSync_recursive_frame [lit "src"; targetDir] (State fs log0))
    as (Hlog & Hframe & Hnoexit).
  specialize (Hframe pf (providerFile_not_dir usesTS)).
  cbn [st_fs st_log] in Hlog, Hframe.
  destruct (mkdirSync_recursive [lit "src"; targetDir] (State fs log0))
    as [[] s1|e s1|c s1] eqn:Hmk.
  - pose proof (emit_template_spec stk usesTS _ _ Hmk) as Ho.
    cbv zeta in Ho. fold pf in Ho. cbn [final_state] in Hlog, Hframe.
    rewrite Ho, Hframe. split.
    + intros n Hn. rewrite Hn. cbn [final_state st_fs]. by rewrite Hframe.
    + intros Hnone. rewrite Hnone. split; [|split].
      * intros r s'.
        destruct (pkg_files !! template_of stk) as [data|]; [|discriminate].
        intros [= <- <-]. split; [done|]. exists data. split; [done|].
        cbn [st_fs]. apply lookup_insert_eq.
      * intros e s'.
        destruct (pkg_files !! template_of stk) as [data|]; [discriminate|].
        intros [= <- <-]. by rewrite Hframe.
      * intros data Hsrc Htd Hdata. rewrite Hdata.
        rewrite (mkdirSync_recursive_target fs log0 Hsrc Htd) in Hmk.
        injection Hmk as <-. cbn [st_fs st_log]. reflexivity.
  - pose proof (emit_template_Throw stk usesTS _ _ _ Hmk) as Ho.
    cbn [final_state] in Hframe. rewrite Ho. split.
    + intros n Hn. cbn [final_state]. by rewrite Hframe.
    + intros Hnone. split; [|split].
      * intros r s'. discriminate.
      * intros e' s' [= <- <-]. by rewrite Hframe.
      * intros data Hsrc Htd.
        rewrite (mkdirSync_recursive_target fs log0 Hsrc Htd) in Hmk.
        discriminate Hmk.
  - destruct (Hnoexit c s1 eq_refl).
Qed.

(** C10. When [package.json] is missing, is a directory, or does not
    parse, [readJSONSafe] returns [null]; the merged dependencies are
    then empty and the stack detector still returns: never [next], and
    [react-native] exactly when a marker file exists. *)
Theorem bad_manifest_is_tolerated fs log0 :
  (∀ txt, fs !! lit "package.json" = Some (File txt) →
          JSON_parse txt = None) →
  readJSONSafe JSON_parse (lit "package.json") (State fs log0)
  = Return JNull (State fs log0)
  ∧ merged_deps (manifest JSON_parse fs) = ∅
  ∧ ∃ stk,
      detect_stack JSON_parse (State fs log0) = Return stk (State fs log0)
      ∧ stk ≠ Next
      ∧ (stk = ReactNative ↔ marker_present fs)
      ∧ (stk = React ↔ ¬ marker_present fs).
Proof.
  intros Hbad.
  assert (Hnull : parsed_or_null JSON_parse fs (lit "package.json") = JNull).
  { unfold parsed_or_null.
    destruct (fs !! lit "package.json") as [[txt|]|] eqn:E; [|done..].
    rewrite (Hbad txt eq_refl). done. }
  split; [rewrite readJSONSafe_spec; cbn [st_fs]; by rewrite Hnull|].
  assert (Hdeps : merged_deps (manifest JSON_parse fs) = ∅).
  { unfold manifest. rewrite Hnull. unfold merged_deps. cbn.
    apply (left_id ∅ (∪)). }
  split; [done|].
  eexists. split; [apply detect_stack_spec|]. cbn [st_fs]. cbv zeta.
  rewrite Hdeps. unfold has_key. rewrite !lookup_empty.
  rewrite !bool_decide_eq_false_2 by (by intros [? ?]).
  cbn [stack_of orb].
  pose proof (marker_present_bool fs) as Hm.
  destruct (_ || _ || _).
  - split; [done|]. split; split; try done.
    + intros _. by apply Hm.
    + intros H. destruct H. by apply Hm.
  - split; [done|]. split; split; try done.
    + intros H%Hm. done.
    + intros _ H%Hm. done.
Qed.

Lemma detect_stack_no_exit s c s' :
  detect_stack JSON_parse s ≠ Exit c s'.
Proof. rewrite detect_stack_spec. discriminate. Qed.

Lemma emit_template_no_exit stk usesTS s c s' :
  emit_template pkg_files stk usesTS s ≠ Exit c s'.
Proof.
  destruct (mkdirSync_recursive_frame [lit "src"; targetDir] s)
    as (_ & _ & Hnoexit).
  destruct (mkdirSync_recursive [lit "src"; targetDir] s)
    as [[] s1|e s1|c1 s1] eqn:Hmk.
  - rewrite (emit_template_spec _ _ _ _ Hmk). cbv zeta.
    destruct (st_fs s1 !! _); [discriminate|].
    destruct (pkg_files !! _); discriminate.
  - rewrite (emit_template_Throw _ _ _ _ _ Hmk). discriminate.
  - destruct (Hnoexit c1 s1 eq_refl).
Qed.

Lemma patch_root_no_exit stk rootPath providerFile s c s' :
  patch_root stk rootPath providerFile s ≠ Exit c s'.
Proof.
  destruct s as [fs log0].
  destruct (fs !! rootPath) as [[data|]|] eqn:Hr.
  - rewrite (patch_root_spec _ _ _ _ _ _ Hr). discriminate.
  - unfold patch_root, bind at 1, readFileSync. cbn [st_fs]. rewrite Hr. discriminate.
  - unfold patch_root, bind at 1, readFileSync. cbn [st_fs]. rewrite Hr. discriminate.
Qed.

(** The run up to the root locator. *)
Lemma main_prefix fs :
  main JSON_parse pkg_files (State fs [])
  = let stk :=
      match detect_stack JSON_parse (State fs []) with
      | Return stk _ => stk
      | _ => React
      end in
    bind locate_root
      (λ rootPath,
         let usesTS := regex_test re_ts_ext rootPath in
         bind (emit_template pkg_files stk usesTS)
           (λ providerFile,
              bind (patch_root stk rootPath providerFile)
                (λ _, bind (log LOG_done)
                   (λ _, bind (log (LOG_hint_import (relNoExt providerFile)))
                      (λ _, bind (log LOG_hint_hook)
                         (λ _, log (LOG_hint_show
                                      (stack_eqb stk ReactNative))))))))
      (State fs [LOG_detecting; LOG_stack stk]).
Proof.
  unfold main. unfold bind at 1. rewrite log_Return. cbn [st_fs st_log app].
  unfold bind at 1. rewrite !detect_stack_spec. cbn [st_fs].
  unfold bind at 1. rewrite log_Return. reflexivity.
Qed.

Lemma main_Exit fs c s :
  main JSON_parse pkg_files (State fs []) = Exit c s →
  c = 1 ∧ s = State fs (st_log s) ∧ List.last (st_log s) LOG_done = ERR_no_root.
Proof.
  rewrite main_prefix. cbv zeta. intros H.
  apply bind_Exit in H as [H|(root & s1 & _ & H)].
  - rewrite locate_root_spec in H. cbn [st_fs st_log] in H.
    destruct (List.find _ candidates); [discriminate|].
    injection H as <- <-. done.
  - apply bind_Exit in H as [H|(pf & s2 & _ & H)].
    { by apply emit_template_no_exit in H. }
    apply bind_Exit in H as [H|(? & s3 & _ & H)].
    { by apply patch_root_no_exit in H. }
    unfold bind, log in H. discriminate.
Qed.

(** C7. Without a root candidate the run prints the error and exits with
    status 1, the file system being as it was; an exception thrown
    anywhere in the run is printed by the handler and the exit status is
    1; the exit status is 0 only when the run reaches its end. *)
Theorem failures_exit_nonzero fs :
  ((∀ p, p ∈ candidates → fs !! p = None) →
     ∃ stk,
       run JSON_parse pkg_files fs
       = (State fs [LOG_detecting; LOG_stack stk; ERR_no_root], 1))
  ∧ (∀ e s,
       main JSON_parse pkg_files (State fs []) = Throw e s →
       run JSON_parse pkg_files fs
       = (State (st_fs s) (st_log s ++ [ERR_caught e]), 1))
  ∧ (snd (run JSON_parse pkg_files fs) = 0 ∨ snd (run JSON_parse pkg_files fs) = 1)
  ∧ (snd (run JSON_parse pkg_files fs) = 0 ↔
       ∃ s, main JSON_parse pkg_files (State fs []) = Return () s).
Proof.
  split; [|split; [|split]].
  - intros Hnone. eexists. unfold run. rewrite main_prefix. cbv zeta.
    unfold bind at 1. rewrite locate_root_spec. cbn [st_fs st_log].
    assert (List.find (λ p, bool_decide (is_Some (fs !! p))) candidates = None)
      as ->.
    { apply find_none_spec. intros p Hp. apply bool_decide_eq_false.
      rewrite (Hnone p Hp). by intros [? ?]. }
    reflexivity.
  - intros e s H. unfold run. rewrite H. reflexivity.
  - unfold run.
    destruct (main JSON_parse pkg_files (State fs [])) as [[] s|e s|c s] eqn:H;
      cbn [snd]; [by left|by right|].
    apply main_Exit in H as [-> _]. by right.
  - unfold run.
    destruct (main JSON_parse pkg_files (State fs [])) as [[] s|e s|c s] eqn:H;
      cbn [snd].
    + split; [eauto|done].
    + split; [done|]. intros [s' [=]].
    + apply main_Exit in H as [-> _]. split; [done|]. intros [s' [=]].
Qed.

End PipelineClaims.

(** ** Concrete runs *)

Lemma template_emitter_witness :
  st_fs (final_state
           (emit_template web_only React (regex_test re_ts_ext (lit "src/App.tsx"))
              (State {[ lit "src/nim-react-toastify/NotificationsProvider.tsx"
                        := File (lit "mine") ]} [])))
    !! lit "src/nim-react-toastify/NotificationsProvider.tsx"
  = Some (File (lit "mine"))
  ∧ emit_template web_only React (regex_test re_ts_ext (lit "src/main.jsx"))
      (State ∅ [])
    = Return (lit "src/nim-react-toastify/NotificationsProvider.jsx")
        (State (<[lit "src/nim-react-toastify/NotificationsProvider.jsx"
                  := File (lit "WEB")]>
                  (<[lit "src/nim-react-toastify" := Dir]>
                     (<[lit "src" := Dir]> ∅)))
           [LOG_created (lit "src/nim-react-toastify/NotificationsProvider.jsx")]).
Proof.
  split.
  - pose proof (template_emitter web_only React (lit "src/App.tsx")
                  {[ lit "src/nim-react-toastify/NotificationsProvider.tsx"
                     := File (lit "mine") ]} []) as H.
    cbv zeta in H.
    rewrite decide_True in H by (right; by exists (lit "src/App")).
    apply (proj1 H). vm_compute. reflexivity.
  - pose proof (template_emitter web_only React (lit "src/main.jsx") ∅ []) as H.
    cbv zeta in H.
    rewrite decide_False in H
      by (intros [[k Hk]|[k Hk]];
          apply (f_equal (λ l, rev l)) in Hk; cbv beta in Hk;
          rewrite rev_app_distr in Hk; vm_compute in Hk; discriminate Hk).
    destruct H as [_ H]. destruct H as (_ & _ & H); [apply lookup_empty|].
    apply H.
    + intros d. rewrite lookup_empty. discriminate.
    + intros d. rewrite lookup_empty. discriminate.
    + vm_compute. reflexivity.
Defined.

Lemma bad_manifest_is_tolerated_witness :
  readJSONSafe no_json (lit "package.json") (State ∅ [])
  = Return JNull (State ∅ [])
  ∧ merged_deps (manifest no_json ∅) = ∅
  ∧ ∃ stk,
      detect_stack no_json (State ∅ []) = Return stk (State ∅ [])
      ∧ stk ≠ Next
      ∧ (stk = ReactNative ↔ marker_present ∅)
      ∧ (stk = React ↔ ¬ marker_present ∅).
Proof.
  apply (bad_manifest_is_tolerated no_json ∅ []).
  intros txt H. reflexivity.
Defined.

Lemma failures_exit_nonzero_witness :
  (∃ stk,
     run no_json web_only ∅
     = (State ∅ [LOG_detecting; LOG_stack stk; ERR_no_root], 1))
  ∧ (∃ e s,
       run no_json web_only {[ lit "App.js" := Dir ]}
       = (State (st_fs s) (st_log s ++ [ERR_caught e]), 1)).
Proof.
  split.
  - apply (proj1 (failures_exit_nonzero no_json web_only ∅)).
    intros p _. apply lookup_empty.
  - eexists _, _.
    eapply (proj1 (proj2 (failures_exit_nonzero no_json web_only
                            {[ lit "App.js" := Dir ]}))).
    vm_compute. reflexivity.
Defined.

(** A root candidate that is a directory: the provider file is created,
    then reading the root file throws and the handler exits with 1. *)
Example run_root_is_directory :
  let r := run no_json web_only {[ lit "App.js" := Dir ]} in
  snd r = 1
  ∧ st_log (fst r)
    = [LOG_detecting; LOG_stack React; LOG_root (lit "App.js");
       LOG_created (providerFile_of false);
       ERR_caught (EISDIR (lit "App.js"))]
  ∧ st_fs (fst r) !! providerFile_of false = Some (File (lit "WEB")).
Proof. vm_compute. repeat split; reflexivity. Qed.

(** A complete run on a small React project. *)
Example run_react_project :
  let fs : gmap jsstring node :=
    {[ lit "src/App.jsx" := File (lit "export default () => { return (<App/>); }") ]} in
  let r := run no_json web_only fs in
  snd r = 0
  ∧ st_fs (fst r) !! lit "src/App.jsx"
    = Some (File (importLine_of (lit "src/App.jsx") (providerFile_of false)
                  ++ nl
                  ++ lit "export default () => { return (<<NotificationsProvider>App/></NotificationsProvider>); }"))
  ∧ st_fs (fst r) !! providerFile_of false = Some (File (lit "WEB")).
Proof. vm_compute. repeat split; reflexivity. Qed.

(** * Further properties *)

(** ** Paths *)

Lemma split_on_cons sep p : ∃ seg segs, split_on sep p = seg :: segs.
Proof.
  destruct p as [|c p]; cbn [split_on]; [eauto|].
  destruct (N.eqb c sep); [eauto|]. destruct (split_on sep p); eauto.
Qed.

Lemma join_path_cons c seg segs :
  join_path ((c :: seg) :: segs) = c :: join_path (seg :: segs).
Proof. destruct segs; reflexivity. Qed.

Lemma join_path_nil_cons seg segs :
  join_path ([] :: seg :: segs) = slash :: join_path (seg :: segs).
Proof. reflexivity. Qed.

Lemma split_path_split_on p : split_path p = split_on slash p.
Proof.
  induction p as [|c p IH]; cbn [split_path split_on]; [done|].
  rewrite IH. done.
Qed.

Lemma posixPath_map sep p :
  posixPath sep p = map (λ c, if N.eqb c sep then slash else c) p.
Proof.
  unfold posixPath.
  induction p as [|c p IH]; cbn [split_on map]; [done|].
  destruct (split_on_cons sep p) as (seg & segs & E). rewrite E in *.
  destruct (N.eqb c sep).
  - rewrite join_path_nil_cons, IH. done.
  - rewrite join_path_cons, IH. done.
Qed.

Lemma posixPath_slash p : posixPath slash p = p.
Proof.
  rewrite posixPath_map.
  induction p as [|c p IH]; cbn [map]; [done|]. rewrite IH.
  destruct (N.eqb_spec c slash) as [->|]; done.
Qed.

Lemma join_split_path p : join_path (split_path p) = p.
Proof. rewrite split_path_split_on. apply posixPath_slash. Qed.

Lemma split_path_no_slash name : slash ∉ name → split_path name = [name].
Proof.
  induction name as [|c name IH]; intros Hn; cbn [split_path]; [done|].
  apply not_elem_of_cons in Hn as [Hc Hn].
  destruct (N.eqb_spec c slash) as [->|_]; [done|]. rewrite IH; done.
Qed.

Lemma split_path_app seg rest :
  slash ∉ seg → split_path (seg ++ slash :: rest) = seg :: split_path rest.
Proof.
  induction seg as [|c seg IH]; intros Hn; cbn [app split_path].
  - rewrite N.eqb_refl. done.
  - apply not_elem_of_cons in Hn as [Hc Hn].
    destruct (N.eqb_spec c slash) as [->|_]; [done|]. rewrite IH; done.
Qed.

(** X1. [posixPath] replaces every path separator by a slash and changes
    nothing else; where the separator is the slash itself (POSIX), it
    returns its argument, and after it the replacement of backslashes at
    line 103 changes nothing where the separator is the backslash. *)
Theorem posixPath_replaces_separators sep p :
  posixPath sep p = map (λ c, if N.eqb c sep then slash else c) p
  ∧ posixPath slash p = p
  ∧ backslashes_to_slashes (posixPath backslash p) = posixPath backslash p.
Proof.
  split; [apply posixPath_map|]. split; [apply posixPath_slash|].
  rewrite posixPath_map. unfold backslashes_to_slashes, is_chr.
  rewrite <- list_fmap_compose. apply list_fmap_ext. intros i c _.
  unfold compose. fold backslash.
  destruct (N.eqb_spec c backslash) as [->|Hc]; [reflexivity|].
  destruct (N.eqb_spec c backslash); [contradiction|reflexivity].
Qed.

(** ** The import line *)

(** X2. Replacing the match of a pattern by the matched text returns the
    string as it was: the first replacement of the import path, at line
    102, has no effect on any path. *)
Theorem leading_dotdot_replace_is_identity r s :
  regex_replace r (λ mo, m_text mo) s = s
  ∧ regex_replace re_leading_dotdot (λ mo, m_text mo) s = s.
Proof.
  assert (H : ∀ r, regex_replace r (λ mo, m_text mo) s = s); [|by split].
  clear r. intros r. unfold regex_replace.
  destruct (regex_match r s) as [mo|] eqn:E; [|done].
  destruct (regex_match_Some _ _ _ E) as (rest & Hs & Hlen & _).
  remember (take (m_index mo) s) as t eqn:Ht. clear Ht.
  assert (Hd : drop (m_index mo + length (m_text mo)) s = rest).
  { rewrite Hs, <- Hlen, <- length_app, app_assoc. apply drop_app_length. }
  rewrite Hd. symmetry. exact Hs.
Qed.

Lemma path_dirname_top name : slash ∉ name → path_dirname name = [].
Proof. intros H. unfold path_dirname. rewrite split_path_no_slash; done. Qed.

Lemma path_dirname_in (dir : list string) name :
  slash ∉ name →
  Forall (λ d, slash ∉ lit d) dir →
  path_dirname (foldr (λ d p, lit d ++ slash :: p) name dir) = map lit dir.
Proof.
  intros Hn Hd. unfold path_dirname.
  assert (E : split_path (foldr (λ d p, lit d ++ slash :: p) name dir)
              = map lit dir ++ [name]).
  { induction Hd as [|d dir Hd _ IH]; cbn [foldr map app].
    - apply split_path_no_slash. done.
    - rewrite split_path_app by done. rewrite IH. done. }
  rewrite E. apply removelast_last.
Qed.

Lemma no_slash_lit_src : slash ∉ lit "src".
Proof. apply (bool_decide_unpack _). vm_compute. exact I. Qed.

Lemma no_slash_lit_app : slash ∉ lit "app".
Proof. apply (bool_decide_unpack _). vm_compute. exact I. Qed.

(** X3. The import line by the place of the root file, [name] being a
    plain file name (not empty, not [.] or [..], without a slash): the
    module specifier is the path of the provider file relative to the
    directory of the root file, without its extension and without a
    leading ["./"]; it is [src/nim-react-toastify/NotificationsProvider]
    for a root file in the working directory,
    [nim-react-toastify/NotificationsProvider] for one in [src/], and it
    starts with ["../"] for a root file in [app/] or [src/app/] only. *)
Theorem importLine_by_directory name usesTS :
  name ≠ [] → name ≠ lit "." → name ≠ lit ".." → slash ∉ name →
  let pf := providerFile_of usesTS in
  importLine_of name pf
  = import_from (lit "src/nim-react-toastify/NotificationsProvider")
  ∧ importLine_of (lit "src/" ++ name) pf
    = import_from (lit "nim-react-toastify/NotificationsProvider")
  ∧ importLine_of (lit "app/" ++ name) pf
    = import_from (lit "../src/nim-react-toastify/NotificationsProvider")
  ∧ importLine_of (lit "src/app/" ++ name) pf
    = import_from (lit "../nim-react-toastify/NotificationsProvider").
Proof.
  intros _ _ _ Hn pf. subst pf.
  pose proof (path_dirname_top name Hn) as H0.
  pose proof no_slash_lit_src as Hs. pose proof no_slash_lit_app as Ha.
  pose proof (path_dirname_in ["src"%string] name Hn
                ltac:(repeat constructor; assumption)) as H1.
  pose proof (path_dirname_in ["app"%string] name Hn
                ltac:(repeat constructor; assumption)) as H2.
  pose proof (path_dirname_in ["src"%string; "app"%string] name Hn
                ltac:(repeat constructor; assumption)) as H3.
  cbn [foldr map] in H1, H2, H3.
  change (lit "src" ++ slash :: lit "app" ++ slash :: name)
    with (lit "src/app/" ++ name) in H3.
  change (lit "src" ++ slash :: name) with (lit "src/" ++ name) in H1.
  change (lit "app" ++ slash :: name) with (lit "app/" ++ name) in H2.
  unfold importLine_of.
  rewrite H0, H1, H2, H3.
  destruct usesTS; vm_compute; repeat split; reflexivity.
Qed.

Lemma importLine_by_directory_witness :
  importLine_of (lit "App.tsx") (providerFile_of true)
  = import_from (lit "src/nim-react-toastify/NotificationsProvider")
  ∧ importLine_of (lit "src/App.tsx") (providerFile_of true)
    = import_from (lit "nim-react-toastify/NotificationsProvider")
  ∧ importLine_of (lit "app/App.tsx") (providerFile_of true)
    = import_from (lit "../src/nim-react-toastify/NotificationsProvider")
  ∧ importLine_of (lit "src/app/App.tsx") (providerFile_of true)
    = import_from (lit "../nim-react-toastify/NotificationsProvider").
Proof.
  apply (importLine_by_directory (lit "App.tsx") true).
  - discriminate.
  - discriminate.
  - discriminate.
  - apply (bool_decide_unpack _). vm_compute. exact I.
Defined.

(** ** File extensions *)

(** X4. The root file counts as TypeScript exactly when its path ends
    with [.ts] or [.tsx]; the provider file is then
    [NotificationsProvider.tsx], and [NotificationsProvider.jsx] for any
    other root file. *)
Theorem provider_extension_follows_root rootPath :
  (regex_test re_ts_ext rootPath = true
   ↔ lit ".ts" `suffix_of` rootPath ∨ lit ".tsx" `suffix_of` rootPath)
  ∧ providerFile_of (regex_test re_ts_ext rootPath)
    = (if regex_test re_ts_ext rootPath
       then lit "src/nim-react-toastify/NotificationsProvider.tsx"
       else lit "src/nim-react-toastify/NotificationsProvider.jsx").
Proof.
  split; [|destruct (regex_test _ _); reflexivity].
  rewrite regex_test_matches. unfold matches_somewhere.
  setoid_rewrite matches_ts_ext. split.
  - intros (a & m & b & -> & [-> | ->] & ->); rewrite app_nil_r;
      [left|right]; by exists a.
  - intros [[a ->]|[a ->]].
    + exists a, (lit ".ts"), []. rewrite app_nil_r. split; [done|].
      split; [by left|done].
    + exists a, (lit ".tsx"), []. rewrite app_nil_r. split; [done|].
      split; [by right|done].
Qed.

Lemma matches_any_ext pre m suf :
  matches re_any_ext pre m suf ↔ m ∈ source_exts ∧ suf = [].
Proof.
  unfold re_any_ext, Seqs, source_exts.
  rewrite matches_Seq. setoid_rewrite matches_Chr.
  setoid_rewrite matches_Seq. cbn [matches].
  rewrite !elem_of_cons, elem_of_nil. split.
  - intros (m1 & m2 & -> & -> & m3 & m4 & -> & [(c & -> & Hc)|(c & -> & Hc)]
            & m5 & m6 & -> & (c' & -> & Hc') & m7 & m8 & -> & Hx
            & m9 & m10 & -> & [-> E] & ->);
      apply N.eqb_eq in Hc as ->; apply N.eqb_eq in Hc' as ->;
      cbn [app] in E; subst suf; (split; [|done]);
      (destruct Hx as [->|(c & -> & Hc)]; [|apply N.eqb_eq in Hc as ->]);
      cbn; tauto.
  - intros [[->|[->|[->|[->|[]]]]] ->].
    + exists (lit "."), (lit "ts"). split; [done|]. split; [done|].
      exists (lit "t"), (lit "s"). split; [done|]. split; [left; by eexists|].
      exists (lit "s"), []. split; [done|]. split; [by eexists|].
      exists [], []. split; [done|]. split; [by left|].
      exists [], []. done.
    + exists (lit "."), (lit "tsx"). split; [done|]. split; [done|].
      exists (lit "t"), (lit "sx"). split; [done|]. split; [left; by eexists|].
      exists (lit "s"), (lit "x"). split; [done|]. split; [by eexists|].
      exists (lit "x"), []. split; [done|]. split; [right; by eexists|].
      exists [], []. done.
    + exists (lit "."), (lit "js"). split; [done|]. split; [done|].
      exists (lit "j"), (lit "s"). split; [done|]. split; [right; by eexists|].
      exists (lit "s"), []. split; [done|]. split; [by eexists|].
      exists [], []. split; [done|]. split; [by left|].
      exists [], []. done.
    + exists (lit "."), (lit "jsx"). split; [done|]. split; [done|].
      exists (lit "j"), (lit "sx"). split; [done|]. split; [right; by eexists|].
      exists (lit "s"), (lit "x"). split; [done|]. split; [by eexists|].
      exists (lit "x"), []. split; [done|]. split; [right; by eexists|].
      exists [], []. done.
Qed.

(** Two of the extensions end the same string only if they are equal. *)
Lemma source_ext_unique t m q e :
  m ∈ source_exts → e ∈ source_exts → t ++ m = q ++ e → t = q ∧ m = e.
Proof.
  unfold source_exts. rewrite !elem_of_cons, !elem_of_nil.
  intros [->|[->|[->|[->|[]]]]] [->|[->|[->|[->|[]]]]] H;
    try (apply app_inj_2 in H; [exact H|reflexivity]);
    apply (f_equal (λ l, rev l)) in H; cbv beta in H; rewrite !rev_app_distr in H;
    vm_compute in H; discriminate H.
Qed.

Lemma rel_nonempty p : p ≠ [] → rel p = p.
Proof.
  intros Hp. unfold rel, path_relative. cbn [strip_common map app].
  rewrite join_split_path. rewrite bool_decide_eq_false_2; done.
Qed.

(** X5. [relNoExt], on a path below the working directory written
    without empty, [.] or [..] segments (so that [rel] returns it as it
    is), removes a final [.ts], [.tsx], [.js] or [.jsx] and nothing else: a
    path that ends with none of them is returned as it is. On the working
    directory itself it returns [.]. The path of the provider file, with
    either extension, becomes
    [src/nim-react-toastify/NotificationsProvider]. *)
Theorem relNoExt_strips_extension p :
  relNoExt [] = lit "."
  ∧ (Forall (λ seg, seg ≠ [] ∧ seg ≠ lit "." ∧ seg ≠ lit "..") (split_path p) →
     rel p = p
     ∧ (∀ q e, e ∈ source_exts → p = q ++ e → relNoExt p = q)
     ∧ ((∀ e, e ∈ source_exts → ¬ e `suffix_of` p) → relNoExt p = p))
  ∧ (∀ usesTS,
       relNoExt (providerFile_of usesTS)
       = lit "src/nim-react-toastify/NotificationsProvider").
Proof.
  split; [vm_compute; reflexivity|]. split.
  - intros Hn.
    assert (Hrel : rel p = p).
    { apply rel_nonempty. intros ->. cbn [split_path] in Hn.
      apply Forall_inv in Hn as [Hn _]. by apply Hn. }
    split; [exact Hrel|]. unfold relNoExt. rewrite Hrel. split.
    + intros q e He ->.
      destruct (regex_replace_at_end re_any_ext (λ m, m ∈ source_exts) []
                  (q ++ e) matches_any_ext) as [(t & m & Hp & Hm & ->)|[Hno _]].
      * rewrite app_nil_r. symmetry in Hp.
        apply source_ext_unique in Hp as [-> _]; done.
      * destruct (Hno q e eq_refl He).
    + intros Hno.
      destruct (regex_replace_at_end re_any_ext (λ m, m ∈ source_exts) [] p
                  matches_any_ext) as [(t & m & Hp & Hm & _)|[_ H]]; [|done].
      destruct (Hno m Hm). by exists t.
  - intros usesTS. destruct usesTS; vm_compute; reflexivity.
Qed.

(** For instance, [src/App.tsx] becomes [src/App], while [src/app.json] is
    kept. *)
Example relNoExt_examples :
  relNoExt (lit "src/App.tsx") = lit "src/App"
  ∧ relNoExt (lit "src/app.json") = lit "src/app.json".
Proof. split; vm_compute; reflexivity. Qed.

(** ** The whole run *)

(** [mkdirSync] changes no entry that exists; what it adds is a
    directory of the chain; when it returns, the chain is made of
    directories. *)
Lemma mkdirSync_recursive_mono chain : ∀ s,
  let s' := final_state (mkdirSync_recursive chain s) in
  (∀ q n, st_fs s !! q = Some n → st_fs s' !! q = Some n)
  ∧ (∀ q, st_fs s !! q = None → is_Some (st_fs s' !! q) →
          q ∈ chain ∧ st_fs s' !! q = Some Dir)
  ∧ (∀ s1, mkdirSync_recursive chain s = Return () s1 →
           ∀ q, q ∈ chain → st_fs s1 !! q = Some Dir).
Proof.
  induction chain as [|d chain IH]; intros s; cbn zeta.
  - cbn [mkdirSync_recursive final_state ret]. split; [done|]. split.
    + intros q Hq [n Hn]. congruence.
    + intros s1 _ q Hq. inversion Hq.
  - cbn [mkdirSync_recursive].
    destruct (st_fs s !! d) as [[data|]|] eqn:Hd.
    + destruct chain; cbn [final_state]; (split; [done|]; split);
        solve [intros q Hq [n Hn]; congruence | intros s1 [=]].
    + destruct (IH s) as (H1 & H2 & H3). cbn zeta in H1, H2, H3.
      split; [done|]. split.
      * intros q Hq Hs. destruct (H2 q Hq Hs). split; [by right|done].
      * intros s1 Hs1 q [->|Hq]%elem_of_cons; [|by eapply H3].
        pose proof (H1 d Dir Hd) as Hd'. rewrite Hs1 in Hd'. done.
    + destruct (IH (State (<[d:=Dir]> (st_fs s)) (st_log s)))
        as (H1 & H2 & H3). cbn zeta in H1, H2, H3. cbn [st_fs] in H1, H2.
      split; [|split].
      * intros q n Hq. apply H1. rewrite lookup_insert_ne; [done|].
        intros ->. congruence.
      * intros q Hq Hs. destruct (decide (q = d)) as [->|Hne].
        -- split; [by left|]. apply H1. apply lookup_insert_eq.
        -- destruct (H2 q); [by rewrite lookup_insert_ne|done|].
           split; [by right|done].
      * intros s1 Hs1 q [->|Hq]%elem_of_cons; [|by eapply H3].
        pose proof (H1 d Dir (lookup_insert_eq _ _ _)) as Hd'.
        rewrite Hs1 in Hd'. done.
Qed.

Lemma mkdirSync_recursive_log chain s :
  st_log (final_state (mkdirSync_recursive chain s)) = st_log s.
Proof. apply mkdirSync_recursive_frame. Qed.

Ltac in_list :=
  subst; rewrite ?elem_of_cons, ?not_elem_of_cons in *;
  first [tauto | done | intuition discriminate].

(** The stack that the run detects. *)
Lemma detect_stack_Return JSON_parse fs log0 :
  ∃ stk, detect_stack JSON_parse (State fs log0) = Return stk (State fs log0).
Proof. eexists. apply detect_stack_spec. Qed.

(** The run, step by step. *)
Lemma main_outcome JSON_parse pkg_files fs stk :
  detect_stack JSON_parse (State fs []) = Return stk (State fs []) →
  main JSON_parse pkg_files (State fs [])
  = match List.find (λ p, bool_decide (is_Some (fs !! p))) candidates with
    | None => Exit 1 (State fs [LOG_detecting; LOG_stack stk; ERR_no_root])
    | Some root =>
        match emit_template pkg_files stk (regex_test re_ts_ext root)
                (State fs [LOG_detecting; LOG_stack stk; LOG_root root]) with
        | Return pf s1 =>
            match patch_root stk root pf s1 with
            | Return _ s2 =>
                Return ()
                  (State (st_fs s2)
                     (st_log s2 ++
                      [LOG_done; LOG_hint_import (relNoExt pf); LOG_hint_hook;
                       LOG_hint_show (stack_eqb stk ReactNative)]))
            | Throw e s2 => Throw e s2
            | Exit c s2 => Exit c s2
            end
        | Throw e s1 => Throw e s1
        | Exit c s1 => Exit c s1
        end
    end.
Proof.
  intros Hd. rewrite main_prefix. rewrite Hd. cbv zeta.
  unfold bind at 1. rewrite locate_root_spec. cbn [st_fs st_log app].
  destruct (List.find _ candidates) as [root|]; [|reflexivity].
  unfold bind at 1. destruct (emit_template _ _ _ _) as [pf s1|e s1|c s1];
    [|reflexivity..].
  unfold bind at 1. destruct (patch_root _ _ _ _) as [[] s2|e s2|c s2];
    [|reflexivity..].
  unfold bind, log. cbn [st_fs st_log]. rewrite <- !app_assoc. reflexivity.
Qed.

(** What the template emitter does to the file system. *)
Lemma emit_template_effect pkg_files stk usesTS s :
  let pf := providerFile_of usesTS in
  let o := emit_template pkg_files stk usesTS s in
  (∀ q n, st_fs s !! q = Some n → st_fs (final_state o) !! q = Some n)
  ∧ (∀ q, st_fs s !! q = None → is_Some (st_fs (final_state o) !! q) →
          q ∈ [lit "src"; targetDir; pf])
  ∧ (∀ r s1, o = Return r s1 →
       r = pf ∧ st_fs s1 !! lit "src" = Some Dir
       ∧ st_fs s1 !! targetDir = Some Dir
       ∧ (st_fs s !! pf = None →
            ∃ data, pkg_files !! template_of stk = Some data
                    ∧ st_fs s1 !! pf = Some (File data)
                    ∧ st_log s1 = st_log s ++ [LOG_created pf])
       ∧ (is_Some (st_fs s !! pf) →
            st_log s1 = st_log s ++ [WARN_provider_exists pf]))
  ∧ (∀ e s1, o = Throw e s1 →
       st_log s1 = st_log s
       ∧ ((∃ d, (e = ENOTDIR targetDir ∧ d = lit "src"
                 ∨ e = EEXIST targetDir ∧ d = targetDir)
                ∧ d ∈ [lit "src"; targetDir]
                ∧ ∃ data, st_fs s !! d = Some (File data))
          ∨ (e = ENOENT (template_of stk)
             ∧ pkg_files !! template_of stk = None
             ∧ st_fs s !! pf = None
             ∧ st_fs s1 !! pf = None
             ∧ st_fs s1 !! lit "src" = Some Dir
             ∧ st_fs s1 !! targetDir = Some Dir))).
Proof.
  cbv zeta. set (pf := providerFile_of usesTS).
  set (chain := [lit "src"; targetDir]).
  destruct (mkdirSync_recursive_mono chain s) as (Hkeep & Hnew & Hdirs).
  cbv zeta in Hkeep, Hnew, Hdirs.
  pose proof (mkdirSync_recursive_log chain s) as Hlog.
  destruct (mkdirSync_recursive_frame chain s) as (_ & Hframe & Hnoexit).
  specialize (Hframe pf (providerFile_not_dir usesTS)).
  destruct (mkdirSync_recursive chain s) as [[] s1|e s1|c s1] eqn:Hmk.
  - specialize (Hdirs s1 eq_refl). cbn [final_state] in *.
    assert (Hsrc : st_fs s1 !! lit "src" = Some Dir)
      by (apply Hdirs; subst chain; in_list).
    assert (Htd : st_fs s1 !! targetDir = Some Dir)
      by (apply Hdirs; subst chain; in_list).
    pose proof (emit_template_spec pkg_files stk usesTS _ _ Hmk) as Ho.
    cbv zeta in Ho. fold pf in Ho. rewrite Ho. clear Ho. rewrite Hframe.
    destruct (st_fs s !! pf) as [n|] eqn:Hpf.
    + cbn [final_state st_fs st_log]. split; [done|]. split.
      { intros q Hq Hs. destruct (Hnew q Hq Hs) as [Hin _].
        subst chain. in_list. }
      split.
      * intros r s' [= <- <-]. cbn [st_fs st_log].
        split; [done|]. split; [done|]. split; [done|]. split; [done|].
        intros _. by rewrite Hlog.
      * intros e s' [=].
    + destruct (pkg_files !! template_of stk) as [data|] eqn:Ht.
      * cbn [final_state st_fs st_log]. split; [|split; [|split]].
        -- intros q n Hq. rewrite lookup_insert_ne; [by apply Hkeep|].
           intros Heq. subst q. congruence.
        -- intros q Hq Hs. destruct (decide (q = pf)) as [->|Hne];
             [in_list|].
           rewrite lookup_insert_ne in Hs by done.
           destruct (Hnew q Hq Hs) as [Hin _]. subst chain. in_list.
        -- intros r s' [= <- <-]. cbn [st_fs st_log].
           pose proof (providerFile_not_dir usesTS) as Hnd. fold pf in Hnd.
           split; [done|].
           split; [rewrite lookup_insert_ne; [done|in_list]|].
           split; [rewrite lookup_insert_ne; [done|in_list]|].
           split.
           ++ intros _. exists data. split; [done|].
              split; [apply lookup_insert_eq|by rewrite Hlog].
           ++ intros [? [=]].
        -- intros e s' [=].
      * cbn [final_state st_fs st_log]. split; [done|]. split.
        { intros q Hq Hs. destruct (Hnew q Hq Hs) as [Hin _].
          subst chain. in_list. }
        split; [intros r s' [=]|].
        intros e s' [= <- <-]. split; [done|]. right. done.
  - pose proof (emit_template_Throw pkg_files stk usesTS _ _ _ Hmk) as Ho.
    rewrite Ho. cbn [final_state] in *. split; [done|]. split.
    { intros q Hq Hs. destruct (Hnew q Hq Hs) as [Hin _].
      subst chain. in_list. }
    split; [intros r s' [=]|].
    intros e' s' [= <- <-]. split; [done|]. left.
    (* the directory in the way *)
    clear -Hmk. subst chain. cbn [mkdirSync_recursive] in Hmk.
    destruct (st_fs s !! lit "src") as [[data|]|] eqn:H1.
    + injection Hmk as <- <-. exists (lit "src"). split; [by left|].
      split; [in_list|eauto].
    + destruct (st_fs s !! targetDir) as [[data|]|] eqn:H2;
        [|discriminate Hmk..].
      injection Hmk as <- <-. exists targetDir. split; [by right|].
      split; [in_list|eauto].
    + cbn [st_fs st_log] in Hmk.
      destruct (<[lit "src":=Dir]> (st_fs s) !! targetDir) as [[data|]|] eqn:H2;
        [|discriminate Hmk..].
      injection Hmk as <- <-. exists targetDir. split; [by right|].
      split; [in_list|]. exists data.
      rewrite lookup_insert_ne in H2; [done|]. vm_compute. discriminate.
  - destruct (Hnoexit c s1 eq_refl).
Qed.

Lemma candidates_not_created root :
  root ∈ candidates → root ∉ created_paths.
Proof.
  revert root. apply Forall_forall.
  apply (bool_decide_unpack _). vm_compute. exact I.
Qed.

Lemma find_candidate (fs : gmap jsstring node) root :
  List.find (λ p, bool_decide (is_Some (fs !! p))) candidates = Some root →
  root ∈ candidates ∧ is_Some (fs !! root).
Proof.
  intros (i & Hi & Hx & _)%find_first_spec. split.
  - eapply list_elem_of_lookup_2. exact Hi.
  - apply bool_decide_eq_true in Hx. done.
Qed.

Lemma find_existing_Return (fs : gmap jsstring node) log0 r s :
  find_existing candidates (State fs log0) = Return r s →
  List.find (λ p, bool_decide (is_Some (fs !! p))) candidates = r.
Proof.
  rewrite find_existing_spec. cbn [st_fs]. intros H. injection H as H _.
  exact H.
Qed.

Lemma providerFile_created usesTS : providerFile_of usesTS ∈ created_paths.
Proof. unfold created_paths. destruct usesTS; rewrite !elem_of_cons; tauto. Qed.

Lemma relNoExt_providerFile usesTS :
  relNoExt (providerFile_of usesTS)
  = lit "src/nim-react-toastify/NotificationsProvider".
Proof. destruct usesTS; vm_compute; reflexivity. Qed.

Lemma patch_root_Dir stk rootPath providerFile s :
  st_fs s !! rootPath = Some Dir →
  patch_root stk rootPath providerFile s = Throw (EISDIR rootPath) s.
Proof.
  intros H. unfold patch_root, bind at 1, readFileSync. rewrite H. reflexivity.
Qed.

(** One run, by cases. *)
Lemma run_outcome JSON_parse pkg_files fs stk :
  detect_stack JSON_parse (State fs []) = Return stk (State fs []) →
  run JSON_parse pkg_files fs
  = match List.find (λ p, bool_decide (is_Some (fs !! p))) candidates with
    | None => (State fs [LOG_detecting; LOG_stack stk; ERR_no_root], 1)
    | Some root =>
        match emit_template pkg_files stk (regex_test re_ts_ext root)
                (State fs [LOG_detecting; LOG_stack stk; LOG_root root]) with
        | Return pf s1 =>
            match fs !! root with
            | Some (File c) =>
                (State (<[root := File (patched_code stk root pf c)]> (st_fs s1))
                   (st_log s1 ++ patch_events root pf c ++ done_events stk), 0)
            | _ =>
                (State (st_fs s1) (st_log s1 ++ [ERR_caught (EISDIR root)]), 1)
            end
        | Throw e s1 => (State (st_fs s1) (st_log s1 ++ [ERR_caught e]), 1)
        | Exit c s1 => (s1, c)
        end
    end.
Proof.
  intros Hd. unfold run. rewrite (main_outcome _ _ _ _ Hd).
  destruct (List.find _ candidates) as [root|] eqn:Hfind; [|reflexivity].
  apply find_candidate in Hfind as [Hcand [n Hroot]].
  pose proof (emit_template_effect pkg_files stk (regex_test re_ts_ext root)
                (State fs [LOG_detecting; LOG_stack stk; LOG_root root]))
    as (Hkeep & _ & Hret & _).
  cbv zeta in Hkeep, Hret. cbn [st_fs] in Hkeep.
  destruct (emit_template _ _ _ _) as [pf s1|e s1|c s1] eqn:He; [|reflexivity..].
  specialize (Hkeep _ _ Hroot). cbn [final_state] in Hkeep.
  destruct (Hret pf s1 eq_refl) as (-> & _).
  rewrite Hroot. destruct n as [c|].
  - destruct s1 as [fs1 log1]. cbn [st_fs st_log] in *.
    rewrite (patch_root_spec _ _ _ _ _ _ Hkeep). cbv zeta.
    cbn [st_fs st_log]. rewrite relNoExt_providerFile.
    unfold patched_code, patch_events, done_events. cbv zeta.
    rewrite <- !app_assoc. reflexivity.
  - rewrite patch_root_Dir by done. reflexivity.
Qed.

(** X6. A run changes no entry of the file system other than the root
    file it has located, and it changes that file only when it ends with
    exit status 0; what it adds is among the target directory, its parent
    [src] and the provider file. *)
Theorem run_changes_only_the_root_file JSON_parse pkg_files fs :
  let r := run JSON_parse pkg_files fs in
  (∀ p n, fs !! p = Some n →
     st_fs (fst r) !! p = Some n
     ∨ (find_existing candidates (State fs []) = Return (Some p) (State fs [])
        ∧ snd r = 0
        ∧ ∃ c c', n = File c ∧ st_fs (fst r) !! p = Some (File c')))
  ∧ (∀ p, fs !! p = None → is_Some (st_fs (fst r) !! p) → p ∈ created_paths).
Proof.
  cbv zeta. destruct (detect_stack_Return JSON_parse fs []) as [stk Hd].
  rewrite (run_outcome _ pkg_files _ _ Hd), find_existing_spec. cbn [st_fs].
  destruct (List.find _ candidates) as [root|] eqn:Hfind.
  2:{ cbn [fst snd st_fs]. split; [by left|]. intros p Hp [n Hn]. congruence. }
  apply find_candidate in Hfind as [Hcand Hroot].
  pose proof (emit_template_effect pkg_files stk (regex_test re_ts_ext root)
                (State fs [LOG_detecting; LOG_stack stk; LOG_root root]))
    as (Hkeep & Hnew & _ & _).
  cbv zeta in Hkeep, Hnew. cbn [st_fs] in Hkeep, Hnew.
  assert (Hnew' : ∀ q, fs !! q = None →
            is_Some (st_fs (final_state
              (emit_template pkg_files stk (regex_test re_ts_ext root)
                 (State fs [LOG_detecting; LOG_stack stk; LOG_root root]))) !! q) →
            q ∈ created_paths).
  { intros q Hq Hs. specialize (Hnew q Hq Hs). unfold created_paths.
    rewrite !elem_of_cons in *. destruct (regex_test re_ts_ext root); tauto. }
  clear Hnew.
  destruct (emit_template _ _ _ _) as [pf s1|e s1|c s1]; cbn [final_state] in *.
  - destruct (fs !! root) as [[c|]|] eqn:Hr; cbn [fst snd st_fs];
      [|split; [intros p n Hp; left; by apply Hkeep|done]..].
    split.
    + intros p n Hp. destruct (decide (p = root)) as [->|Hne].
      * right. split; [done|]. split; [done|].
        exists c, (patched_code stk root pf c). split; [congruence|].
        apply lookup_insert_eq.
      * left. rewrite lookup_insert_ne by done. by apply Hkeep.
    + intros p Hp Hs. destruct (decide (p = root)) as [->|Hne]; [congruence|].
      rewrite lookup_insert_ne in Hs by done. by apply Hnew'.
  - cbn [fst snd st_fs]. split; [intros p n Hp; left; by apply Hkeep|done].
  - cbn [fst snd]. split; [intros p n Hp; left; by apply Hkeep|done].
Qed.

(** X7. A run that ends with exit status 0 has located a root file that
    is a regular file, and leaves: that file holding the patched text
    (import step, then [wrapJSXReturn], then the fallback if the wrapper
    changed nothing); the directories [src] and [src/nim-react-toastify];
    the provider file, holding the template of the stack if it was not
    there before; and on the console the events of each step in order,
    ending with the usage hint. *)
Theorem successful_run JSON_parse pkg_files fs s :
  run JSON_parse pkg_files fs = (s, 0) →
  ∃ stk root c,
    detect_stack JSON_parse (State fs []) = Return stk (State fs [])
    ∧ find_existing candidates (State fs []) = Return (Some root) (State fs [])
    ∧ fs !! root = Some (File c)
    ∧ let pf := providerFile_of (regex_test re_ts_ext root) in
      st_fs s !! root = Some (File (patched_code stk root pf c))
      ∧ st_fs s !! lit "src" = Some Dir
      ∧ st_fs s !! targetDir = Some Dir
      ∧ (∀ n, fs !! pf = Some n → st_fs s !! pf = Some n)
      ∧ (fs !! pf = None →
           ∃ data, pkg_files !! template_of stk = Some data
                   ∧ st_fs s !! pf = Some (File data))
      ∧ st_log s
        = [LOG_detecting; LOG_stack stk; LOG_root root]
            ++ [match fs !! pf with
                | None => LOG_created pf
                | Some _ => WARN_provider_exists pf
                end]
            ++ patch_events root pf c ++ done_events stk.
Proof.
  destruct (detect_stack_Return JSON_parse fs []) as [stk Hd].
  rewrite (run_outcome _ pkg_files _ _ Hd).
  destruct (List.find _ candidates) as [root|] eqn:Hfind; [|discriminate].
  pose proof Hfind as [Hcand Hroot]%find_candidate.
  pose proof (candidates_not_created _ Hcand) as Hnc.
  pose proof (emit_template_effect pkg_files stk (regex_test re_ts_ext root)
                (State fs [LOG_detecting; LOG_stack stk; LOG_root root]))
    as (Hkeep & _ & Hret & _).
  cbv zeta in Hkeep, Hret. cbn [st_fs st_log] in Hkeep, Hret.
  destruct (emit_template _ _ _ _) as [pf s1|e s1|c s1] eqn:He;
    cbn [final_state] in *.
  - destruct (fs !! root) as [[c|]|] eqn:Hr; [|discriminate..].
    intros H. injection H as <-. exists stk, root, c.
    split; [done|]. split; [rewrite find_existing_spec; cbn [st_fs]; by rewrite Hfind|].
    split; [done|]. cbv zeta.
    destruct (Hret pf s1 eq_refl) as (-> & Hsrc & Htd & Hnone & Hsome).
    set (pf := providerFile_of (regex_test re_ts_ext root)) in *.
    pose proof (providerFile_created (regex_test re_ts_ext root)) as Hpfc.
    fold pf in Hpfc. cbn [st_fs st_log].
    assert (Hsrc' : lit "src" ∈ created_paths)
      by (unfold created_paths; rewrite !elem_of_cons; tauto).
    assert (Htd' : targetDir ∈ created_paths)
      by (unfold created_paths; rewrite !elem_of_cons; tauto).
    split; [apply lookup_insert_eq|].
    split; [rewrite lookup_insert_ne; [done|intros Heq; apply Hnc; rewrite Heq; assumption]|].
    split; [rewrite lookup_insert_ne; [done|intros Heq; apply Hnc; rewrite Heq; assumption]|].
    split; [|split].
    + intros n Hn. rewrite lookup_insert_ne; [by apply Hkeep|intros Heq; apply Hnc; rewrite Heq; assumption].
    + intros Hn. destruct (Hnone Hn) as (data & Hdata & Hpf & _).
      exists data. split; [done|].
      rewrite lookup_insert_ne; [done|intros Heq; apply Hnc; rewrite Heq; assumption].
    + destruct (fs !! pf) as [n|] eqn:Hpf.
      * rewrite Hsome by eauto. exact (eq_sym (app_assoc _ _ _)).
      * destruct (Hnone eq_refl) as (data & _ & _ & ->).
        exact (eq_sym (app_assoc _ _ _)).
  - discriminate.
  - by apply emit_template_no_exit in He.
Qed.

Lemma successful_run_witness :
  let fs : gmap jsstring node :=
    {[ lit "src/App.jsx" := File (lit "export default () => { return (<App/>); }") ]} in
  ∃ stk root c,
    detect_stack no_json (State fs []) = Return stk (State fs [])
    ∧ find_existing candidates (State fs []) = Return (Some root) (State fs [])
    ∧ fs !! root = Some (File c)
    ∧ let pf := providerFile_of (regex_test re_ts_ext root) in
      let s := fst (run no_json web_only fs) in
      st_fs s !! root = Some (File (patched_code stk root pf c))
      ∧ st_fs s !! lit "src" = Some Dir
      ∧ st_fs s !! targetDir = Some Dir
      ∧ (∀ n, fs !! pf = Some n → st_fs s !! pf = Some n)
      ∧ (fs !! pf = None →
           ∃ data, web_only !! template_of stk = Some data
                   ∧ st_fs s !! pf = Some (File data))
      ∧ st_log s
        = [LOG_detecting; LOG_stack stk; LOG_root root]
            ++ [match fs !! pf with
                | None => LOG_created pf
                | Some _ => WARN_provider_exists pf
                end]
            ++ patch_events root pf c ++ done_events stk.
Proof.
  intros fs.
  apply (successful_run no_json web_only fs (fst (run no_json web_only fs))).
  vm_compute. reflexivity.
Defined.

(** X8. A run that ends with exit status 1 has changed no entry that was
    in the file system, and the last thing it has printed is an error:
    that no root file was found, the file system then being as it was,
    or the exception that the handler caught. *)
Theorem failed_run_keeps_files JSON_parse pkg_files fs s :
  run JSON_parse pkg_files fs = (s, 1) →
  (∀ p n, fs !! p = Some n → st_fs s !! p = Some n)
  ∧ ((st_fs s = fs ∧ ∃ l, st_log s = l ++ [ERR_no_root])
     ∨ ∃ l e, st_log s = l ++ [ERR_caught e]).
Proof.
  destruct (detect_stack_Return JSON_parse fs []) as [stk Hd].
  rewrite (run_outcome _ pkg_files _ _ Hd).
  destruct (List.find _ candidates) as [root|] eqn:Hfind.
  2:{ intros [= <-]. cbn [st_fs st_log]. split; [done|]. left.
      split; [done|]. by exists [LOG_detecting; LOG_stack stk]. }
  pose proof (emit_template_effect pkg_files stk (regex_test re_ts_ext root)
                (State fs [LOG_detecting; LOG_stack stk; LOG_root root]))
    as (Hkeep & _ & _ & _).
  cbv zeta in Hkeep. cbn [st_fs] in Hkeep.
  destruct (emit_template _ _ _ _) as [pf s1|e s1|c s1] eqn:He;
    cbn [final_state] in *.
  - destruct (fs !! root) as [[c|]|] eqn:Hr; [discriminate|..];
      intros [= <-]; cbn [st_fs st_log]; (split; [done|]); right; eauto.
  - intros [= <-]. cbn [st_fs st_log]. split; [done|]. right. eauto.
  - by apply emit_template_no_exit in He.
Qed.

Lemma failed_run_keeps_files_witness :
  let fs : gmap jsstring node := {[ lit "App.js" := Dir ]} in
  let s := fst (run no_json web_only fs) in
  (∀ p n, fs !! p = Some n → st_fs s !! p = Some n)
  ∧ ((st_fs s = fs ∧ ∃ l, st_log s = l ++ [ERR_no_root])
     ∨ ∃ l e, st_log s = l ++ [ERR_caught e]).
Proof.
  intros fs.
  apply (failed_run_keeps_files no_json web_only fs
           (fst (run no_json web_only fs))).
  vm_compute. reflexivity.
Defined.

Lemma emit_template_not_blocked pkg_files stk usesTS s e s1 :
  (∀ d data, d ∈ [lit "src"; targetDir] → st_fs s !! d ≠ Some (File data)) →
  emit_template pkg_files stk usesTS s = Throw e s1 →
  e = ENOENT (template_of stk)
  ∧ pkg_files !! template_of stk = None
  ∧ st_fs s !! providerFile_of usesTS = None
  ∧ st_fs s1 !! providerFile_of usesTS = None
  ∧ st_fs s1 !! lit "src" = Some Dir
  ∧ st_fs s1 !! targetDir = Some Dir
  ∧ st_log s1 = st_log s.
Proof.
  intros Hdirs He.
  destruct (emit_template_effect pkg_files stk usesTS s) as (_ & _ & _ & Hthrow).
  destruct (Hthrow e s1 He) as (Hlog & [(d & _ & Hd & data & Hf)|H]).
  - destruct (Hdirs d data Hd Hf).
  - tauto.
Qed.

(** X9. When the template of the detected stack is not installed and
    the project has no provider file yet, the run makes the directories
    [src] and [src/nim-react-toastify], then fails in [readTemplate]: the
    handler prints the exception, the exit status is 1, no provider file
    is written and the root file is not touched. *)
Theorem missing_template_aborts JSON_parse pkg_files fs stk root :
  detect_stack JSON_parse (State fs []) = Return stk (State fs []) →
  find_existing candidates (State fs []) = Return (Some root) (State fs []) →
  (∀ d data, d ∈ [lit "src"; targetDir] → fs !! d ≠ Some (File data)) →
  let pf := providerFile_of (regex_test re_ts_ext root) in
  fs !! pf = None →
  pkg_files !! template_of stk = None →
  ∃ s, run JSON_parse pkg_files fs = (s, 1)
       ∧ st_log s = [LOG_detecting; LOG_stack stk; LOG_root root;
                     ERR_caught (ENOENT (template_of stk))]
       ∧ st_fs s !! lit "src" = Some Dir
       ∧ st_fs s !! targetDir = Some Dir
       ∧ st_fs s !! pf = None
       ∧ st_fs s !! root = fs !! root.
Proof.
  intros Hd Hfind Hdirs pf Hpf Htpl.
  apply find_existing_Return in Hfind.
  rewrite (run_outcome _ pkg_files _ _ Hd), Hfind.
  apply find_candidate in Hfind as [Hcand [n Hroot]].
  pose proof (emit_template_effect pkg_files stk (regex_test re_ts_ext root)
                (State fs [LOG_detecting; LOG_stack stk; LOG_root root]))
    as (Hkeep & _ & Hret & _).
  cbv zeta in Hkeep, Hret. cbn [st_fs] in Hkeep, Hret.
  destruct (emit_template _ _ _ _) as [r s1|e s1|c s1] eqn:He;
    cbn [final_state] in *.
  - destruct (Hret r s1 eq_refl) as (_ & _ & _ & Hnone & _).
    destruct (Hnone Hpf) as (data & Hdata & _). congruence.
  - apply emit_template_not_blocked in He as (-> & _ & _ & H1 & H2 & H3 & H4);
      [|done].
    eexists. split; [reflexivity|]. cbn [st_fs st_log] in *.
    rewrite H4. split; [done|]. split; [done|]. split; [done|].
    split; [done|]. rewrite Hroot. by apply Hkeep.
  - by apply emit_template_no_exit in He.
Qed.

Lemma missing_template_aborts_witness :
  let fs : gmap jsstring node := {[ lit "App.js" := File (lit "x") ]} in
  let pf := providerFile_of (regex_test re_ts_ext (lit "App.js")) in
  ∃ s, run no_json ∅ fs = (s, 1)
       ∧ st_log s = [LOG_detecting; LOG_stack React; LOG_root (lit "App.js");
                     ERR_caught (ENOENT (template_of React))]
       ∧ st_fs s !! lit "src" = Some Dir
       ∧ st_fs s !! targetDir = Some Dir
       ∧ st_fs s !! pf = None
       ∧ st_fs s !! lit "App.js" = fs !! lit "App.js".
Proof.
  intros fs.
  apply (missing_template_aborts no_json ∅ fs React (lit "App.js")).
  - vm_compute. reflexivity.
  - vm_compute. reflexivity.
  - intros d data Hd. rewrite !elem_of_cons, elem_of_nil in Hd.
    destruct Hd as [->|[->|[]]]; vm_compute; discriminate.
  - vm_compute. reflexivity.
  - apply lookup_empty.
Defined.

(** X10. [fs.existsSync] is true of a directory too: a directory at a
    candidate path is taken for the root file. The run then writes the
    provider file, fails when it reads the root, and ends with exit
    status 1. *)
Theorem directory_taken_for_root_file JSON_parse pkg_files fs stk root data :
  detect_stack JSON_parse (State fs []) = Return stk (State fs []) →
  find_existing candidates (State fs []) = Return (Some root) (State fs []) →
  fs !! root = Some Dir →
  (∀ d data, d ∈ [lit "src"; targetDir] → fs !! d ≠ Some (File data)) →
  let pf := providerFile_of (regex_test re_ts_ext root) in
  fs !! pf = None →
  pkg_files !! template_of stk = Some data →
  ∃ s, run JSON_parse pkg_files fs = (s, 1)
       ∧ st_log s = [LOG_detecting; LOG_stack stk; LOG_root root;
                     LOG_created pf; ERR_caught (EISDIR root)]
       ∧ st_fs s !! pf = Some (File data)
       ∧ st_fs s !! root = Some Dir.
Proof.
  intros Hd Hfind Hroot Hdirs pf Hpf Htpl.
  apply find_existing_Return in Hfind.
  rewrite (run_outcome _ pkg_files _ _ Hd), Hfind, Hroot.
  pose proof (emit_template_effect pkg_files stk (regex_test re_ts_ext root)
                (State fs [LOG_detecting; LOG_stack stk; LOG_root root]))
    as (Hkeep & _ & Hret & _).
  cbv zeta in Hkeep, Hret. cbn [st_fs st_log] in Hkeep, Hret.
  destruct (emit_template _ _ _ _) as [r s1|e s1|c s1] eqn:He;
    cbn [final_state] in *.
  - destruct (Hret r s1 eq_refl) as (-> & _ & _ & Hnone & _).
    destruct (Hnone Hpf) as (data' & Hdata & Hpf1 & Hlog).
    eexists. split; [reflexivity|]. cbn [st_fs st_log].
    rewrite Hlog. split; [done|]. split; [|by apply Hkeep].
    rewrite Htpl in Hdata. injection Hdata as <-. exact Hpf1.
  - apply emit_template_not_blocked in He as (_ & Hno & _); [|done]. congruence.
  - by apply emit_template_no_exit in He.
Qed.

Lemma directory_taken_for_root_file_witness :
  let fs : gmap jsstring node := {[ lit "App.js" := Dir ]} in
  let pf := providerFile_of (regex_test re_ts_ext (lit "App.js")) in
  ∃ s, run no_json web_only fs = (s, 1)
       ∧ st_log s = [LOG_detecting; LOG_stack React; LOG_root (lit "App.js");
                     LOG_created pf; ERR_caught (EISDIR (lit "App.js"))]
       ∧ st_fs s !! pf = Some (File (lit "WEB"))
       ∧ st_fs s !! lit "App.js" = Some Dir.
Proof.
  intros fs.
  apply (directory_taken_for_root_file no_json web_only fs React (lit "App.js")
           (lit "WEB")).
  - vm_compute. reflexivity.
  - vm_compute. reflexivity.
  - vm_compute. reflexivity.
  - intros d data Hd. rewrite !elem_of_cons, elem_of_nil in Hd.
    destruct Hd as [->|[->|[]]]; vm_compute; discriminate.
  - vm_compute. reflexivity.
  - vm_compute. reflexivity.
Defined.

(** ** When a run ends well *)

(** X11. A run ends with exit status 0 exactly when the first candidate
    that exists is a regular file, neither [src] nor
    [src/nim-react-toastify] is a regular file, and the provider file is
    already there or the template of the detected stack is installed
    (the file system failing in no other way than those of [readFileSync],
    [writeFileSync], [mkdirSync_recursive] and [readTemplate] above). *)
Theorem run_exit_status JSON_parse pkg_files fs stk :
  detect_stack JSON_parse (State fs []) = Return stk (State fs []) →
  snd (run JSON_parse pkg_files fs) = 0 ↔
  ∃ root c,
    find_existing candidates (State fs []) = Return (Some root) (State fs [])
    ∧ fs !! root = Some (File c)
    ∧ (∀ d data, d ∈ [lit "src"; targetDir] → fs !! d ≠ Some (File data))
    ∧ (is_Some (fs !! providerFile_of (regex_test re_ts_ext root))
       ∨ is_Some (pkg_files !! template_of stk)).
Proof.
  intros Hd. rewrite (run_outcome _ pkg_files _ _ Hd).
  destruct (List.find _ candidates) as [root|] eqn:Hfind.
  2:{ cbn [snd]. split; [done|]. intros (root & c & Hf & _).
      apply find_existing_Return in Hf. congruence. }
  set (pf := providerFile_of (regex_test re_ts_ext root)).
  pose proof (emit_template_effect pkg_files stk (regex_test re_ts_ext root)
                (State fs [LOG_detecting; LOG_stack stk; LOG_root root]))
    as (Hkeep & _ & Hret & Hthrow).
  cbv zeta in Hkeep, Hret, Hthrow. cbn [st_fs st_log] in Hkeep, Hret, Hthrow.
  fold pf in Hret, Hthrow.
  assert (Hroot_eq : ∀ root', find_existing candidates (State fs [])
                              = Return (Some root') (State fs []) → root' = root).
  { intros root' Hf. apply find_existing_Return in Hf. congruence. }
  destruct (emit_template _ _ _ _) as [r s1|e s1|c1 s1] eqn:He;
    cbn [final_state] in *.
  - destruct (Hret r s1 eq_refl) as (-> & Hsrc & Htd & Hnone & _).
    destruct (fs !! root) as [[c|]|] eqn:Hr; cbn [snd].
    + split; [intros _|done]. exists root, c.
      split; [rewrite find_existing_spec; cbn [st_fs]; by rewrite Hfind|].
      split; [done|]. split.
      * intros d data Hin Hf. apply Hkeep in Hf.
        rewrite !elem_of_cons, elem_of_nil in Hin.
        destruct Hin as [->|[->|[]]]; congruence.
      * fold pf. destruct (fs !! pf) as [n|] eqn:Hpf; [left; eauto|].
        destruct (Hnone eq_refl) as (data & Hdata & _). right. eauto.
    + split; [done|]. intros (root' & c & Hf & Hc & _).
      apply Hroot_eq in Hf as ->. congruence.
    + split; [done|]. intros (root' & c & Hf & Hc & _).
      apply Hroot_eq in Hf as ->. congruence.
  - cbn [snd]. split; [done|].
    intros (root' & c & Hf & _ & Hdirs & Hpf). apply Hroot_eq in Hf as ->.
    fold pf in Hpf.
    destruct (Hthrow e s1 eq_refl) as (_ & [(d & _ & Hin & data & Hfile)|H]).
    + destruct (Hdirs d data Hin Hfile).
    + destruct H as (_ & Hno & Hnone & _).
      destruct Hpf as [[n Hn]|[data Hdata]]; congruence.
  - by apply emit_template_no_exit in He.
Qed.

Lemma run_exit_status_witness :
  let fs : gmap jsstring node :=
    {[ lit "src/App.jsx" := File (lit "export default () => { return (<App/>); }") ]} in
  snd (run no_json web_only fs) = 0 ↔
  ∃ root c,
    find_existing candidates (State fs []) = Return (Some root) (State fs [])
    ∧ fs !! root = Some (File c)
    ∧ (∀ d data, d ∈ [lit "src"; targetDir] → fs !! d ≠ Some (File data))
    ∧ (is_Some (fs !! providerFile_of (regex_test re_ts_ext root))
       ∨ is_Some (web_only !! template_of React)).
Proof.
  intros fs.
  apply (run_exit_status no_json web_only fs React).
  vm_compute. reflexivity.
Defined.

(** ** Running the tool again *)

Lemma find_ext_in {A} (f g : A → bool) (l : list A) :
  (∀ x, x ∈ l → f x = g x) → List.find f l = List.find g l.
Proof.
  induction l as [|a l IH]; intros H; cbn [List.find]; [done|].
  rewrite (H a) by left. destruct (g a); [done|].
  apply IH. intros x Hx. apply H. by right.
Qed.

(** X12. After a run that ended with exit status 0, a second run on the
    file system it left ends with exit status 0 too, whatever templates
    are installed then: it locates the same root file, finds the provider
    file, says that it keeps it, and leaves both provider paths as they
    were. *)
Theorem rerun_succeeds JSON_parse pkg_files pkg_files' fs s :
  run JSON_parse pkg_files fs = (s, 0) →
  ∃ root s',
    find_existing candidates (State fs []) = Return (Some root) (State fs [])
    ∧ find_existing candidates (State (st_fs s) [])
      = Return (Some root) (State (st_fs s) [])
    ∧ run JSON_parse pkg_files' (st_fs s) = (s', 0)
    ∧ WARN_provider_exists (providerFile_of (regex_test re_ts_ext root))
      ∈ st_log s'
    ∧ ∀ usesTS,
        st_fs s' !! providerFile_of usesTS = st_fs s !! providerFile_of usesTS.
Proof.
  destruct (detect_stack_Return JSON_parse fs []) as [stk Hd].
  rewrite (run_outcome _ pkg_files _ _ Hd).
  destruct (List.find _ candidates) as [root|] eqn:Hfind; [|discriminate].
  pose proof Hfind as [Hcand Hroot]%find_candidate.
  pose proof (candidates_not_created _ Hcand) as Hnc.
  set (pf := providerFile_of (regex_test re_ts_ext root)).
  pose proof (emit_template_effect pkg_files stk (regex_test re_ts_ext root)
                (State fs [LOG_detecting; LOG_stack stk; LOG_root root]))
    as (Hkeep & Hnew & Hret & _).
  cbv zeta in Hkeep, Hnew, Hret. cbn [st_fs st_log] in Hkeep, Hnew, Hret.
  fold pf in Hnew, Hret.
  destruct (emit_template _ _ _ _) as [r s1|e s1|c s1] eqn:He;
    cbn [final_state] in *; [|discriminate|by apply emit_template_no_exit in He].
  destruct (fs !! root) as [[c|]|] eqn:Hr; [|discriminate..].
  intros H. injection H as <-. cbn [st_fs].
  destruct (Hret r s1 eq_refl) as (-> & Hsrc & Htd & Hnone & _).
  set (P := patched_code stk root pf c).
  set (fs2 := <[root := File P]> (st_fs s1)).
  assert (Hpfc : pf ∈ created_paths) by apply providerFile_created.
  assert (Hsrcc : lit "src" ∈ created_paths)
    by (unfold created_paths; rewrite !elem_of_cons; tauto).
  assert (Htdc : targetDir ∈ created_paths)
    by (unfold created_paths; rewrite !elem_of_cons; tauto).
  assert (Hne : ∀ q, q ∈ created_paths → root ≠ q).
  { intros q Hq Heq. apply Hnc. rewrite Heq. exact Hq. }
  assert (Hpf2 : is_Some (fs2 !! pf)).
  { unfold fs2. rewrite lookup_insert_ne by auto.
    destruct (fs !! pf) as [n|] eqn:Hpf; [rewrite (Hkeep _ _ Hpf); eauto|].
    destruct (Hnone eq_refl) as (data & _ & -> & _). eauto. }
  assert (Hsrc2 : fs2 !! lit "src" = Some Dir)
    by (unfold fs2; rewrite lookup_insert_ne by auto; done).
  assert (Htd2 : fs2 !! targetDir = Some Dir)
    by (unfold fs2; rewrite lookup_insert_ne by auto; done).
  assert (Hroot2 : fs2 !! root = Some (File P)) by apply lookup_insert_eq.
  assert (Hfind2 :
    List.find (λ p, bool_decide (is_Some (fs2 !! p))) candidates = Some root).
  { rewrite <- Hfind. apply find_ext_in. intros q Hq.
    apply bool_decide_ext. unfold fs2.
    destruct (decide (q = root)) as [->|Hqr].
    - rewrite lookup_insert_eq, Hr. split; eauto.
    - rewrite lookup_insert_ne by done. split.
      + intros Hs. destruct (fs !! q) as [n|] eqn:Hq'; [eauto|].
        specialize (Hnew q Hq' Hs).
        destruct (candidates_not_created _ Hq). unfold created_paths.
        rewrite !elem_of_cons in *. unfold pf in Hnew.
        destruct (regex_test re_ts_ext root); tauto.
      + intros [n Hn]. rewrite (Hkeep _ _ Hn). eauto. }
  exists root.
  destruct (detect_stack_Return JSON_parse fs2 []) as [stk2 Hd2].
  rewrite (run_outcome _ pkg_files' _ _ Hd2), Hfind2, Hroot2.
  pose proof (emit_template_effect pkg_files' stk2 (regex_test re_ts_ext root)
                (State fs2 [LOG_detecting; LOG_stack stk2; LOG_root root]))
    as (Hkeep2 & Hnew2 & Hret2 & Hthrow2).
  cbv zeta in Hkeep2, Hnew2, Hret2, Hthrow2.
  cbn [st_fs st_log] in Hkeep2, Hnew2, Hret2, Hthrow2.
  fold pf in Hnew2, Hret2, Hthrow2.
  destruct (emit_template pkg_files' _ _ _) as [r2 s2|e2 s2|c2 s2] eqn:He2;
    cbn [final_state] in *.
  - destruct (Hret2 r2 s2 eq_refl) as (-> & _ & _ & _ & Hlog2).
    eexists. split; [rewrite find_existing_spec; cbn [st_fs]; by rewrite Hfind|].
    split; [rewrite find_existing_spec; cbn [st_fs]; by rewrite Hfind2|].
    split; [reflexivity|]. cbn [st_fs st_log]. split.
    + rewrite (Hlog2 Hpf2). rewrite !elem_of_app, !elem_of_cons. tauto.
    + intros usesTS.
      assert (Hb : providerFile_of usesTS ∈ created_paths)
        by apply providerFile_created.
      rewrite lookup_insert_ne by auto.
      destruct (fs2 !! providerFile_of usesTS) as [n|] eqn:Hb2;
        [by apply Hkeep2|].
      destruct (st_fs s2 !! providerFile_of usesTS) as [n|] eqn:Hb3; [|done].
      exfalso. specialize (Hnew2 _ Hb2 ltac:(eauto)).
      rewrite !elem_of_cons, elem_of_nil in Hnew2.
      destruct Hnew2 as [E|[E|[E|[]]]].
      * rewrite E in Hb2. congruence.
      * rewrite E in Hb2. congruence.
      * rewrite E in Hb2. destruct Hpf2 as [? Hpf2]. congruence.
  - exfalso. destruct (Hthrow2 e2 s2 eq_refl) as (_ & [(d & _ & Hd' & data & Hf)|H]).
    + rewrite !elem_of_cons, elem_of_nil in Hd'.
      destruct Hd' as [->|[->|[]]]; congruence.
    + destruct H as (_ & _ & Hn & _). destruct Hpf2 as [? Hpf2]. congruence.
  - by apply emit_template_no_exit in He2.
Qed.

Lemma rerun_succeeds_witness :
  let fs : gmap jsstring node :=
    {[ lit "src/App.jsx" := File (lit "export default () => { return (<App/>); }") ]} in
  let s := fst (run no_json web_only fs) in
  ∃ root s',
    find_existing candidates (State fs []) = Return (Some root) (State fs [])
    ∧ find_existing candidates (State (st_fs s) [])
      = Return (Some root) (State (st_fs s) [])
    ∧ run no_json ∅ (st_fs s) = (s', 0)
    ∧ WARN_provider_exists (providerFile_of (regex_test re_ts_ext root))
      ∈ st_log s'
    ∧ ∀ usesTS,
        st_fs s' !! providerFile_of usesTS = st_fs s !! providerFile_of usesTS.
Proof.
  intros fs s.
  apply (rerun_succeeds no_json web_only ∅ fs s).
  vm_compute. reflexivity.
Defined.

(** ** The Next.js layout strategy *)

Lemma wrap_next_layout_steps code :
  wrap_next_layout code = next_layout_close (next_layout_open code).
Proof. reflexivity. Qed.

Lemma matches_with_Lit_with f s : ∀ pre m suf c,
  matches_with (Lit_with f s) pre m suf c
  → c = [] ∧ matches (Lit_with f s) pre m suf.
Proof.
  induction s as [|x s IH]; intros pre m suf c; cbn [Lit_with matches_with].
  - done.
  - intros (m1 & m2 & c1 & c2 & -> & -> & [-> H1] & H2).
    apply IH in H2 as [-> H2]. split; [done|]. cbn [matches].
    exists m1, m2. done.
Qed.

Lemma matches_with_LitI s pre m suf c :
  matches_with (LitI s) pre m suf c → c = [] ∧ same_ci s m.
Proof.
  intros [-> H]%matches_with_Lit_with. split; [done|]. by apply matches_LitI in H.
Qed.

Lemma matches_with_Seq a b pre m suf caps :
  matches_with (Seq a b) pre m suf caps ↔
  ∃ m1 m2 c1 c2,
    m = m1 ++ m2 ∧ caps = c1 ++ c2
    ∧ matches_with a pre m1 (m2 ++ suf) c1
    ∧ matches_with b (rev m1 ++ pre) m2 suf c2.
Proof. done. Qed.

Lemma matches_with_Star p pre m suf c :
  matches_with (Star p) pre m suf c ↔ c = [] ∧ forallb p m = true.
Proof. done. Qed.

Lemma matches_with_Cap_Star p pre m suf c :
  matches_with (Cap (Star p)) pre m suf c ↔ c = [m] ∧ forallb p m = true.
Proof.
  cbn [matches_with matches]. split.
  - intros (c0 & -> & -> & H). done.
  - intros [-> H]. exists []. done.
Qed.

Lemma matches_with_Chr a pre m suf c :
  matches_with (Chr (is_chr a)) pre m suf c ↔ c = [] ∧ m = [N_of_ascii a].
Proof.
  change (matches_with (Chr (is_chr a)) pre m suf c)
    with (c = [] ∧ matches (Chr (is_chr a)) pre m suf).
  rewrite matches_Chr. done.
Qed.

Lemma matches_with_Eps pre m suf c :
  matches_with Eps pre m suf c ↔ c = [] ∧ m = [].
Proof. done. Qed.

(** The pattern of the opening tags matches the texts described by
    [html_body_open_text], with these groups. *)
Lemma matches_with_html_body_open pre t rest caps :
  matches_with re_html_body_open pre t rest caps →
  ∃ a b, caps = [a; b] ∧ html_body_open_text t a b.
Proof.
  unfold re_html_body_open, Seqs.
  intros (kw & ? & ? & ? & -> & -> & [-> Hkw]%matches_with_LitI & H)%matches_with_Seq.
  apply matches_with_Seq in H
    as (ws1 & ? & ? & ? & -> & -> & [-> Hws1]%matches_with_Star & H).
  apply matches_with_Seq in H
    as (? & ? & ? & ? & -> & -> & [-> ->]%matches_with_Chr & H).
  apply matches_with_Seq in H
    as (ws2 & ? & ? & ? & -> & -> & [-> Hws2]%matches_with_Star & H).
  apply matches_with_Seq in H
    as (h & ? & ? & ? & -> & -> & [-> Hh]%matches_with_LitI & H).
  apply matches_with_Seq in H
    as (a & ? & ? & ? & -> & -> & [-> Ha]%matches_with_Cap_Star & H).
  apply matches_with_Seq in H
    as (? & ? & ? & ? & -> & -> & [-> ->]%matches_with_Chr & H).
  apply matches_with_Seq in H
    as (ws3 & ? & ? & ? & -> & -> & [-> Hws3]%matches_with_Star & H).
  apply matches_with_Seq in H
    as (bd & ? & ? & ? & -> & -> & [-> Hbd]%matches_with_LitI & H).
  apply matches_with_Seq in H
    as (b & ? & ? & ? & -> & -> & [-> Hb]%matches_with_Cap_Star & H).
  apply matches_with_Seq in H
    as (? & ? & ? & ? & -> & -> & [-> ->]%matches_with_Chr & [-> ->]%matches_with_Eps).
  exists a, b. split; [done|].
  exists kw, ws1, ws2, h, ws3, bd. rewrite app_nil_r. done.
Qed.

Lemma matches_Seq_intro a b pre m1 m2 suf :
  matches a pre m1 (m2 ++ suf) → matches b (rev m1 ++ pre) m2 suf →
  matches (Seq a b) pre (m1 ++ m2) suf.
Proof. intros Ha Hb. exists m1, m2. done. Qed.

Lemma matches_html_body_open pre t a b rest :
  html_body_open_text t a b → matches re_html_body_open pre t rest.
Proof.
  intros (kw & ws1 & ws2 & h & ws3 & bd & -> & Hkw & Hws1 & Hws2 & Hh & Ha
          & Hws3 & Hbd & Hb).
  unfold re_html_body_open, Seqs.
  apply matches_Seq_intro; [by apply matches_LitI|].
  apply matches_Seq_intro; [done|].
  apply matches_Seq_intro; [by apply matches_Chr|].
  apply matches_Seq_intro; [done|].
  apply matches_Seq_intro; [by apply matches_LitI|].
  apply matches_Seq_intro; [done|].
  apply matches_Seq_intro; [by apply matches_Chr|].
  apply matches_Seq_intro; [done|].
  apply matches_Seq_intro; [by apply matches_LitI|].
  apply matches_Seq_intro; [done|].
  rewrite <- (app_nil_r (lit ">")).
  apply matches_Seq_intro; [by apply matches_Chr|]. done.
Qed.

(** *** Reading a text from the left *)

Lemma span_inj (p : char → bool) u u' c c' x x' :
  forallb p u = true → forallb p u' = true → p c = false → p c' = false →
  u ++ c :: x = u' ++ c' :: x' → u = u' ∧ c = c' ∧ x = x'.
Proof.
  revert u'. induction u as [|d u IH]; intros [|d' u'] Hu Hu' Hc Hc' H;
    cbn [app forallb] in *.
  - injection H as -> ->. done.
  - injection H as -> _. apply andb_true_iff in Hu' as [Hd _]. congruence.
  - injection H as -> _. apply andb_true_iff in Hu as [Hd _]. congruence.
  - injection H as -> H. apply andb_true_iff in Hu as [_ Hu].
    apply andb_true_iff in Hu' as [_ Hu'].
    destruct (IH u' Hu Hu' Hc Hc' H) as (-> & -> & ->). done.
Qed.

Lemma same_ci_inj s t t' x x' :
  same_ci s t → same_ci s t' → t ++ x = t' ++ x' → t = t' ∧ x = x'.
Proof.
  intros [Hl _] [Hl' _] H. apply app_inj_1 in H; [done|congruence].
Qed.

Lemma is_ci_lt c : is_ci "<" c = true → c = lt_chr.
Proof. unfold is_ci. cbn. intros H. apply N.eqb_eq in H. exact H. Qed.

Lemma same_ci_lt s t :
  same_ci (String "<" s) t → ∃ t', t = lt_chr :: t'.
Proof.
  intros [Hl Hm]. destruct t as [|c t]; [done|].
  cbn [match_chars] in Hm. apply andb_true_iff in Hm as [Hc _].
  apply is_ci_lt in Hc as ->. eauto.
Qed.

Lemma html_body_open_text_inj t a b rest t' a' b' rest' :
  html_body_open_text t a b → html_body_open_text t' a' b' →
  t ++ rest = t' ++ rest' → t = t' ∧ a = a' ∧ b = b' ∧ rest = rest'.
Proof.
  intros (kw & ws1 & ws2 & h & ws3 & bd & -> & Hkw & Hws1 & Hws2 & Hh & Ha
          & Hws3 & Hbd & Hb)
         (kw' & ws1' & ws2' & h' & ws3' & bd' & -> & Hkw' & Hws1' & Hws2' & Hh'
          & Ha' & Hws3' & Hbd' & Hb') H.
  rewrite <- !app_assoc in H.
  apply (same_ci_inj _ _ _ _ _ Hkw Hkw') in H as [-> H].
  change (lit "(" ++ ?x) with (N_of_ascii "(" :: x) in H.
  apply (span_inj is_space) in H as (-> & _ & H);
    [|first [assumption|reflexivity]..].
  destruct (same_ci_lt _ _ Hh) as [h1 E], (same_ci_lt _ _ Hh') as [h1' E'].
  rewrite E, E' in H. cbn [app] in H.
  apply (span_inj is_space) in H as (-> & _ & H);
    [|first [assumption|reflexivity]..].
  assert (H' : h ++ a ++ lit ">" ++ ws3 ++ bd ++ b ++ lit ">" ++ rest
               = h' ++ a' ++ lit ">" ++ ws3' ++ bd' ++ b' ++ lit ">" ++ rest').
  { rewrite E, E'. cbn [app]. f_equal. exact H. }
  clear H E E' h1 h1'.
  apply (same_ci_inj _ _ _ _ _ Hh Hh') in H' as [-> H].
  change (lit ">" ++ ?x) with (N_of_ascii ">" :: x) in H.
  apply (span_inj not_gt) in H as (-> & _ & H);
    [|first [assumption|reflexivity]..].
  destruct (same_ci_lt _ _ Hbd) as [d1 E], (same_ci_lt _ _ Hbd') as [d1' E'].
  rewrite E, E' in H. cbn [app] in H.
  apply (span_inj is_space) in H as (-> & _ & H);
    [|first [assumption|reflexivity]..].
  assert (H' : bd ++ b ++ lit ">" ++ rest = bd' ++ b' ++ lit ">" ++ rest').
  { rewrite E, E'. cbn [app]. f_equal. exact H. }
  clear H E E' d1 d1'.
  apply (same_ci_inj _ _ _ _ _ Hbd Hbd') in H' as [-> H].
  change (lit ">" ++ ?x) with (N_of_ascii ">" :: x) in H.
  apply (span_inj not_gt) in H as (-> & _ & ->);
    [|first [assumption|reflexivity]..].
  done.
Qed.

(** X13. The first replacement of the Next.js strategy. Where the
    pattern first matches a text [t] of the file, with the attribute
    texts [a] and [b], [t] is replaced by [return (<html a><body b>]
    followed by the opening provider tag: the attributes are kept, the
    white space between the pieces is dropped and the words [return],
    [html] and [body] come out in lower case; the rest of the file is
    unchanged. A file in which no text has the form of the pattern is
    left as it is. *)
Theorem next_layout_open_spec code :
  (∀ pre t a b rest,
     code = pre ++ t ++ rest →
     html_body_open_text t a b →
     (∀ pre' t' a' b' rest',
        code = pre' ++ t' ++ rest' → html_body_open_text t' a' b' →
        length pre ≤ length pre') →
     next_layout_open code
     = pre ++ lit "return (<html" ++ a ++ lit "><body" ++ b
           ++ lit "><NotificationsProvider>" ++ rest)
  ∧ ((∀ pre t a b rest,
        code = pre ++ t ++ rest → ¬ html_body_open_text t a b) →
     next_layout_open code = code).
Proof.
  split.
  - intros pre t a b rest Hcode Ht Hfirst.
    unfold next_layout_open, regex_replace.
    destruct (regex_match re_html_body_open code) as [mo|] eqn:E.
    2:{ apply regex_match_None_matches in E. destruct E.
        exists pre, t, rest. split; [done|].
        eapply matches_html_body_open. done. }
    destruct (regex_match_sound_caps _ _ _ E)
      as (rest' & Hs & Hlen & Hm & Hleft).
    apply matches_with_html_body_open in Hm as (a' & b' & Hcaps & Ht').
    pose proof (Hleft pre t rest Hcode
                  (matches_html_body_open _ _ _ _ _ Ht)) as Hle.
    pose proof (Hfirst _ _ _ _ _ Hs Ht') as Hge. rewrite Hlen in Hge.
    assert (Hi : m_index mo = length pre) by lia.
    remember (take (m_index mo) code) as pre0 eqn:Hpre0.
    assert (Hd : drop (m_index mo + length (m_text mo)) code = rest').
    { rewrite Hs, <- Hlen, <- length_app, app_assoc. apply drop_app_length. }
    rewrite Hd. clear Hd.
    assert (pre0 = pre) as ->.
    { rewrite Hpre0, Hi, Hcode, take_app_length. done. }
    rewrite Hcode in Hs. apply app_inv_head in Hs.
    destruct (html_body_open_text_inj _ _ _ _ _ _ _ _ Ht Ht' Hs)
      as (_ & <- & <- & <-).
    unfold html_body_opening. rewrite Hcaps. cbn [nth].
    rewrite <- !app_assoc. reflexivity.
  - intros Hno. unfold next_layout_open, regex_replace.
    destruct (regex_match re_html_body_open code) as [mo|] eqn:E; [|done].
    destruct (regex_match_sound_caps _ _ _ E) as (rest' & Hs & _ & Hm & _).
    apply matches_with_html_body_open in Hm as (a' & b' & _ & Ht').
    destruct (Hno _ _ _ _ _ Hs Ht').
Qed.

(** *** The closing tags *)

Lemma matches_html_body_close pre t rest :
  matches re_html_body_close pre t rest ↔ html_body_close_text t ∧ rest = [].
Proof.
  unfold re_html_body_close, Seqs. split.
  - intros (bd & ? & -> & Hbd%matches_LitI & H)%matches_Seq.
    apply matches_Seq in H as (ws1 & ? & -> & Hws1 & H).
    apply matches_Seq in H as (h & ? & -> & Hh%matches_LitI & H).
    apply matches_Seq in H as (ws2 & ? & -> & Hws2 & H).
    apply matches_Seq in H as (? & ? & -> & ->%matches_Chr & H).
    apply matches_Seq in H as (ws3 & ? & -> & Hws3 & H).
    apply matches_Seq in H as (semi & ? & -> & Hsemi%matches_Opt & H).
    apply matches_Seq in H as (ws4 & ? & -> & Hws4 & [-> ->]%matches_Eos_Eps).
    split; [|done]. exists bd, ws1, h, ws2, ws3, semi, ws4.
    rewrite app_nil_r. done.
  - intros [(bd & ws1 & h & ws2 & ws3 & semi & ws4 & -> & Hbd & Hws1 & Hh & Hws2
             & Hws3 & Hsemi & Hws4) ->].
    apply matches_Seq_intro; [by apply matches_LitI|].
    apply matches_Seq_intro; [done|].
    apply matches_Seq_intro; [by apply matches_LitI|].
    apply matches_Seq_intro; [done|].
    apply matches_Seq_intro; [by apply matches_Chr|].
    apply matches_Seq_intro; [done|].
    apply matches_Seq_intro; [by apply matches_Opt|].
    rewrite <- (app_nil_r ws4).
    apply matches_Seq_intro; [rewrite app_nil_r; done|].
    apply matches_Eos_Eps. done.
Qed.

(** The number of [<] in a text. *)
Lemma is_ci_is_lt x c :
  is_ci x c = true → is_chr "<" c = is_chr "<" (N_of_ascii x).
Proof.
  unfold is_ci, is_chr. change (N_of_ascii "<") with 60%N.
  set (n := N_of_ascii x). clearbody n.
  destruct (N.leb_spec 65 n), (N.leb_spec n 90), (N.leb_spec 97 n),
    (N.leb_spec n 122); cbn [andb];
    rewrite ?orb_true_iff, ?N.eqb_eq; intros Hor;
    destruct (N.eqb_spec c 60), (N.eqb_spec n 60); try reflexivity; lia.
Qed.

Lemma same_ci_count_lt s : ∀ t,
  same_ci s t →
  length (List.filter (is_chr "<") t)
  = length (List.filter (is_chr "<") (lit s)).
Proof.
  unfold same_ci.
  induction s as [|x s IH]; intros [|c t] [Hl Hm]; try done.
  cbn [match_chars] in Hm. apply andb_true_iff in Hm as [Hc Hm].
  change (lit (String x s)) with (N_of_ascii x :: lit s).
  cbn [List.filter]. rewrite (is_ci_is_lt _ _ Hc).
  cbn [length String.length] in Hl.
  destruct (is_chr "<" (N_of_ascii x)); cbn [length]; rewrite (IH t); auto.
Qed.

Lemma spaces_count_lt ws :
  spaces ws → length (List.filter (is_chr "<") ws) = 0.
Proof.
  unfold spaces. induction ws as [|c ws IH]; [done|].
  cbn [forallb List.filter]. intros [Hc Hws]%andb_true_iff.
  rewrite (space_not_chr "<" c) by done. auto.
Qed.

Lemma html_body_close_text_count_lt t :
  html_body_close_text t →
  length (List.filter (is_chr "<") t) = 2 ∧ ∃ t1, t = lt_chr :: t1.
Proof.
  intros (bd & ws1 & h & ws2 & ws3 & semi & ws4 & -> & Hbd & Hws1 & Hh & Hws2
          & Hws3 & Hsemi & Hws4).
  split.
  - rewrite !List.filter_app, !length_app.
    rewrite (same_ci_count_lt _ _ Hbd), (same_ci_count_lt _ _ Hh).
    rewrite (spaces_count_lt ws1), (spaces_count_lt ws2),
      (spaces_count_lt ws3), (spaces_count_lt ws4) by assumption.
    destruct Hsemi as [-> | ->]; reflexivity.
  - destruct (same_ci_lt _ _ Hbd) as [b1 ->]. eauto.
Qed.

(** At most one end of a string is a text of closing tags. *)
Lemma html_body_close_text_suffix x t x' t' :
  x ++ t = x' ++ t' →
  html_body_close_text t → html_body_close_text t' → x = x' ∧ t = t'.
Proof.
  intros H Ht Ht'.
  destruct (html_body_close_text_count_lt _ Ht) as [Hn [t1 E]].
  destruct (html_body_close_text_count_lt _ Ht') as [Hn' [t1' E']].
  apply app_eq_inv in H as [(k & -> & Hk)|(k & -> & Hk)].
  - destruct k as [|c k]; [rewrite app_nil_r; done|].
    exfalso. rewrite Hk in Hn'. rewrite E' in Hk. cbn [app] in Hk.
    injection Hk as <- _. rewrite List.filter_app, length_app in Hn'.
    cbn [List.filter] in Hn'. change (is_chr "<" lt_chr) with true in Hn'.
    cbn [length] in Hn'. lia.
  - destruct k as [|c k]; [rewrite app_nil_r; done|].
    exfalso. rewrite Hk in Hn. rewrite E in Hk. cbn [app] in Hk.
    injection Hk as <- _. rewrite List.filter_app, length_app in Hn.
    cbn [List.filter] in Hn. change (is_chr "<" lt_chr) with true in Hn.
    cbn [length] in Hn. lia.
Qed.

(** *** The last character that is not white space *)

Lemma forallb_rev_true {A} (f : A → bool) l :
  forallb f l = true → forallb f (rev l) = true.
Proof.
  rewrite !forallb_forall. intros H x Hx. apply H. by apply in_rev.
Qed.

Lemma last_nonspace_unique s c c' :
  last_nonspace s c → last_nonspace s c' → c = c'.
Proof.
  intros (body & ws & -> & Hc & Hws) (body' & ws' & H & Hc' & Hws').
  apply (f_equal (λ l, rev l)) in H. cbv beta in H.
  rewrite !rev_app_distr in H. cbn [rev] in H. rewrite <- !app_assoc in H.
  cbn [app] in H.
  apply (span_inj is_space) in H as (_ & -> & _);
    [done|by apply forallb_rev_true..|done|done].
Qed.

Lemma last_nonspace_app x s c : last_nonspace s c → last_nonspace (x ++ s) c.
Proof.
  intros (body & ws & -> & Hc & Hws). exists (x ++ body), ws.
  rewrite <- app_assoc. done.
Qed.

Lemma html_body_close_text_last t :
  html_body_close_text t →
  last_nonspace t (N_of_ascii ")") ∨ last_nonspace t (N_of_ascii ";").
Proof.
  intros (bd & ws1 & h & ws2 & ws3 & semi & ws4 & -> & Hbd & Hws1 & Hh & Hws2
          & Hws3 & [-> | ->] & Hws4).
  - left. exists (bd ++ ws1 ++ h ++ ws2), (ws3 ++ ws4).
    rewrite <- !app_assoc. split; [done|]. split; [done|].
    unfold spaces in *. rewrite forallb_app, Hws3, Hws4. done.
  - right. exists (bd ++ ws1 ++ h ++ ws2 ++ lit ")" ++ ws3), ws4.
    rewrite <- !app_assoc. done.
Qed.

(** After a replacement whose text ends with [g], the last character that
    is not white space is the one of before, or [g]. *)
Lemma regex_replace_last_nonspace r f g code c :
  (∀ mo, ∃ y, f mo = y ++ [g]) → is_space g = false →
  last_nonspace code c →
  last_nonspace (regex_replace r f code) c
  ∨ last_nonspace (regex_replace r f code) g.
Proof.
  intros Hf Hg Hlast. unfold regex_replace.
  destruct (regex_match r code) as [mo|] eqn:E; [|by left].
  destruct (regex_match_Some _ _ _ E) as (rest & Hs & Hlen & _).
  remember (take (m_index mo) code) as pre0 eqn:Hpre0. clear Hpre0.
  assert (Hd : drop (m_index mo + length (m_text mo)) code = rest).
  { rewrite Hs, <- Hlen, <- length_app, app_assoc. apply drop_app_length. }
  rewrite Hd. clear Hd Hlen. destruct (Hf mo) as [y ->].
  destruct Hlast as (body & ws & Hcode & Hc & Hws).
  rewrite Hcode, app_assoc in Hs.
  apply app_eq_inv in Hs as [(k & Hb & Hr)|(k & Hb & Hr)].
  - left. subst rest. exists (pre0 ++ y ++ [g] ++ k), ws.
    rewrite <- !app_assoc. done.
  - destruct k as [|d k].
    + cbn [app] in Hr. subst rest. left.
      exists (pre0 ++ y ++ [g]), ws. rewrite <- !app_assoc. done.
    + injection Hr as <- ->. right. unfold spaces in Hws.
      rewrite forallb_app in Hws. apply andb_true_iff in Hws as [_ Hws].
      exists (pre0 ++ y), rest. rewrite <- !app_assoc. done.
Qed.

Lemma html_body_opening_last mo :
  ∃ y, html_body_opening mo = y ++ [N_of_ascii ">"].
Proof.
  unfold html_body_opening. cbv zeta.
  exists (lit "return (<html" ++ nth 0 (m_groups mo) [] ++ lit "><body"
          ++ nth 1 (m_groups mo) [] ++ lit "><" ++ providerName).
  rewrite <- !app_assoc. reflexivity.
Qed.

(** X14. The second replacement of the Next.js strategy only looks at
    the end of the file: closing tags [</body>], [</html>] and a closing
    parenthesis that end the file, up to white space and one semicolon,
    are replaced, together with that semicolon and white space, by the
    closing provider tag and [</body></html>)]. A file that does not end
    so is left as it is; such is every file whose last character other
    than white space is neither a closing parenthesis nor a semicolon. *)
Theorem next_layout_close_spec code :
  (∀ x t, code = x ++ t → html_body_close_text t →
          next_layout_close code
          = x ++ lit "</NotificationsProvider></body></html>)")
  ∧ ((∀ x t, code = x ++ t → ¬ html_body_close_text t) →
     next_layout_close code = code)
  ∧ (∀ c, last_nonspace code c → c ≠ N_of_ascii ")" → c ≠ N_of_ascii ";" →
          next_layout_close code = code).
Proof.
  unfold next_layout_close.
  destruct (regex_replace_at_end re_html_body_close html_body_close_text
              html_body_closing code matches_html_body_close)
    as [(x0 & t0 & Hcode & Ht0 & ->)|[Hno ->]].
  - split; [|split].
    + intros x t Hx Ht. rewrite Hcode in Hx.
      destruct (html_body_close_text_suffix _ _ _ _ Hx Ht0 Ht) as [-> _].
      reflexivity.
    + intros Hno. destruct (Hno x0 t0 Hcode Ht0).
    + intros c Hc H1 H2. exfalso.
      apply html_body_close_text_last in Ht0.
      destruct Ht0 as [Hl|Hl];
        apply (last_nonspace_app x0) in Hl; rewrite <- Hcode in Hl;
        pose proof (last_nonspace_unique _ _ _ Hc Hl); done.
  - split; [|split]; [|done..].
    intros x t Hx Ht. destruct (Hno x t Hx Ht).
Qed.

(** X15. On a file whose last character other than white space is
    neither a closing parenthesis nor a semicolon, so on every file that
    ends with the closing brace of a function, the Next.js strategy puts
    in no closing provider tag: its result is that of the first
    replacement alone. *)
Theorem next_layout_unbalanced code c :
  last_nonspace code c → c ≠ N_of_ascii ")" → c ≠ N_of_ascii ";" →
  wrap_next_layout code = next_layout_open code.
Proof.
  intros Hc H1 H2. rewrite wrap_next_layout_steps.
  assert (∃ c', last_nonspace (next_layout_open code) c'
                ∧ c' ≠ N_of_ascii ")" ∧ c' ≠ N_of_ascii ";")
    as (c' & Hc' & H1' & H2').
  { destruct (regex_replace_last_nonspace re_html_body_open html_body_opening
                (N_of_ascii ">") code c html_body_opening_last eq_refl Hc)
      as [H|H]; [by exists c|].
    exists (N_of_ascii ">"). split; [done|]. split; discriminate. }
  unfold next_layout_close.
  destruct (regex_replace_at_end re_html_body_close html_body_close_text
              html_body_closing (next_layout_open code) matches_html_body_close)
    as [(x0 & t0 & Hcode & Ht0 & _)|[_ ->]]; [|done].
  exfalso. apply html_body_close_text_last in Ht0.
  destruct Ht0 as [Hl|Hl];
    apply (last_nonspace_app x0) in Hl; rewrite <- Hcode in Hl;
    pose proof (last_nonspace_unique _ _ _ Hc' Hl); done.
Qed.

Lemma html_body_open_first code mo :
  regex_match re_html_body_open code = Some mo →
  ∀ pre' t' a' b' rest',
    code = pre' ++ t' ++ rest' → html_body_open_text t' a' b' →
    m_index mo ≤ length pre'.
Proof.
  intros E pre' t' a' b' rest' Hcode Ht'.
  destruct (regex_match_sound_caps _ _ _ E) as (_ & _ & _ & _ & Hleft).
  eapply Hleft; [exact Hcode|]. eapply matches_html_body_open. exact Ht'.
Qed.

Lemma next_layout_open_spec_witness :
  let pre := lit "function L({ children }) { " in
  let t := lit "return ( <Html Lang=en> <body>" in
  let rest := lit "{children}</body></html>); }" in
  html_body_open_text t (lit " Lang=en") []
  ∧ next_layout_open (pre ++ t ++ rest)
    = pre ++ lit "return (<html" ++ lit " Lang=en" ++ lit "><body" ++ []
          ++ lit "><NotificationsProvider>" ++ rest.
Proof.
  intros pre t rest.
  assert (Ht : html_body_open_text t (lit " Lang=en") []).
  { exists (lit "return"), (lit " "), (lit " "), (lit "<Html"), (lit " "),
      (lit "<body").
    repeat split; vm_compute; reflexivity. }
  split; [exact Ht|].
  apply (proj1 (next_layout_open_spec (pre ++ t ++ rest))
           pre t (lit " Lang=en") [] rest eq_refl Ht).
  apply (html_body_open_first (pre ++ t ++ rest)
           (JsMatch 27 t [lit " Lang=en"; []])).
  vm_compute. reflexivity.
Defined.

Lemma next_layout_unbalanced_witness :
  let code :=
    lit "export default function L({ children }) { return (<html><body>{children}</body></html>); }" in
  wrap_next_layout code = next_layout_open code.
Proof.
  intros code.
  apply (next_layout_unbalanced code (N_of_ascii "}")); [|discriminate..].
  exists (lit "export default function L({ children }) { return (<html><body>{children}</body></html>); "), [].
  repeat split; vm_compute; reflexivity.
Defined.

(** A layout that is a function declaration, after the strategy: an
    opening provider tag and no closing one. *)
Example next_layout_function_declaration :
  wrap_next_layout
    (lit "export default function L({ children }) { return (<html><body>{children}</body></html>); }")
  = lit "export default function L({ children }) { return (<html><body><NotificationsProvider>{children}</body></html>); }".
Proof. vm_compute. reflexivity. Qed.

(** ** The guard of the import step *)

Lemma matches_import_guard pre t rest :
  matches re_import_guard pre t rest ↔ import_guard_text t.
Proof.
  unfold re_import_guard, Seqs. split.
  - intros (? & ? & -> & ->%matches_Lit & H)%matches_Seq.
    apply matches_Seq in H as (ws1 & ? & -> & Hws1 & H).
    apply matches_Seq in H as (? & ? & -> & ->%matches_Chr & H).
    apply matches_Seq in H as (ws2 & ? & -> & Hws2 & H).
    apply matches_Seq in H as (? & ? & -> & ->%matches_Lit & H).
    apply matches_Seq in H as (ws3 & ? & -> & Hws3 & H).
    apply matches_Seq in H as (? & ? & -> & ->%matches_Chr & ->).
    exists ws1, ws2, ws3. done.
  - intros (ws1 & ws2 & ws3 & -> & Hws1 & Hws2 & Hws3).
    apply matches_Seq_intro; [by apply matches_Lit|].
    apply matches_Seq_intro; [done|].
    apply matches_Seq_intro; [by apply matches_Chr|].
    apply matches_Seq_intro; [done|].
    apply matches_Seq_intro; [by apply matches_Lit|].
    apply matches_Seq_intro; [done|].
    rewrite <- (app_nil_r (lit "}")).
    apply matches_Seq_intro; [by apply matches_Chr|]. done.
Qed.

Lemma regex_test_import_guard code :
  regex_test re_import_guard code = true
  ↔ ∃ t, import_guard_text t ∧ occurs t code.
Proof.
  rewrite regex_test_matches. unfold matches_somewhere, occurs. split.
  - intros (a & m & b & -> & H%matches_import_guard). eauto.
  - intros (t & Ht & a & b & ->). exists a, t, b. split; [done|].
    by apply matches_import_guard.
Qed.

(** X16. The import step inserts the import line exactly when the file
    contains neither that line nor, anywhere, the word [import] followed
    by [NotificationsProvider] alone between braces, white space being
    allowed around the braces and the name: an import of the name from
    any module, wherever it stands in the file, makes the step leave the
    file as it is. *)
Theorem import_guard_spec importLine code :
  (import_missing importLine code = true
   ↔ ¬ occurs importLine code
     ∧ ¬ ∃ t, import_guard_text t ∧ occurs t code)
  ∧ ((∃ t, import_guard_text t ∧ occurs t code) →
     import_step importLine code = code)
  ∧ (occurs importLine code → import_step importLine code = code).
Proof.
  unfold import_step, import_missing.
  pose proof (includes_occurs importLine code) as Hi.
  pose proof (regex_test_import_guard code) as Hg.
  destruct (includes code importLine), (regex_test re_import_guard code);
    cbn [negb andb].
  - split; [|done]. split; [done|]. intros [H _]. destruct H. by apply Hi.
  - split; [|done]. split; [done|]. intros [H _]. destruct H. by apply Hi.
  - split; [|done]. split; [done|]. intros [_ H]. destruct H. by apply Hg.
  - split; [|split].
    + split; [|done]. intros _. split.
      * intros H%Hi. done.
      * intros H%Hg. done.
    + intros H%Hg. done.
    + intros H%Hi. done.
Qed.

Lemma import_guard_spec_witness :
  let code := lit "import {NotificationsProvider} from 'elsewhere'" in
  (∃ t, import_guard_text t ∧ occurs t code)
  ∧ import_step (importLine_of (lit "App.jsx") (providerFile_of false)) code
    = code.
Proof.
  intros code.
  assert (H : ∃ t, import_guard_text t ∧ occurs t code).
  { exists (lit "import {NotificationsProvider}"). split.
    - exists (lit " "), [], []. repeat split; vm_compute; reflexivity.
    - exists [], (lit " from 'elsewhere'"). vm_compute. reflexivity. }
  split; [exact H|].
  apply (proj1 (proj2 (import_guard_spec
                         (importLine_of (lit "App.jsx") (providerFile_of false))
                         code))).
  exact H.
Defined.

(** ** A root file without [return (] *)

Lemma return_jsx_at_return_paren_at code j :
  return_jsx_at code j → return_paren_at code j.
Proof.
  intros (pre & Z & c & rest & -> & (ws1 & ws2 & -> & Hws1 & Hws2) & _ & Hlen).
  exists pre, ws1, (ws2 ++ lt_chr :: c :: rest). split; [|done].
  rewrite <- !app_assoc. reflexivity.
Qed.

(** X17. When the root file, after the import step, has no [return]
    followed by an opening parenthesis (a component that returns its JSX
    without parentheses, say) and the Next.js strategy is not chosen,
    nothing is wrapped: the text written back is the one the import step
    produced, with no provider tag added, and the run still prints the
    fallback warning followed by the message that the file was updated. *)
Theorem no_return_paren_no_wrapper stk rootPath providerFile c :
  let code := import_step (importLine_of rootPath providerFile) c in
  (∀ i, ¬ return_paren_at code i) →
  is_next_layout stk code = false →
  patched_code stk rootPath providerFile c = code
  ∧ patch_events rootPath providerFile c
    = [import_event (importLine_of rootPath providerFile) c;
       WARN_fallback; LOG_updated rootPath].
Proof.
  intros code Hno Hnext.
  assert (Hw : wrapJSXReturn code providerName = code).
  { apply wrapJSXReturn_no_match. intros j Hj.
    apply (Hno j). by apply return_jsx_at_return_paren_at. }
  assert (Ht : regex_test re_return_paren code = false).
  { apply not_true_iff_false. intros [i Hi]%regex_test_return_paren.
    exact (Hno i Hi). }
  unfold patched_code, patch_events. cbv zeta. fold code.
  rewrite Hw. unfold jsstring_eqb. rewrite bool_decide_eq_true_2 by done.
  unfold fallback_wrap. rewrite Hnext, Ht. done.
Qed.

Lemma no_return_paren_no_wrapper_witness :
  let c := lit "export default () => <App/>;" in
  let il := importLine_of (lit "App.jsx") (providerFile_of false) in
  patched_code React (lit "App.jsx") (providerFile_of false) c
  = import_step il c
  ∧ patch_events (lit "App.jsx") (providerFile_of false) c
    = [import_event il c; WARN_fallback; LOG_updated (lit "App.jsx")].
Proof.
  intros c il.
  apply (no_return_paren_no_wrapper React (lit "App.jsx") (providerFile_of false) c).
  - intros i Hi. apply (ex_intro (λ i, return_paren_at _ i)) in Hi.
    apply regex_test_return_paren in Hi. vm_compute in Hi. discriminate Hi.
  - vm_compute. reflexivity.
Defined.

(** ** Dependency lists that are not objects *)

Lemma digits_of_uint d :
  Forall (λ a, (48 ≤ N_of_ascii a ≤ 57)%N)
    (list_ascii_of_string (DecimalString.NilEmpty.string_of_uint d)).
Proof.
  induction d; cbn [DecimalString.NilEmpty.string_of_uint list_ascii_of_string];
    constructor; try done; vm_compute; split; discriminate.
Qed.

Lemma decimal_digits n : Forall (λ c, (48 ≤ c ≤ 57)%N) (decimal n).
Proof.
  unfold decimal, lit, DecimalString.NilZero.string_of_uint.
  apply Forall_fmap.
  destruct (Nat.to_uint n) eqn:E;
    try (rewrite <- E; apply digits_of_uint).
  repeat constructor; vm_compute; discriminate.
Qed.

Lemma dom_own_props_indices v (key : jsstring) :
  (∀ props, v ≠ JObj props) →
  key ∈ dom (own_props v) → ∃ i, key = decimal i.
Proof.
  intros Hv. destruct v as [| | |s|elems|props]; cbn [own_props];
    try (rewrite dom_empty; intros H; by apply elem_of_empty in H).
  - rewrite dom_list_to_map, elem_of_list_to_set, list_elem_of_fmap.
    intros ([k x] & -> & Hin). apply elem_of_lookup_imap_1 in Hin
      as (i & c & [= -> ->] & _). eauto.
  - rewrite dom_list_to_map, elem_of_list_to_set, list_elem_of_fmap.
    intros ([k x] & -> & Hin). apply elem_of_lookup_imap_1 in Hin
      as (i & c & [= -> ->] & _). eauto.
  - destruct (Hv props eq_refl).
Qed.

Lemma or_empty_not_object x :
  (∀ props, x ≠ Some (JObj props)) →
  or_empty x = JObj ∅ ∨ ∀ props, or_empty x ≠ JObj props.
Proof.
  intros Hx. destruct x as [v|]; cbn [or_empty]; [|by left].
  destruct (truthy v); [|by left]. right. intros props ->. by apply (Hx props).
Qed.

(** X18. A [dependencies] or [devDependencies] entry of the manifest
    that is not an object names no package: spread into the merged
    object, an array or a string only gives its indices as keys, and a
    number, a boolean or [null] gives nothing. When neither entry is an
    object, neither ["next"] nor ["react-native"] is a key of the merged
    dependencies. *)
Theorem non_object_dependencies_name_no_package pkg :
  (∀ props, get_prop pkg (lit "dependencies") ≠ Some (JObj props)) →
  (∀ props, get_prop pkg (lit "devDependencies") ≠ Some (JObj props)) →
  (∀ key, key ∈ dependency_keys pkg → ∃ i, key = decimal i)
  ∧ has_key (lit "next") (merged_deps pkg) = false
  ∧ has_key (lit "react-native") (merged_deps pkg) = false.
Proof.
  intros Hd Hdev.
  assert (Hkeys : ∀ key, key ∈ dependency_keys pkg → ∃ i, key = decimal i).
  { intros key. unfold dependency_keys, merged_deps.
    rewrite dom_union, elem_of_union.
    intros [H|H].
    - destruct (or_empty_not_object _ Hdev) as [E|E].
      + rewrite E in H. cbn [own_props] in H. rewrite dom_empty in H.
        by apply elem_of_empty in H.
      + eapply dom_own_props_indices; eassumption.
    - destruct (or_empty_not_object _ Hd) as [E|E].
      + rewrite E in H. cbn [own_props] in H. rewrite dom_empty in H.
        by apply elem_of_empty in H.
      + eapply dom_own_props_indices; eassumption. }
  split; [exact Hkeys|].
  assert (Hno : ∀ key : jsstring,
            (∃ c, c ∈ key ∧ ¬ (48 ≤ c ≤ 57)%N) →
            has_key key (merged_deps pkg) = false).
  { intros key (c & Hc & Hnd). apply not_true_iff_false.
    intros Hk%has_key_dom. destruct (Hkeys key Hk) as [i ->].
    pose proof (decimal_digits i) as Hall.
    rewrite Forall_forall in Hall. apply Hnd, Hall, Hc. }
  split; apply Hno; exists (N_of_ascii "n");
    (split; [apply (bool_decide_unpack _); vm_compute; exact I
            |change (N_of_ascii "n") with 110%N; lia]).
Qed.

Lemma non_object_dependencies_name_no_package_witness :
  let pkg := JObj {[ lit "dependencies" := JArr [JStr (lit "next")] ]} in
  (∀ key, key ∈ dependency_keys pkg → ∃ i, key = decimal i)
  ∧ has_key (lit "next") (merged_deps pkg) = false
  ∧ has_key (lit "react-native") (merged_deps pkg) = false.
Proof.
  intros pkg.
  apply (non_object_dependencies_name_no_package pkg).
  - intros props. vm_compute. discriminate.
  - intros props. vm_compute. discriminate.
Defined.
